(** * immutable-dll: a doubly linked list with clone-on-write / clone-on-read

    Shallow embedding of [src/modules/Node.ts] and [src/modules/DLinkedList.ts].
    JavaScript objects live in a store: [Node] cells and [DLinkedList] objects
    are addressed by location, payloads are JavaScript values whose composite
    parts carry a reference identity, so that aliasing can be stated.

    Conventions of the embedding:
    - a method is a computation over the store that returns, throws, waits
      for ever on a promise, or loops for ever; [this] is the location of the
      receiver, and a method that ends with [return this] returns it;
    - [length] is a JavaScript number that only ever moves by 1 from 0: an
      integer, modelled by [Z];
    - an array argument is the finite sequence of its elements (no holes);
    - predicates and iteratees are functions of their arguments: they do not
      touch the list they are applied to;
    - [lodash.isplainobject] and [lodash.clonedeep] are not part of the
      repository and are modelled from section 6 of the specification. *)

From stdpp Require Import base numbers strings option list.

Local Open Scope Z_scope.

(** ** JavaScript values *)

Definition loc := nat.

(** What kind of object a composite value is: a plain object ([{a: 1}]),
    an array, or an instance of some class (not plain, not an array). *)
Inductive kind := PlainObject | ArrayObject | ClassInstance.

(** Payload values.  [VFun] and [VComp] carry the identity of the object;
    two values alias each other when they share an identity. *)
#[warnings="-register-all"]
Inductive value :=
| VNull
| VUndefined
| VBool (b : bool)
| VNum (z : Z)
| VStr (s : string)
| VFun (f : loc)
| VComp (k : kind) (r : loc) (props : list (string * value)).

(** Modelled from the spec: lodash.isplainobject is not part of the
    repository; the "is-composite" capability classifies keyed records. *)
Definition isPlainObject (obj : value) : bool :=
  match obj with VComp PlainObject _ _ => true | _ => false end.

(** [Array.isArray]. *)
Definition isArray (obj : value) : bool :=
  match obj with VComp ArrayObject _ _ => true | _ => false end.

(** Modelled from the spec: lodash.clonedeep is not part of the repository;
    the deep-structural-clone capability returns a fully independent
    structural copy: every object of the input is re-allocated at a fresh
    identity (taken from the allocation counter [n]), scalars and callables
    are returned as they are. *)
Fixpoint cloneDeep (v : value) (n : loc) : value * loc :=
  match v with
  | VComp k _ props =>
      let fix go (ps : list (string * value)) (n : loc) : list (string * value) * loc :=
        match ps with
        | [] => ([], n)
        | (key, x) :: rest =>
            let '(x', n1) := cloneDeep x n in
            let '(rest', n2) := go rest n1 in
            ((key, x') :: rest', n2)
        end in
      let '(props', n') := go props (S n) in
      (VComp k n props', n')
  | _ => (v, n)
  end.

(** The loop of [cloneDeep] over the properties of an object. *)
Fixpoint cloneProps (ps : list (string * value)) (n : loc) : list (string * value) * loc :=
  match ps with
  | [] => ([], n)
  | (key, x) :: rest =>
      let '(x', n1) := cloneDeep x n in
      let '(rest', n2) := cloneProps rest n1 in
      ((key, x') :: rest', n2)
  end.

(** Structure of a value with every object identity erased: two values are
    structurally equal when their shapes coincide. *)
Fixpoint shape (v : value) : value :=
  match v with
  | VComp k _ props => VComp k 0%nat (map (λ p, (p.1, shape p.2)) props)
  | _ => v
  end.

Definition struct_eq (v w : value) : Prop := shape v = shape w.

(** Identities of the (mutable) objects a value is made of. *)
Fixpoint refs (v : value) : list loc :=
  match v with
  | VComp _ r props => r :: flat_map (λ p, refs p.2) props
  | _ => []
  end.

(** Two values are independent when they share no object. *)
Definition independent (v w : value) : Prop := ∀ r, r ∈ refs v → r ∉ refs w.

(** Every object of [v] was allocated before the counter reached [n]. *)
Definition allocated (n : loc) (v : value) : Prop := Forall (λ r, (r < n)%nat) (refs v).

(** ** The store *)

(** A reference to a node, or [null]. *)
Definition ref := option loc.

Module NodeObj.
(** Fields of [class Node<T>]. *)
Record t := mk { data : value; next : ref; prev : ref }.
End NodeObj.

Module ListObj.
(** Fields of [class DLinkedList<T>]. *)
Record t := mk { head_node : ref; tail_node : ref; length : Z }.
End ListObj.

Record Store := mkStore {
  nodes : list NodeObj.t;      (* every Node ever constructed, by location *)
  dlls : list ListObj.t;       (* every DLinkedList ever constructed *)
  next_ref : loc               (* allocation counter of payload objects *)
}.

Definition empty_store : Store := mkStore [] [] 0%nat.

(** ** Computations: state, exceptions, non-termination *)

Inductive exn := TypeError | Error (msg : string).

Inductive outcome (A : Type) :=
| Ret (a : A) (s : Store)        (* normal completion *)
| Throw (e : exn) (s : Store)    (* abrupt completion *)
| Blocked (s : Store)            (* an [await] on a promise that never settles *)
| Diverge                        (* a loop that never ends *)
| Fault.                         (* a dangling location: not reachable from JavaScript *)
Arguments Ret {A} a s.
Arguments Throw {A} e s.
Arguments Blocked {A} s.
Arguments Diverge {A}.
Arguments Fault {A}.

Definition M (A : Type) : Type := Store → outcome A.

Definition ret {A} (a : A) : M A := λ s, Ret a s.

Definition bind {A B} (m : M A) (k : A → M B) : M B :=
  λ s, match m s with
       | Ret a s' => k a s'
       | Throw e s' => Throw e s'
       | Blocked s' => Blocked s'
       | Diverge => Diverge
       | Fault => Fault
       end.

Definition throw {A} (e : exn) : M A := λ s, Throw e s.
Definition diverge {A} : M A := λ _, Diverge.

Declare Scope js_scope.
Delimit Scope js_scope with js.
Notation "'let!' x ':=' m 'in' k" := (bind m (λ x, k))
  (at level 10, x name, m at level 100, k at level 200) : js_scope.
Notation "m ';;' k" := (bind m (λ _, k))
  (at level 100, k at level 200, right associativity) : js_scope.
Local Open Scope js_scope.

(** Number of nodes in the store: a walk along [next] (or [prev]) that visits
    more nodes than that has entered a cycle. *)
Definition heap_size : M nat := λ s, Ret (List.length (nodes s)) s.

Definition load_node (l : loc) : M NodeObj.t :=
  λ s, match nodes s !! l with Some n => Ret n s | None => Fault end.

Definition store_node (l : loc) (n : NodeObj.t) : M unit :=
  λ s, Ret () (mkStore (<[l := n]> (nodes s)) (dlls s) (next_ref s)).

Definition alloc_node (n : NodeObj.t) : M loc :=
  λ s, Ret (List.length (nodes s)) (mkStore (nodes s ++ [n]) (dlls s) (next_ref s)).

Definition load_list (d : loc) : M ListObj.t :=
  λ s, match dlls s !! d with Some o => Ret o s | None => Fault end.

Definition store_list (d : loc) (o : ListObj.t) : M unit :=
  λ s, Ret () (mkStore (nodes s) (<[d := o]> (dlls s)) (next_ref s)).

Definition alloc_list (o : ListObj.t) : M loc :=
  λ s, Ret (List.length (dlls s)) (mkStore (nodes s) (dlls s ++ [o]) (next_ref s)).

(** Member access on a reference: [null.m(...)] throws a [TypeError]. *)
Definition deref (r : ref) : M loc :=
  match r with Some l => ret l | None => throw TypeError end.

(** [clonePlain] of Node.ts:
    [(isPlainObject(obj) || Array.isArray(obj)) ? cloneDeep(obj) : obj]. *)
Definition clonePlain_at (obj : value) (n : loc) : value * loc :=
  if isPlainObject obj || isArray obj then cloneDeep obj n else (obj, n).

(** The same inside a computation: the objects of the copy are allocated in
    the store. *)
Definition clonePlain (obj : value) : M value :=
  λ s, let '(v, n) := clonePlain_at obj (next_ref s) in
       Ret v (mkStore (nodes s) (dlls s) n).

(** ** class Node *)

Module Node.
(** [constructor(data, prev?, next?)]. *)
Definition new (data : value) (prev next : ref) : M ref :=
  let! d := clonePlain data in
  let! l := alloc_node (NodeObj.mk d next prev) in
  ret (Some l).

Definition getData (this : ref) : M value :=
  let! l := deref this in
  let! n := load_node l in
  clonePlain (NodeObj.data n).

Definition setNext (this : ref) (node : ref) : M unit :=
  let! l := deref this in
  let! n := load_node l in
  store_node l (NodeObj.mk (NodeObj.data n) node (NodeObj.prev n)).

Definition getNext (this : ref) : M ref :=
  let! l := deref this in
  let! n := load_node l in
  ret (NodeObj.next n).

Definition setPrev (this : ref) (node : ref) : M unit :=
  let! l := deref this in
  let! n := load_node l in
  store_node l (NodeObj.mk (NodeObj.data n) (NodeObj.next n) node).

Definition getPrev (this : ref) : M ref :=
  let! l := deref this in
  let! n := load_node l in
  ret (NodeObj.prev n).
End Node.

(** ** Promises *)

(** How a promise ends: fulfilled, rejected, or never settled. *)
Inductive fate (A : Type) :=
| Fulfilled (a : A)
| Rejected (e : exn)
| Pending.
Arguments Fulfilled {A} a.
Arguments Rejected {A} e.
Arguments Pending {A}.

(** A promise with the instant at which it settles (meaningless when it
    stays pending). *)
Record promise (A : Type) := mkPromise { settles_at : nat; fate_of : fate A }.
Arguments mkPromise {A} _ _.
Arguments settles_at {A} _.
Arguments fate_of {A} _.

(** What a call of an iteratee of type [(T) => Promise<V> | V] yields. *)
Inductive answer (V : Type) :=
| Plain (v : V)                (* a value, synchronously *)
| Promised (p : promise V)     (* a promise *)
| Raises (e : exn).            (* the call throws *)
Arguments Plain {V} v.
Arguments Promised {V} p.
Arguments Raises {V} e.

(** Calling an iteratee inside the computation. *)
Definition call {V} (a : answer V) : M (V + promise V) :=
  match a with
  | Plain v => ret (inl v)
  | Promised p => ret (inr p)
  | Raises e => throw e
  end.

(** [Promise.resolve(x)]: a promise is returned as it is, a value becomes a
    promise already fulfilled with it. *)
Definition Promise_resolve {V} (x : V + promise V) : promise V :=
  match x with
  | inl v => mkPromise 0%nat (Fulfilled v)
  | inr p => p
  end.

(** The first rejection among [ps] in order of settlement (the earlier
    position wins a tie). *)
Fixpoint first_rejection {V} (ps : list (promise V)) : option (nat * exn) :=
  match ps with
  | [] => None
  | p :: rest =>
      match fate_of p, first_rejection rest with
      | Rejected e, Some (t', e') =>
          if (settles_at p <=? t')%nat then Some (settles_at p, e) else Some (t', e')
      | Rejected e, None => Some (settles_at p, e)
      | _, r => r
      end
  end.

(** The values of [ps] when all of them are fulfilled. *)
Fixpoint all_fulfilled {V} (ps : list (promise V)) : option (list V) :=
  match ps with
  | [] => Some []
  | p :: rest =>
      match fate_of p, all_fulfilled rest with
      | Fulfilled v, Some vs => Some (v :: vs)
      | _, _ => None
      end
  end.

(** [Promise.all(ps)]: rejected as soon as one of [ps] is, fulfilled with
    all the values (in the order of [ps]) when all are, pending otherwise. *)
Definition Promise_all {V} (ps : list (promise V)) : promise (list V) :=
  match first_rejection ps with
  | Some (t, e) => mkPromise t (Rejected e)
  | None =>
      match all_fulfilled ps with
      | Some vs => mkPromise (foldr Nat.max 0%nat (map settles_at ps)) (Fulfilled vs)
      | None => mkPromise 0%nat Pending
      end
  end.

(** [await p] inside an async function. *)
Definition await {V} (p : promise V) : M V :=
  match fate_of p with
  | Fulfilled v => ret v
  | Rejected e => throw e
  | Pending => λ s, Blocked s
  end.

(** The promise returned by a call of an [async] function with body [m]:
    a [throw] in the body rejects it. *)
Definition settled {A} (r : outcome A) : outcome (fate A) :=
  match r with
  | Ret a s' => Ret (Fulfilled a) s'
  | Throw e s' => Ret (Rejected e) s'
  | Blocked s' => Ret Pending s'
  | Diverge => Diverge
  | Fault => Fault
  end.

Definition async {A} (m : M A) : M (fate A) := λ s, settled (m s).

(** ** class DLinkedList *)

(** Every method of the class.  The iteratee of [each] and [eachRight] is run
    for its effects on what it closes over: that environment is passed to
    it and returned with the list. *)

Module DLinkedList.

Definition get_head_node (this : loc) : M ref :=
  let! o := load_list this in ret (ListObj.head_node o).
Definition get_tail_node (this : loc) : M ref :=
  let! o := load_list this in ret (ListObj.tail_node o).
Definition get_length (this : loc) : M Z :=
  let! o := load_list this in ret (ListObj.length o).
Definition set_head_node (this : loc) (r : ref) : M unit :=
  let! o := load_list this in
  store_list this (ListObj.mk r (ListObj.tail_node o) (ListObj.length o)).
Definition set_tail_node (this : loc) (r : ref) : M unit :=
  let! o := load_list this in
  store_list this (ListObj.mk (ListObj.head_node o) r (ListObj.length o)).
Definition set_length (this : loc) (n : Z) : M unit :=
  let! o := load_list this in
  store_list this (ListObj.mk (ListObj.head_node o) (ListObj.tail_node o) n).

(** [new DLinkedList()]. *)
Definition new : M loc := alloc_list (ListObj.mk None None 0).

Definition head (this : loc) : M value :=
  let! h := get_head_node this in
  match h with
  | Some _ => Node.getData h
  | None => ret VNull
  end.

Definition headNode (this : loc) : M ref :=
  let! h := get_head_node this in
  match h with Some _ => ret h | None => ret None end.

Definition tail (this : loc) : M value :=
  let! t := get_tail_node this in
  match t with
  | Some _ => Node.getData t
  | None => ret VNull
  end.

Definition tailNode (this : loc) : M ref :=
  let! t := get_tail_node this in
  match t with Some _ => ret t | None => ret None end.

Definition prepend (this : loc) (data : value) : M loc :=
  let! h := get_head_node this in
  match h with
  | None =>
      let! n := Node.new data None None in
      set_head_node this n;;
      let! h' := get_head_node this in
      set_tail_node this h'
  | Some _ =>
      let! n := Node.new data None h in
      let! h' := get_head_node this in
      Node.setPrev h' n;;
      set_head_node this n
  end;;
  let! len := get_length this in
  set_length this (len + 1);;
  ret this.

Definition append (this : loc) (data : value) : M loc :=
  let! h := get_head_node this in
  match h with
  | None =>
      let! n := Node.new data None None in
      set_head_node this n;;
      let! h' := get_head_node this in
      set_tail_node this h'
  | Some _ =>
      let! t := get_tail_node this in
      let! n := Node.new data t None in
      let! t' := get_tail_node this in
      Node.setNext t' n;;
      set_tail_node this n
  end;;
  let! len := get_length this in
  set_length this (len + 1);;
  ret this.

(** [arr.forEach((value) => { this.append(value) })]: the elements in index
    order. *)
Fixpoint forEach_append (this : loc) (arr : list value) : M unit :=
  match arr with
  | [] => ret ()
  | v :: rest => append this v;; forEach_append this rest
  end.

(** The instance form of [fromArray]. *)
Definition fromArray (this : loc) (arr : list value) : M loc :=
  forEach_append this arr;;
  ret this.

(** The static form of [fromArray]. *)
Definition fromArray_static (arr : list value) : M loc :=
  let! dll := new in
  fromArray dll arr;;
  ret dll.

Fixpoint findNode_loop (fuel : nat) (predicate : value → bool) (current : ref) : M ref :=
  match current with
  | None => ret None
  | Some _ =>
      match fuel with
      | O => diverge
      | S fuel' =>
          let! data := Node.getData current in
          if predicate data then ret current
          else
            let! nx := Node.getNext current in
            findNode_loop fuel' predicate nx
      end
  end.

Definition findNode (this : loc) (predicate : value → bool) : M ref :=
  let! current := get_head_node this in
  let! fuel := heap_size in
  findNode_loop fuel predicate current.

Definition find (this : loc) (predicate : value → bool) : M value :=
  let! node := findNode this predicate in
  match node with
  | Some _ => Node.getData node
  | None => ret VNull
  end.

Definition insertAfterNode (this : loc) (node : ref) (data : value) : M loc :=
  match node with
  | Some _ =>
      let! nx := Node.getNext node in
      match nx with
      | None => append this data
      | Some _ =>
          let! nx' := Node.getNext node in
          let! n := Node.new data node nx' in
          let! nx'' := Node.getNext node in
          Node.setPrev nx'' n;;
          Node.setNext node n;;
          let! len := get_length this in
          set_length this (len + 1);;
          ret this
      end
  | None => throw (Error "Not able to insert data.")
  end.

Definition insertAfter (this : loc) (predicate : value → bool) (data : value) : M loc :=
  let! node := findNode this predicate in
  match node with
  | None => throw (Error "Unable to find a node matching predicate.")
  | Some _ => insertAfterNode this node data
  end.

Definition insertBeforeNode (this : loc) (node : ref) (data : value) : M loc :=
  match node with
  | Some _ =>
      let! pv := Node.getPrev node in
      match pv with
      | None => prepend this data
      | Some _ =>
          let! pv' := Node.getPrev node in
          let! n := Node.new data pv' node in
          let! pv'' := Node.getPrev node in
          Node.setNext pv'' n;;
          Node.setPrev node n;;
          let! len := get_length this in
          set_length this (len + 1);;
          ret this
      end
  | None => throw (Error "Unable to insert data.")
  end.

Definition insertBefore (this : loc) (predicate : value → bool) (data : value) : M loc :=
  let! node := findNode this predicate in
  match node with
  | None => throw (Error "Unable to find a node matching predicate.")
  | Some _ => insertBeforeNode this node data
  end.

Definition removeHead (this : loc) : M loc :=
  let! h := get_head_node this in
  match h with
  | Some _ =>
      let! nx := Node.getNext h in
      match nx with
      | None =>
          set_head_node this None;;
          set_tail_node this None
      | Some _ =>
          let! h0 := get_head_node this in
          let! nx' := Node.getNext h0 in
          set_head_node this nx';;
          let! h1 := get_head_node this in
          Node.setPrev h1 None
      end;;
      let! len := get_length this in
      set_length this (len - 1)
  | None => ret ()
  end;;
  ret this.

Definition removeTail (this : loc) : M loc :=
  let! t := get_tail_node this in
  match t with
  | Some _ =>
      let! pv := Node.getPrev t in
      match pv with
      | None =>
          set_head_node this None;;
          set_tail_node this None
      | Some _ =>
          let! t0 := get_tail_node this in
          let! pv' := Node.getPrev t0 in
          set_tail_node this pv';;
          let! t1 := get_tail_node this in
          Node.setNext t1 None
      end;;
      let! len := get_length this in
      set_length this (len - 1)
  | None => ret ()
  end;;
  ret this.

Definition removeNode (this : loc) (node : ref) : M loc :=
  match node with
  | Some _ =>
      let! pv := Node.getPrev node in
      match pv with
      | None => removeHead this
      | Some _ =>
          let! pv' := Node.getPrev node in
          let! nx := Node.getNext node in
          Node.setNext pv' nx;;
          let! nx' := Node.getNext node in
          let! pv'' := Node.getPrev node in
          Node.setPrev nx' pv'';;
          let! len := get_length this in
          set_length this (len - 1);;
          ret this
      end
  | None => ret this
  end.

Definition remove (this : loc) (predicate : value → bool) : M loc :=
  let! node := findNode this predicate in
  removeNode this node.

Definition clear (this : loc) : M loc :=
  set_head_node this None;;
  set_tail_node this None;;
  set_length this 0;;
  ret this.

(** [while (current !== null) { acc = body(current, acc); current = advance(current) }]:
    the traversal loop shared by the methods below, [acc] standing for the
    variables the body assigns.  The fuel is the number of nodes of the store
    ([heap_size]); a walk that exhausts it goes round a cycle for ever. *)
Fixpoint while_node {A} (fuel : nat) (body : ref → A → M A) (advance : ref → M ref)
    (current : ref) (acc : A) : M A :=
  match current with
  | None => ret acc
  | Some _ =>
      match fuel with
      | O => diverge
      | S fuel' =>
          let! acc' := body current acc in
          let! nx := advance current in
          while_node fuel' body advance nx acc'
      end
  end.

Definition toArray (this : loc) : M (list value) :=
  let! current := get_head_node this in
  let! fuel := heap_size in
  while_node fuel
    (λ current results, let! d := Node.getData current in ret (results ++ [d]))
    Node.getNext current [].

(** [iteratee ? iteratee : ident => ident]. *)
Definition mapFn_of (iteratee : option (value → value)) : value → value :=
  match iteratee with
  | Some f => f
  | None => λ ident, ident
  end.

Definition map (this : loc) (iteratee : option (value → value)) : M loc :=
  let! current := get_head_node this in
  let mapFn := mapFn_of iteratee in
  let! fuel := heap_size in
  let! results :=
    while_node fuel
      (λ current results, let! d := Node.getData current in ret (results ++ [mapFn d]))
      Node.getNext current [] in
  fromArray_static results.

Definition mapRight (this : loc) (iteratee : option (value → value)) : M loc :=
  let! current := get_tail_node this in
  let mapFn := mapFn_of iteratee in
  let! fuel := heap_size in
  let! results :=
    while_node fuel
      (λ current results, let! d := Node.getData current in ret (results ++ [mapFn d]))
      Node.getPrev current [] in
  fromArray_static results.

Definition asyncMap (this : loc) (iteratee : value → answer value) : M (fate loc) :=
  async (
    let! current := get_head_node this in
    let! fuel := heap_size in
    let! results :=
      while_node fuel
        (λ current results,
           let! d := Node.getData current in
           let! x := call (iteratee d) in
           ret (results ++ [Promise_resolve x]))
        Node.getNext current [] in
    let! unwrapped := await (Promise_all results) in
    fromArray_static unwrapped).

Definition asyncMapRight (this : loc) (iteratee : value → answer value) : M (fate loc) :=
  async (
    let! current := get_tail_node this in
    let! fuel := heap_size in
    let! results :=
      while_node fuel
        (λ current results,
           let! d := Node.getData current in
           let! x := call (iteratee d) in
           ret (results ++ [Promise_resolve x]))
        Node.getPrev current [] in
    let! unwrapped := await (Promise_all results) in
    fromArray_static unwrapped).

Definition filter (this : loc) (predicate : value → bool) : M loc :=
  let! current := get_head_node this in
  let! fuel := heap_size in
  let! results :=
    while_node fuel
      (λ current results,
         let! data := Node.getData current in
         if predicate data then ret (results ++ [data]) else ret results)
      Node.getNext current [] in
  fromArray_static results.

Definition reduce {V} (this : loc) (iteratee : value → V → V) (accumulator : V) : M V :=
  let acc := accumulator in
  let! current := get_head_node this in
  let! fuel := heap_size in
  while_node fuel
    (λ current acc, let! data := Node.getData current in ret (iteratee data acc))
    Node.getNext current acc.

Definition reduceRight {V} (this : loc) (iteratee : value → V → V) (accumulator : V) : M V :=
  let acc := accumulator in
  let! current := get_tail_node this in
  let! fuel := heap_size in
  while_node fuel
    (λ current acc, let! data := Node.getData current in ret (iteratee data acc))
    Node.getPrev current acc.

(** The recursive [stepper] of [asyncReduce] and [asyncReduceRight]; [acc] is
    the variable of the enclosing method that every step assigns.  Each step
    returns the promise of the next one, so the promise of the first call
    ends as the last one does. *)
Fixpoint stepper {V} (fuel : nat) (iteratee : value → V → answer V) (advance : ref → M ref)
    (node : ref) (acc : V) : M V :=
  match node with
  | None => ret acc
  | Some _ =>
      match fuel with
      | O => diverge
      | S fuel' =>
          let! d := Node.getData node in
          let! x := call (iteratee d acc) in
          let! acc' := await (Promise_resolve x) in
          let! nx := advance node in
          stepper fuel' iteratee advance nx acc'
      end
  end.

Definition asyncReduce {V} (this : loc) (iteratee : value → V → answer V) (accumulator : V)
    : M (fate V) :=
  async (
    let acc := accumulator in
    let! h := get_head_node this in
    let! fuel := heap_size in
    stepper fuel iteratee Node.getNext h acc).

Definition asyncReduceRight {V} (this : loc) (iteratee : value → V → answer V) (accumulator : V)
    : M (fate V) :=
  async (
    let acc := accumulator in
    let! t := get_tail_node this in
    let! fuel := heap_size in
    stepper fuel iteratee Node.getPrev t acc).

Definition each {E} (this : loc) (iteratee : value → E → E) (env : E) : M (loc * E) :=
  let! current := get_head_node this in
  let! fuel := heap_size in
  let! env' :=
    while_node fuel
      (λ current env, let! d := Node.getData current in ret (iteratee d env))
      Node.getNext current env in
  ret (this, env').

Definition eachRight {E} (this : loc) (iteratee : value → E → E) (env : E) : M (loc * E) :=
  let! current := get_tail_node this in
  let! fuel := heap_size in
  let! env' :=
    while_node fuel
      (λ current env, let! d := Node.getData current in ret (iteratee d env))
      Node.getPrev current env in
  ret (this, env').

End DLinkedList.

(** ** Abstract view of a list *)

(** [clonePlain] applied to every element of a sequence in turn. *)
Fixpoint clone_all (vs : list value) (n : loc) : list value * loc :=
  match vs with
  | [] => ([], n)
  | v :: rest =>
      let '(v', n1) := clonePlain_at v n in
      let '(rest', n2) := clone_all rest n1 in
      (v' :: rest', n2)
  end.

(** A chain is described by its cells, head to tail: the location of each
    node and the payload it stores. *)
Definition first_of (cs : list (loc * value)) (q : ref) : ref :=
  match cs with
  | [] => q
  | c :: _ => Some c.1
  end.

Definition last_of (p : ref) (cs : list (loc * value)) : ref :=
  foldl (λ _ c, Some c.1) p cs.

(** [seg N p cs q]: in the node store [N] the cells [cs] are doubly linked
    in this order, the first one having [p] as [prev] and the last one [q]
    as [next]. *)
Fixpoint seg (N : list NodeObj.t) (p : ref) (cs : list (loc * value)) (q : ref) : Prop :=
  match cs with
  | [] => True
  | c :: rest =>
      N !! c.1 = Some (NodeObj.mk c.2 (first_of rest q) p) ∧ seg N (Some c.1) rest q
  end.

(** [is_list s d cs]: in store [s] the list object at [d] is a correctly
    linked list whose cells are [cs]. *)
Definition is_list (s : Store) (d : loc) (cs : list (loc * value)) : Prop :=
  dlls s !! d = Some (ListObj.mk (first_of cs None) (last_of None cs) (Z.of_nat (List.length cs)))
  ∧ seg (nodes s) None cs None
  ∧ NoDup cs.*1.

(** Everything that exists in [s] and is neither the list object [d] nor a
    node of [ls] is still there, unchanged, in [s']. *)
Definition preserves (d : loc) (ls : list loc) (s s' : Store) : Prop :=
  (∀ l nd, l ∉ ls → nodes s !! l = Some nd → nodes s' !! l = Some nd)
  ∧ (∀ d' o, d' ≠ d → dlls s !! d' = Some o → dlls s' !! d' = Some o).

(** Number of nodes met walking [next] from [current] until [null] ([None]
    when the walk does not end within [fuel] steps or leaves the store). *)
Fixpoint count_next (N : list NodeObj.t) (fuel : nat) (current : ref) : option nat :=
  match current with
  | None => Some O
  | Some l =>
      match fuel with
      | O => None
      | S fuel' => nd ← N !! l; S <$> count_next N fuel' (NodeObj.next nd)
      end
  end.

(** The same walking [prev]. *)
Fixpoint count_prev (N : list NodeObj.t) (fuel : nat) (current : ref) : option nat :=
  match current with
  | None => Some O
  | Some l =>
      match fuel with
      | O => None
      | S fuel' => nd ← N !! l; S <$> count_prev N fuel' (NodeObj.prev nd)
      end
  end.

(** The [length] invariant of the data model, on the list object at [d]. *)
Definition length_invariant (s : Store) (d : loc) : Prop :=
  ∃ o, dlls s !! d = Some o
  ∧ (∃ k : nat, ListObj.length o = Z.of_nat k
       ∧ count_next (nodes s) (List.length (nodes s)) (ListObj.head_node o) = Some k
       ∧ count_prev (nodes s) (List.length (nodes s)) (ListObj.tail_node o) = Some k)
  ∧ (ListObj.length o = 0 ↔ ListObj.head_node o = None)
  ∧ (ListObj.head_node o = None ↔ ListObj.tail_node o = None).

(** What [cloneDeep] guarantees: same structure, objects allocated at the
    counter and after. *)
Definition clone_ok (v : value) : Prop :=
  ∀ n, shape (cloneDeep v n).1 = shape v
       ∧ (n ≤ (cloneDeep v n).2)%nat
       ∧ Forall (λ r, (n ≤ r < (cloneDeep v n).2)%nat) (refs (cloneDeep v n).1).

(** Cells that [fromArray] adds to a chain: the nodes are allocated one
    after the other from location [l], each storing its own clone. *)
Fixpoint appended (l : loc) (vs : list value) (n : loc) : list (loc * value) :=
  match vs with
  | [] => []
  | v :: rest => (l, (clonePlain_at v n).1) :: appended (S l) rest (clonePlain_at v n).2
  end.

(** Outcome of a loop body that leaves the store alone. *)
Inductive pure_result (A : Type) :=
| Continue (a : A)
| Raise (e : exn)
| Wait.
Arguments Continue {A} a.
Arguments Raise {A} e.
Arguments Wait {A}.

Definition lift {A} (r : pure_result A) : M A :=
  λ s, match r with
       | Continue a => Ret a s
       | Raise e => Throw e s
       | Wait => Blocked s
       end.

(** A traversal seen from outside the store: the payloads [vs] are cloned
    one after the other, [k] is run on each clone, and the traversal stops
    at the first clone on which [k] does not continue. *)
Fixpoint walk {A} (k : value → A → pure_result A) (vs : list value) (acc : A) (n : loc)
    : pure_result A * loc :=
  match vs with
  | [] => (Continue acc, n)
  | v :: rest =>
      match k (clonePlain_at v n).1 acc with
      | Continue a => walk k rest a (clonePlain_at v n).2
      | r => (r, (clonePlain_at v n).2)
      end
  end.

(** The head-to-tail scan of [findNode] seen from outside the store: the
    node found (if any) and the allocation counter after the clones made. *)
Fixpoint find_cell (predicate : value → bool) (cs : list (loc * value)) (n : loc) : ref * loc :=
  match cs with
  | [] => (None, n)
  | c :: rest =>
      if predicate (clonePlain_at c.2 n).1 then (Some c.1, (clonePlain_at c.2 n).2)
      else find_cell predicate rest (clonePlain_at c.2 n).2
  end.

(** The instance form of [fromArray] on a list just constructed:
    [const dll = new DLinkedList(); dll.fromArray(arr)]. *)
Definition fromArray_instance (arr : list value) : M loc :=
  let! dll := DLinkedList.new in
  DLinkedList.fromArray dll arr.

(** [fromArray] is [append] on each element in order. *)
Definition append_each (this : loc) (arr : list value) : M loc :=
  foldr (λ v rest, DLinkedList.append this v;; rest) (ret this) arr.

(** A predicate in the style of [v => v === null]. *)
Definition is_null (v : value) : bool := match v with VNull => true | _ => false end.

(** A predicate in the style of [v => v === z]. *)
Definition is_num (z : Z) (v : value) : bool :=
  match v with VNum z' => bool_decide (z' = z) | _ => false end.

(** The store after [DLinkedList.fromArray([1, 2, 3])] on the empty store:
    the list is at location 0. *)
Definition store_123 : Store :=
  Eval vm_compute in
    match DLinkedList.fromArray_static [VNum 1; VNum 2; VNum 3] empty_store with
    | Ret _ s => s
    | _ => empty_store
    end.

Definition cells_123 : list (loc * value) :=
  [(0%nat, VNum 1); (1%nat, VNum 2); (2%nat, VNum 3)].

(** The error of [insertAfter] and [insertBefore] when no node matches
    (the spec's [NotFound]). *)
Definition NotFound : exn := Error "Unable to find a node matching predicate.".

(** The error of [insertAfterNode] on a missing node (the spec's
    [InvalidReference]); [insertBeforeNode] has its own message. *)
Definition InvalidReference : exn := Error "Not able to insert data.".

(** What [acc = await Promise.resolve(x)] does with the answer [x] of the
    iteratee. *)
Definition settle {V} (a : answer V) : pure_result V :=
  match a with
  | Plain v => Continue v
  | Promised p =>
      match fate_of p with
      | Fulfilled v => Continue v
      | Rejected e => Raise e
      | Pending => Wait
      end
  | Raises e => Raise e
  end.

(** What [results.push(Promise.resolve(x))] does with the answer [x]. *)
Definition dispatch {V} (a : answer V) (results : list (promise V))
    : pure_result (list (promise V)) :=
  match a with
  | Plain v => Continue (results ++ [mkPromise 0%nat (Fulfilled v)])
  | Promised p => Continue (results ++ [p])
  | Raises e => Raise e
  end.

(** An invocation of the iteratee fails when it throws or returns a promise
    that is rejected. *)
Definition failed {V} (a : answer V) : Prop :=
  match a with
  | Plain _ => False
  | Promised p => ∃ e, fate_of p = Rejected e
  | Raises _ => True
  end.

Definition rejected {V} (p : promise V) : Prop := ∃ e, fate_of p = Rejected e.

(** An iteratee in the style of [(v, acc) => acc + v]. *)
Definition add_num (v : value) (acc : Z) : Z :=
  match v with VNum z => (acc + z)%Z | _ => acc end.

(** The same answering with a plain value on [2] and with a promise on
    anything else. *)
Definition add_num_async (v : value) (acc : Z) : answer Z :=
  if is_num 2 v then Plain (add_num v acc)
  else Promised (mkPromise 5%nat (Fulfilled (add_num v acc))).

(** An iteratee that answers [2] with a promise that is rejected, and any
    other value with the value itself. *)
Definition reject_two (v : value) : answer value :=
  if is_num 2 v then Promised (mkPromise 3%nat (Rejected (Error "two")))
  else Plain v.

(** An iteratee in the style of [n => Promise.resolve(n * n)], settling the
    later the larger [n] is. *)
Definition square_later (v : value) : answer value :=
  match v with
  | VNum z => Promised (mkPromise (Z.to_nat z) (Fulfilled (VNum (z * z))))
  | _ => Plain v
  end.

(** How a caller gets hold of the node it passes to [removeNode],
    [insertAfterNode] or [insertBeforeNode]. *)
Inductive node_query :=
| ByPredicate (predicate : value → bool)   (* [findNode(predicate)] *)
| TheHead                                  (* [headNode()] *)
| TheTail                                  (* [tailNode()] *)
| Null                                     (* the no-value sentinel *)
| Held (node : ref).                       (* a reference the caller holds: got
                                              earlier, or from another list *)

Definition query (this : loc) (q : node_query) : M ref :=
  match q with
  | ByPredicate predicate => DLinkedList.findNode this predicate
  | TheHead => DLinkedList.headNode this
  | TheTail => DLinkedList.tailNode this
  | Null => ret None
  | Held node => ret node
  end.

(** The mutating operations of the list. *)
Inductive op :=
| OpAppend (data : value)
| OpPrepend (data : value)
| OpInsertAfter (predicate : value → bool) (data : value)
| OpInsertBefore (predicate : value → bool) (data : value)
| OpRemove (predicate : value → bool)
| OpRemoveNode (q : node_query)
| OpRemoveHead
| OpRemoveTail
| OpClear
| OpInsertAfterNode (q : node_query) (data : value)
| OpInsertBeforeNode (q : node_query) (data : value)
| OpFromArray (arr : list value).

Definition exec (this : loc) (o : op) : M loc :=
  match o with
  | OpAppend data => DLinkedList.append this data
  | OpPrepend data => DLinkedList.prepend this data
  | OpInsertAfter predicate data => DLinkedList.insertAfter this predicate data
  | OpInsertBefore predicate data => DLinkedList.insertBefore this predicate data
  | OpRemove predicate => DLinkedList.remove this predicate
  | OpRemoveNode q => let! node := query this q in DLinkedList.removeNode this node
  | OpRemoveHead => DLinkedList.removeHead this
  | OpRemoveTail => DLinkedList.removeTail this
  | OpClear => DLinkedList.clear this
  | OpInsertAfterNode q data =>
      let! node := query this q in DLinkedList.insertAfterNode this node data
  | OpInsertBeforeNode q data =>
      let! node := query this q in DLinkedList.insertBeforeNode this node data
  | OpFromArray arr => DLinkedList.fromArray this arr
  end.

(** A sequence of operations, one after the other. *)
Fixpoint exec_all (this : loc) (ops : list op) : M loc :=
  match ops with
  | [] => ret this
  | o :: rest => exec this o;; exec_all this rest
  end.

(** The errors the insertions throw on purpose: no node matches the
    predicate, or the node passed is [null]. *)
Definition insertion_errors : list exn :=
  [NotFound; InvalidReference; Error "Unable to insert data."].

(** The three ways an operation on a correctly linked list can end. *)
Definition returns_linked (d : loc) (r : outcome loc) : Prop :=
  ∃ s' cs', r = Ret d s' ∧ is_list s' d cs'.

Definition throws_error (d : loc) (cs : list (loc * value)) (r : outcome loc) : Prop :=
  ∃ e s', r = Throw e s' ∧ e ∈ insertion_errors ∧ is_list s' d cs.

Definition throws_broken (d : loc) (r : outcome loc) : Prop :=
  ∃ s', r = Throw TypeError s' ∧ ¬ length_invariant s' d.

(** Whether the walk along [next] from [current] meets the node [l]. *)
Fixpoint reaches (N : list NodeObj.t) (fuel : nat) (current : ref) (l : loc) : bool :=
  match current, fuel with
  | Some c, S fuel' =>
      if bool_decide (c = l) then true
      else match N !! c with
           | Some nd => reaches N fuel' (NodeObj.next nd) l
           | None => false
           end
  | _, _ => false
  end.

(** Whether [l] is a node of the list [this] in store [s]. *)
Definition on_list (s : Store) (this : loc) (l : loc) : bool :=
  match dlls s !! this with
  | Some o => reaches (nodes s) (List.length (nodes s)) (ListObj.head_node o) l
  | None => false
  end.

(** The node reference an operation is handed by its caller, if any. *)
Definition held (q : node_query) : ref :=
  match q with Held node => node | _ => None end.

Definition held_node (o : op) : ref :=
  match o with
  | OpRemoveNode q => held q
  | OpInsertAfterNode q _ => held q
  | OpInsertBeforeNode q _ => held q
  | _ => None
  end.

(** The node [o] is handed, if any, is [null] or a node of [this] in [s]. *)
Definition own_node (this : loc) (o : op) (s : Store) : bool :=
  match held_node o with
  | Some l => on_list s this l
  | None => true
  end.

(** The same at every step of a sequence: each operation is handed a node
    that is on the list at the moment the operation starts. *)
Fixpoint own_nodes (this : loc) (ops : list op) (s : Store) : bool :=
  match ops with
  | [] => true
  | o :: rest =>
      own_node this o s
      && match exec this o s with
         | Ret _ s' => own_nodes this rest s'
         | _ => true
         end
  end.

(** The store a computation ends in, when it ends. *)
Definition store_after {A} (r : outcome A) : option Store :=
  match r with
  | Ret _ s => Some s
  | Throw _ s => Some s
  | Blocked s => Some s
  | Diverge => None
  | Fault => None
  end.

(** An iteratee in the style of [v => seen.push(v)]. *)
Definition push (v : value) (seen : list value) : list value := seen ++ [v].

(** A predicate in the style of [v => v >= z]. *)
Definition at_least (z : Z) (v : value) : bool :=
  match v with VNum z' => bool_decide (z ≤ z')%Z | _ => false end.

(** An iteratee in the style of [v => v * v]. *)
Definition square (v : value) : value :=
  match v with VNum z => VNum (z * z) | _ => v end.

(** The payload [{a: []}], its two objects allocated at 0 and 1. *)
Definition obj_a : value := VComp PlainObject 0%nat [("a", VComp ArrayObject 1%nat [])].

(** The store after [DLinkedList.fromArray([{a: []}, 5])] from a store that
    holds [obj_a] already: the list is at location 0. *)
Definition store_obj : Store :=
  Eval vm_compute in
    match DLinkedList.fromArray_static [obj_a; VNum 5] (mkStore [] [] 2%nat) with
    | Ret _ s => s
    | _ => empty_store
    end.

Definition cells_obj : list (loc * value) :=
  [(0%nat, VComp PlainObject 2%nat [("a", VComp ArrayObject 3%nat [])]); (1%nat, VNum 5)].

(** An asynchronous reducer that adds numbers and is rejected on [2]. *)
Definition add_until_two (v : value) (acc : Z) : answer Z :=
  if is_num 2 v then Promised (mkPromise 1%nat (Rejected (Error "two")))
  else Plain (add_num v acc).

(** The store after [DLinkedList.fromArray([7, 8])] on [store_123]: a second
    list, at location 1, beside the one at location 0. *)
Definition store_two : Store :=
  Eval vm_compute in
    match DLinkedList.fromArray_static [VNum 7; VNum 8] store_123 with
    | Ret _ s => s
    | _ => empty_store
    end.

Definition cells_78 : list (loc * value) := [(3%nat, VNum 7); (4%nat, VNum 8)].

(** * Properties *)

Local Open Scope nat_scope.

(** ** Values and cloning *)

(** Induction on values that reaches the properties of objects. *)
Lemma value_ind_props (P : value → Prop) :
  P VNull → P VUndefined → (∀ b, P (VBool b)) → (∀ z, P (VNum z)) →
  (∀ s, P (VStr s)) → (∀ f, P (VFun f)) →
  (∀ k r props, Forall (λ p, P p.2) props → P (VComp k r props)) →
  ∀ v, P v.
Proof.
  intros Hnull Hundef Hbool Hnum Hstr Hfun Hcomp.
  fix IH 1.
  intros [| |b|z|s|f|k r props];
    [apply Hnull|apply Hundef|apply Hbool|apply Hnum|apply Hstr|apply Hfun|].
  apply Hcomp. induction props as [|[key x] rest IHrest]; constructor.
  - apply IH.
  - apply IHrest.
Qed.

Lemma cloneDeep_comp k r props n :
  cloneDeep (VComp k r props) n =
  let '(props', n') := cloneProps props (S n) in (VComp k n props', n').
Proof. reflexivity. Qed.

Lemma cloneProps_ok props :
  Forall (λ p, clone_ok p.2) props →
  ∀ n, List.map (λ p, (p.1, shape p.2)) (cloneProps props n).1
         = List.map (λ p, (p.1, shape p.2)) props
       ∧ n ≤ (cloneProps props n).2
       ∧ Forall (λ r, n ≤ r < (cloneProps props n).2)
           (flat_map (λ p, refs p.2) (cloneProps props n).1).
Proof.
  induction 1 as [|[key x] rest Hx _ IH]; intros n; simpl.
  - split; [done|]. split; [lia|constructor].
  - destruct (Hx n) as (Hs & Hle & Hr). simpl in *.
    destruct (cloneDeep x n) as [x' n1]. simpl in *.
    destruct (IH n1) as (Hs' & Hle' & Hr').
    destruct (cloneProps rest n1) as [rest' n2]. simpl in *.
    split; [by rewrite Hs, Hs'|]. split; [lia|].
    apply Forall_app. split.
    + eapply Forall_impl; [exact Hr|]. simpl. intros; lia.
    + eapply Forall_impl; [exact Hr'|]. simpl. intros; lia.
Qed.

Lemma cloneDeep_ok v : clone_ok v.
Proof.
  induction v as [| | | | | |k r props IH] using value_ind_props;
    try (intros n; simpl; split; [done|]; split; [lia|constructor]; fail).
  intros n. rewrite cloneDeep_comp.
  destruct (cloneProps_ok props IH (S n)) as (Hs & Hle & Hr).
  destruct (cloneProps props (S n)) as [props' n']. simpl in *.
  split; [by rewrite Hs|]. split; [lia|].
  constructor; [lia|]. eapply Forall_impl; [exact Hr|]. simpl. intros; lia.
Qed.

Lemma clonePlain_at_shape v n : struct_eq (clonePlain_at v n).1 v.
Proof.
  unfold clonePlain_at, struct_eq. destruct (_ || _); [|done].
  apply cloneDeep_ok.
Qed.

Lemma clonePlain_at_le v n : n ≤ (clonePlain_at v n).2.
Proof.
  unfold clonePlain_at. destruct (_ || _); [|simpl; lia].
  apply cloneDeep_ok.
Qed.

(** A cloned composite is made of fresh objects only. *)
Lemma clonePlain_at_fresh v n :
  isPlainObject v || isArray v = true →
  Forall (λ r, n ≤ r < (clonePlain_at v n).2) (refs (clonePlain_at v n).1).
Proof.
  unfold clonePlain_at. intros ->. apply cloneDeep_ok.
Qed.

(** Anything else is returned as it is. *)
Lemma clonePlain_at_id v n :
  isPlainObject v || isArray v = false → clonePlain_at v n = (v, n).
Proof. unfold clonePlain_at. by intros ->. Qed.

Lemma clonePlain_at_composite v n :
  isPlainObject (clonePlain_at v n).1 || isArray (clonePlain_at v n).1
  = isPlainObject v || isArray v.
Proof.
  unfold clonePlain_at. destruct (isPlainObject v || isArray v) eqn:E; [|done].
  destruct v as [| | | | | |k r props]; try done.
  rewrite cloneDeep_comp. destruct (cloneProps props (S n)). simpl. done.
Qed.

Lemma clone_all_length vs n : length (clone_all vs n).1 = length vs.
Proof.
  revert n. induction vs as [|v vs IH]; intros n; simpl; [done|].
  destruct (clonePlain_at v n) as [v' n1]. specialize (IH n1).
  destruct (clone_all vs n1) as [vs' n2]. simpl in *. by rewrite IH.
Qed.

Lemma clone_all_app xs ys n :
  clone_all (xs ++ ys) n =
  ((clone_all xs n).1 ++ (clone_all ys (clone_all xs n).2).1,
   (clone_all ys (clone_all xs n).2).2).
Proof.
  revert n. induction xs as [|x xs IH]; intros n; simpl.
  - by destruct (clone_all ys n).
  - destruct (clonePlain_at x n) as [x' n1]. rewrite IH.
    destruct (clone_all xs n1) as [xs' n2]. simpl.
    by destruct (clone_all ys n2).
Qed.

Lemma clone_all_shape vs n : Forall2 struct_eq (clone_all vs n).1 vs.
Proof.
  revert n. induction vs as [|v vs IH]; intros n; simpl; [constructor|].
  pose proof (clonePlain_at_shape v n) as Hv.
  destruct (clonePlain_at v n) as [v' n1]. specialize (IH n1).
  destruct (clone_all vs n1) as [vs' n2]. simpl in *. by constructor.
Qed.

Lemma clone_all_le vs n : n ≤ (clone_all vs n).2.
Proof.
  revert n. induction vs as [|v vs IH]; intros n; simpl; [lia|].
  pose proof (clonePlain_at_le v n) as Hv.
  destruct (clonePlain_at v n) as [v' n1]. specialize (IH n1).
  destruct (clone_all vs n1) as [vs' n2]. simpl in *. lia.
Qed.

(** Scalars go through [clone_all] unchanged. *)
Lemma clone_all_scalars vs n :
  Forall (λ v, isPlainObject v || isArray v = false) vs → clone_all vs n = (vs, n).
Proof.
  induction 1 as [|v vs Hv _ IH]; simpl; [done|].
  by rewrite (clonePlain_at_id _ _ Hv), IH.
Qed.

(** ** Running computations *)

Local Open Scope js_scope.

Lemma bind_run {A B} (m : M A) (k : A → M B) s a s' :
  m s = Ret a s' → bind m k s = k a s'.
Proof. unfold bind. by intros ->. Qed.

Lemma bind_throw {A B} (m : M A) (k : A → M B) s e s' :
  m s = Throw e s' → bind m k s = Throw e s'.
Proof. unfold bind. by intros ->. Qed.

Lemma bind_assoc {A B C} (m : M A) (k1 : A → M B) (k2 : B → M C) s :
  bind (bind m k1) k2 s = bind m (λ x, bind (k1 x) k2) s.
Proof. unfold bind. by destruct (m s). Qed.

Section run.
Context (s : Store).

Lemma get_head_node_run d o :
  dlls s !! d = Some o → DLinkedList.get_head_node d s = Ret (ListObj.head_node o) s.
Proof. unfold DLinkedList.get_head_node, load_list, bind. by intros ->. Qed.

Lemma get_tail_node_run d o :
  dlls s !! d = Some o → DLinkedList.get_tail_node d s = Ret (ListObj.tail_node o) s.
Proof. unfold DLinkedList.get_tail_node, load_list, bind. by intros ->. Qed.

Lemma get_length_run d o :
  dlls s !! d = Some o → DLinkedList.get_length d s = Ret (ListObj.length o) s.
Proof. unfold DLinkedList.get_length, load_list, bind. by intros ->. Qed.

Lemma set_head_node_run d o r :
  dlls s !! d = Some o →
  DLinkedList.set_head_node d r s =
  Ret () (mkStore (nodes s)
            (<[d := ListObj.mk r (ListObj.tail_node o) (ListObj.length o)]> (dlls s))
            (next_ref s)).
Proof. unfold DLinkedList.set_head_node, load_list, bind. by intros ->. Qed.

Lemma set_tail_node_run d o r :
  dlls s !! d = Some o →
  DLinkedList.set_tail_node d r s =
  Ret () (mkStore (nodes s)
            (<[d := ListObj.mk (ListObj.head_node o) r (ListObj.length o)]> (dlls s))
            (next_ref s)).
Proof. unfold DLinkedList.set_tail_node, load_list, bind. by intros ->. Qed.

Lemma set_length_run d o z :
  dlls s !! d = Some o →
  DLinkedList.set_length d z s =
  Ret () (mkStore (nodes s)
            (<[d := ListObj.mk (ListObj.head_node o) (ListObj.tail_node o) z]> (dlls s))
            (next_ref s)).
Proof. unfold DLinkedList.set_length, load_list, bind. by intros ->. Qed.

Lemma clonePlain_run v :
  clonePlain v s = Ret (clonePlain_at v (next_ref s)).1
                       (mkStore (nodes s) (dlls s) (clonePlain_at v (next_ref s)).2).
Proof. unfold clonePlain. by destruct (clonePlain_at _ _). Qed.

Lemma Node_new_run v p q :
  Node.new v p q s =
  Ret (Some (length (nodes s)))
      (mkStore (nodes s ++ [NodeObj.mk (clonePlain_at v (next_ref s)).1 q p]) (dlls s)
               (clonePlain_at v (next_ref s)).2).
Proof. unfold Node.new, bind. by rewrite clonePlain_run. Qed.

Lemma getData_run l nd :
  nodes s !! l = Some nd →
  Node.getData (Some l) s =
  Ret (clonePlain_at (NodeObj.data nd) (next_ref s)).1
      (mkStore (nodes s) (dlls s) (clonePlain_at (NodeObj.data nd) (next_ref s)).2).
Proof. unfold Node.getData, load_node, bind. simpl. intros ->. apply clonePlain_run. Qed.

Lemma getNext_run l nd :
  nodes s !! l = Some nd → Node.getNext (Some l) s = Ret (NodeObj.next nd) s.
Proof. unfold Node.getNext, load_node, bind. simpl. by intros ->. Qed.

Lemma getPrev_run l nd :
  nodes s !! l = Some nd → Node.getPrev (Some l) s = Ret (NodeObj.prev nd) s.
Proof. unfold Node.getPrev, load_node, bind. simpl. by intros ->. Qed.

Lemma setNext_run l nd r :
  nodes s !! l = Some nd →
  Node.setNext (Some l) r s =
  Ret () (mkStore (<[l := NodeObj.mk (NodeObj.data nd) r (NodeObj.prev nd)]> (nodes s))
            (dlls s) (next_ref s)).
Proof. unfold Node.setNext, load_node, bind. simpl. by intros ->. Qed.

Lemma setPrev_run l nd r :
  nodes s !! l = Some nd →
  Node.setPrev (Some l) r s =
  Ret () (mkStore (<[l := NodeObj.mk (NodeObj.data nd) (NodeObj.next nd) r]> (nodes s))
            (dlls s) (next_ref s)).
Proof. unfold Node.setPrev, load_node, bind. simpl. by intros ->. Qed.

Lemma heap_size_run : heap_size s = Ret (length (nodes s)) s.
Proof. reflexivity. Qed.

End run.

Lemma lookup_snoc_old {A} (l : list A) x i y : l !! i = Some y → (l ++ [x]) !! i = Some y.
Proof. apply lookup_app_l_Some. Qed.

Lemma lookup_snoc_new {A} (l : list A) x : (l ++ [x]) !! length l = Some x.
Proof. by apply list_lookup_middle. Qed.

Lemma lookup_insert_same {A} (l : list A) i x y : l !! i = Some y → <[i:=x]> l !! i = Some x.
Proof. intros H. apply list_lookup_insert_eq. by eapply lookup_lt_Some. Qed.

Lemma lookup_insert_other {A} (l : list A) i j x y :
  i ≠ j → l !! j = Some y → <[i:=x]> l !! j = Some y.
Proof. intros H. by rewrite list_lookup_insert_ne. Qed.

(** Solves a lookup in a store that was updated step by step. *)
Ltac look :=
  cbn [nodes dlls next_ref];
  first [ eassumption
        | apply lookup_snoc_new
        | eapply lookup_insert_same; look
        | apply lookup_snoc_old; look
        | eapply lookup_insert_other; [congruence || lia || done | look] ].

Ltac tidy :=
  cbv beta;
  cbn [nodes dlls next_ref ListObj.head_node ListObj.tail_node ListObj.length
       NodeObj.data NodeObj.next NodeObj.prev].

Ltac step_with lem := etrans; [eapply bind_run; eapply lem; look|]; tidy.

(** Runs the first statement of the computation in the goal. *)
Ltac step :=
  first [ rewrite bind_assoc
        | step_with get_head_node_run | step_with get_tail_node_run
        | step_with get_length_run | step_with set_head_node_run
        | step_with set_tail_node_run | step_with set_length_run
        | etrans; [eapply bind_run; eapply Node_new_run|]; tidy
        | etrans; [eapply bind_run; eapply heap_size_run|]; tidy
        | step_with getNext_run | step_with getPrev_run
        | step_with setNext_run | step_with setPrev_run
        | step_with getData_run ].

Ltac finish := rewrite ?list_insert_insert_eq; reflexivity.

(** ** Segments *)

Lemma first_of_app xs ys q : first_of (xs ++ ys) q = first_of xs (first_of ys q).
Proof. by destruct xs. Qed.

Lemma last_of_app p xs ys : last_of p (xs ++ ys) = last_of (last_of p xs) ys.
Proof. unfold last_of. by rewrite foldl_app. Qed.

Lemma first_of_None cs : first_of cs None = None ↔ cs = [].
Proof. destruct cs; simpl; split; congruence. Qed.

Lemma last_of_None cs : last_of None cs = None ↔ cs = [].
Proof.
  destruct cs as [|c cs _] using rev_ind; [done|].
  rewrite last_of_app. simpl. split; [done|]. by intros [_ ?]%app_eq_nil.
Qed.

Lemma seg_app N p xs ys q :
  seg N p (xs ++ ys) q ↔ seg N p xs (first_of ys q) ∧ seg N (last_of p xs) ys q.
Proof.
  revert p. induction xs as [|c xs IH]; intros p; simpl.
  - tauto.
  - rewrite IH, first_of_app. tauto.
Qed.

Lemma seg_frame N N' p cs q :
  (∀ l, l ∈ cs.*1 → N' !! l = N !! l) → seg N p cs q → seg N' p cs q.
Proof.
  revert p. induction cs as [|c cs IH]; intros p Hfr; simpl; [done|].
  intros [Hc Hrest]. split.
  - rewrite Hfr; [done|]. simpl. left.
  - apply IH; [|done]. intros l Hl. apply Hfr. simpl. by right.
Qed.

Lemma seg_bound N p cs q l : seg N p cs q → l ∈ cs.*1 → l < length N.
Proof.
  revert p. induction cs as [|c cs IH]; intros p; simpl.
  - intros _ Hl. by apply elem_of_nil in Hl.
  - intros [Hc Hrest] Hl. apply elem_of_cons in Hl as [->|Hl].
    + by eapply lookup_lt_Some.
    + by eapply IH.
Qed.

Lemma seg_middle N p xs c ys q :
  seg N p (xs ++ c :: ys) q →
  N !! c.1 = Some (NodeObj.mk c.2 (first_of ys q) (last_of p xs)).
Proof. intros H%seg_app. simpl in H. tauto. Qed.

(** Allocating a node leaves every segment as it is. *)
Lemma seg_alloc N p cs q nd : seg N p cs q → seg (N ++ [nd]) p cs q.
Proof.
  intros H. eapply seg_frame; [|exact H].
  intros l Hl. apply lookup_app_l. by eapply seg_bound.
Qed.

(** So does an assignment to a node outside the segment. *)
Lemma seg_insert N p cs q l nd : l ∉ cs.*1 → seg N p cs q → seg (<[l := nd]> N) p cs q.
Proof.
  intros Hl H. eapply seg_frame; [|exact H].
  intros l' Hl'. apply list_lookup_insert_ne. by intros ->.
Qed.

(** [setNext] on the last node of a segment. *)
Lemma seg_set_next N p cs c q q' :
  NoDup (cs ++ [c]).*1 →
  seg N p (cs ++ [c]) q →
  seg (<[c.1 := NodeObj.mk c.2 q' (last_of p cs)]> N) p (cs ++ [c]) q'.
Proof.
  rewrite fmap_app. intros (_ & Hdisj & _)%NoDup_app.
  intros (Hcs & Hc & _)%seg_app. apply seg_app. simpl in *.
  split; [|split; [|done]].
  - apply seg_insert; [|done]. intros Hin. apply (Hdisj _ Hin). simpl. left.
  - by eapply lookup_insert_same.
Qed.

(** [setPrev] on the first node of a segment. *)
Lemma seg_set_prev N p p' c cs q :
  NoDup (c :: cs).*1 →
  seg N p (c :: cs) q →
  seg (<[c.1 := NodeObj.mk c.2 (first_of cs q) p']> N) p' (c :: cs) q.
Proof.
  rewrite fmap_cons. intros (Hc & _)%NoDup_cons. simpl. intros (Hn & Hcs).
  split.
  - by eapply lookup_insert_same.
  - by apply seg_insert.
Qed.

(** A chain of distinct nodes is no longer than the store. *)
Lemma seg_length N p cs q : NoDup cs.*1 → seg N p cs q → length cs ≤ length N.
Proof.
  intros Hnd Hseg.
  assert (cs.*1 ⊆+ seq 0 (length N)) as Hsub.
  { apply NoDup_submseteq; [done|]. intros l Hl.
    apply elem_of_seq. split; [lia|]. simpl. by eapply seg_bound. }
  apply submseteq_length in Hsub. by rewrite length_fmap, length_seq in Hsub.
Qed.

(** ** Insertion at the ends *)

Lemma first_of_snoc cs c q : ∃ h, first_of (cs ++ [c]) q = Some h.
Proof. destruct cs; simpl; eauto. Qed.

Lemma last_of_cons_Some p c cs : ∃ t, last_of p (c :: cs) = Some t.
Proof.
  destruct cs as [|c' cs _] using rev_ind; [by eexists|].
  rewrite app_comm_cons, last_of_app. by eexists.
Qed.

Lemma first_of_indep cs c q q' : first_of (cs ++ [c]) q = first_of (cs ++ [c]) q'.
Proof. by destruct cs. Qed.

Lemma preserves_refl d ls s : preserves d ls s s.
Proof. by split. Qed.

Lemma append_spec s d cs v :
  is_list s d cs →
  ∃ s', DLinkedList.append d v s = Ret d s'
        ∧ is_list s' d (cs ++ [(length (nodes s), (clonePlain_at v (next_ref s)).1)])
        ∧ next_ref s' = (clonePlain_at v (next_ref s)).2
        ∧ preserves d cs.*1 s s'
        ∧ length (nodes s') = S (length (nodes s))
        ∧ length (dlls s') = length (dlls s).
Proof.
  destruct s as [N D n]. intros (HD & Hseg & Hnd). cbn [nodes dlls next_ref] in *.
  destruct cs as [|c cs _] using rev_ind.
  - simpl in HD. eexists. split.
    { unfold DLinkedList.append. repeat step. finish. }
    unfold is_list, preserves. cbn [nodes dlls next_ref]. split_and!.
    + simpl. by eapply lookup_insert_same.
    + simpl. split; [apply lookup_snoc_new|done].
    + simpl. repeat constructor. by intros ?%elem_of_nil.
    + done.
    + intros l nd _ Hl. by apply lookup_snoc_old.
    + intros d' o Hd' Ho. by apply lookup_insert_other.
    + rewrite length_app. simpl. lia.
    + by rewrite length_insert.
  - destruct (first_of_snoc cs c None) as [h Hh].
    rewrite Hh, last_of_app in HD. simpl in HD.
    pose proof (seg_middle _ _ _ _ _ _ Hseg) as Hc. simpl in Hc.
    eexists. split.
    { unfold DLinkedList.append. repeat step. finish. }
    unfold is_list, preserves. cbn [nodes dlls next_ref]. split_and!.
    + eapply lookup_insert_same in HD. rewrite HD. f_equal.
      rewrite first_of_app, (first_of_indep _ _ _ None), Hh, last_of_app. simpl.
      f_equal. rewrite !length_app. simpl. lia.
    + apply seg_app. simpl. split; [|split; [|done]].
      * eapply seg_set_next; [done|]. apply seg_alloc. exact Hseg.
      * rewrite last_of_app. simpl. apply lookup_insert_other; [|apply lookup_snoc_new].
        apply lookup_lt_Some in Hc. lia.
    + rewrite fmap_app. apply NoDup_app. split; [done|]. split.
      * intros l Hl ?%list_elem_of_singleton. simpl in *. subst.
        eapply seg_bound in Hl; [|exact Hseg]. lia.
      * simpl. repeat constructor. by intros ?%elem_of_nil.
    + done.
    + intros l nd Hl Hlk. apply lookup_insert_other; [|by apply lookup_snoc_old].
      intros <-. apply Hl. rewrite fmap_app. apply elem_of_app. right. simpl. left.
    + intros d' o Hd' Ho. by apply lookup_insert_other.
    + rewrite length_insert, length_app. simpl. lia.
    + by rewrite length_insert.
Qed.

Lemma prepend_spec s d cs v :
  is_list s d cs →
  ∃ s', DLinkedList.prepend d v s = Ret d s'
        ∧ is_list s' d ((length (nodes s), (clonePlain_at v (next_ref s)).1) :: cs)
        ∧ next_ref s' = (clonePlain_at v (next_ref s)).2
        ∧ preserves d cs.*1 s s'
        ∧ length (nodes s') = S (length (nodes s))
        ∧ length (dlls s') = length (dlls s).
Proof.
  destruct s as [N D n]. intros (HD & Hseg & Hnd). cbn [nodes dlls next_ref] in *.
  destruct cs as [|c cs].
  - simpl in HD. eexists. split.
    { unfold DLinkedList.prepend. repeat step. finish. }
    unfold is_list, preserves. cbn [nodes dlls next_ref]. split_and!.
    + simpl. by eapply lookup_insert_same.
    + simpl. split; [apply lookup_snoc_new|done].
    + simpl. repeat constructor. by intros ?%elem_of_nil.
    + done.
    + intros l nd _ Hl. by apply lookup_snoc_old.
    + intros d' o Hd' Ho. by apply lookup_insert_other.
    + rewrite length_app. simpl. lia.
    + by rewrite length_insert.
  - destruct (last_of_cons_Some None c cs) as [t Ht].
    rewrite Ht in HD. cbn [first_of] in HD.
    pose proof Hseg as [Hc Hrest]. 
    eexists. split.
    { unfold DLinkedList.prepend. repeat step. finish. }
    unfold is_list, preserves. cbn [nodes dlls next_ref]. split_and!.
    + eapply lookup_insert_same in HD. rewrite HD. f_equal.
      cbn [first_of last_of foldl fst length]. unfold last_of in Ht. simpl in Ht.
      rewrite Ht. f_equal. lia.
    + cbn [seg fst snd first_of]. split.
      * apply lookup_insert_other; [|apply lookup_snoc_new].
        apply lookup_lt_Some in Hc. lia.
      * eapply seg_set_prev; [done|]. apply seg_alloc. exact Hseg.
    + rewrite fmap_cons. apply NoDup_cons. split; [|done].
      intros Hl. eapply seg_bound in Hl; [|exact Hseg]. simpl in Hl. lia.
    + done.
    + intros l nd Hl Hlk. apply lookup_insert_other; [|by apply lookup_snoc_old].
      intros <-. apply Hl. rewrite fmap_cons. left.
    + intros d' o Hd' Ho. by apply lookup_insert_other.
    + rewrite length_insert, length_app. simpl. lia.
    + by rewrite length_insert.
Qed.

(** ** Construction from a sequence *)

Lemma appended_snd l vs n : (appended l vs n).*2 = (clone_all vs n).1.
Proof.
  revert l n. induction vs as [|v vs IH]; intros l n; simpl; [done|].
  rewrite IH. destruct (clonePlain_at v n) as [v' n1]. simpl.
  by destruct (clone_all vs n1).
Qed.


Lemma forEach_append_spec s d cs vs :
  is_list s d cs →
  ∃ s', DLinkedList.forEach_append d vs s = Ret () s'
        ∧ is_list s' d (cs ++ appended (length (nodes s)) vs (next_ref s))
        ∧ next_ref s' = (clone_all vs (next_ref s)).2
        ∧ preserves d cs.*1 s s'
        ∧ length (nodes s') = length (nodes s) + length vs
        ∧ length (dlls s') = length (dlls s).
Proof.
  revert s cs. induction vs as [|v vs IH]; intros s cs Hl.
  - exists s. simpl. rewrite app_nil_r. split_and!; try done; try apply preserves_refl; lia.
  - destruct (append_spec s d cs v Hl) as (s1 & Hrun & Hl1 & Hn1 & Hp1 & HN1 & HD1).
    destruct (IH s1 _ Hl1) as (s2 & Hrun2 & Hl2 & Hn2 & Hp2 & HN2 & HD2).
    exists s2. split_and!.
    + simpl. etrans; [eapply bind_run; exact Hrun|]. done.
    + simpl. rewrite <- app_assoc in Hl2. simpl in Hl2. by rewrite HN1, Hn1 in Hl2.
    + simpl. rewrite Hn2, Hn1. destruct (clonePlain_at v (next_ref s)) as [v' n1]. simpl.
      by destruct (clone_all vs n1).
    + destruct Hp1 as [Hp1 Hp1'], Hp2 as [Hp2 Hp2']. split.
      * intros l nd Hnot Hlk. apply Hp2; [|by apply Hp1].
        rewrite fmap_app. intros [?|Hin]%elem_of_app; [done|].
        simpl in Hin. apply list_elem_of_singleton in Hin. subst.
        apply lookup_lt_Some in Hlk. lia.
      * intros d' o Hd' Ho. apply Hp2'; [done|]. by apply Hp1'.
    + rewrite HN2, HN1. simpl. lia.
    + by rewrite HD2, HD1.
Qed.

Lemma new_spec s :
  DLinkedList.new s =
    Ret (length (dlls s)) (mkStore (nodes s) (dlls s ++ [ListObj.mk None None 0]) (next_ref s))
  ∧ is_list (mkStore (nodes s) (dlls s ++ [ListObj.mk None None 0]) (next_ref s))
      (length (dlls s)) [].
Proof.
  split; [done|]. split_and!; simpl; [apply lookup_snoc_new|done|constructor].
Qed.

Lemma preserves_trans d ls s1 s2 s3 :
  preserves d ls s1 s2 → preserves d ls s2 s3 → preserves d ls s1 s3.
Proof. intros [H1 H1'] [H2 H2']. split; eauto. Qed.

(** A list is not affected by what happens to other objects. *)
Lemma is_list_frame s s' d cs d' ls :
  is_list s d cs → preserves d' ls s s' → d ≠ d' → (∀ l, l ∈ cs.*1 → l ∉ ls) →
  is_list s' d cs.
Proof.
  intros (HD & Hseg & Hnd) [HpN HpD] Hd Hdisj. split_and!; [by apply HpD| |done].
  clear HD Hnd. revert Hseg Hdisj. generalize (@None loc) at 1 3. generalize (@None loc).
  induction cs as [|c cs IH]; intros q p; simpl; [done|].
  intros [Hc Hrest] Hdisj. split.
  - apply HpN; [|done]. apply Hdisj. left.
  - apply IH; [done|]. intros l Hl. apply Hdisj. by right.
Qed.

Lemma fromArray_spec s d cs vs :
  is_list s d cs →
  ∃ s', DLinkedList.fromArray d vs s = Ret d s'
        ∧ is_list s' d (cs ++ appended (length (nodes s)) vs (next_ref s))
        ∧ next_ref s' = (clone_all vs (next_ref s)).2
        ∧ preserves d cs.*1 s s'
        ∧ length (nodes s') = length (nodes s) + length vs
        ∧ length (dlls s') = length (dlls s).
Proof.
  intros Hl. destruct (forEach_append_spec s d cs vs Hl) as (s' & Hrun & H).
  exists s'. split; [|done].
  unfold DLinkedList.fromArray. etrans; [eapply bind_run; exact Hrun|]. done.
Qed.

Lemma fromArray_static_spec s vs :
  ∃ s', DLinkedList.fromArray_static vs s = Ret (length (dlls s)) s'
        ∧ is_list s' (length (dlls s)) (appended (length (nodes s)) vs (next_ref s))
        ∧ next_ref s' = (clone_all vs (next_ref s)).2
        ∧ preserves (length (dlls s)) [] s s'
        ∧ length (nodes s') = length (nodes s) + length vs
        ∧ length (dlls s') = S (length (dlls s)).
Proof.
  destruct (new_spec s) as [Hnew Hl0].
  destruct (fromArray_spec _ _ _ vs Hl0) as (s' & Hrun & Hl & Hn & Hp & HN & HD).
  cbn [nodes dlls next_ref] in *. exists s'. split_and!; try done.
  - unfold DLinkedList.fromArray_static.
    etrans; [eapply bind_run; exact Hnew|]. cbv beta.
    etrans; [eapply bind_run; exact Hrun|]. done.
  - destruct Hp as [HpN HpD]. split.
    + intros l nd _ Hlk. apply HpN; [by intros ?%elem_of_nil|done].
    + intros d' o _ Ho. apply HpD.
      * apply lookup_lt_Some in Ho. lia.
      * simpl. by apply lookup_snoc_old.
  - rewrite HD, length_app. simpl. lia.
Qed.

(** ** Traversals *)

Lemma bind_ext {A B} (m : M A) (k1 k2 : A → M B) s :
  (∀ a s', k1 a s' = k2 a s') → bind m k1 s = bind m k2 s.
Proof. intros H. unfold bind. destruct (m s); auto. Qed.

Lemma bind_cong_l {A B} (m1 m2 : M A) (k : A → M B) s :
  m1 s = m2 s → bind m1 k s = bind m2 k s.
Proof. unfold bind. by intros ->. Qed.

Section traversal.
Context {A : Type} (body : ref → A → M A) (k : value → A → pure_result A).
Hypothesis body_eq : ∀ cur acc s,
  body cur acc s = bind (Node.getData cur) (λ d, lift (k d acc)) s.

Lemma while_next fuel s p cs acc :
  seg (nodes s) p cs None → length cs ≤ fuel →
  DLinkedList.while_node fuel body Node.getNext (first_of cs None) acc s =
  lift (walk k cs.*2 acc (next_ref s)).1
       (mkStore (nodes s) (dlls s) (walk k cs.*2 acc (next_ref s)).2).
Proof.
  revert fuel s p acc. induction cs as [|c cs IH]; intros fuel s p acc Hseg Hfuel.
  - destruct s, fuel; done.
  - destruct fuel as [|fuel]; [simpl in Hfuel; lia|].
    destruct Hseg as [Hc Hrest]. cbn [first_of DLinkedList.while_node].
    rewrite fmap_cons. cbn [walk].
    rewrite (bind_cong_l _ _ _ _ (body_eq _ _ _)), bind_assoc.
    step. unfold bind at 1.
    destruct (k (clonePlain_at c.2 (next_ref s)).1 acc) as [a|e|]; [|done..].
    cbn [lift]. step.
    rewrite (IH fuel _ (Some c.1) a); [done|done|simpl in Hfuel; lia].
Qed.

Lemma while_prev fuel s cs q acc :
  seg (nodes s) None cs q → length cs ≤ fuel →
  DLinkedList.while_node fuel body Node.getPrev (last_of None cs) acc s =
  lift (walk k (reverse cs.*2) acc (next_ref s)).1
       (mkStore (nodes s) (dlls s) (walk k (reverse cs.*2) acc (next_ref s)).2).
Proof.
  revert fuel s q acc. induction cs as [|c cs IH] using rev_ind; intros fuel s q acc Hseg Hfuel.
  - destruct s, fuel; done.
  - rewrite length_app in Hfuel. destruct fuel as [|fuel]; [simpl in Hfuel; lia|].
    pose proof (seg_middle _ _ _ _ _ _ Hseg) as Hc.
    apply seg_app in Hseg as [Hrest _].
    rewrite last_of_app. cbn [last_of foldl DLinkedList.while_node].
    rewrite fmap_app, reverse_app. cbn [fmap list_fmap reverse rev_append app walk].
    rewrite (bind_cong_l _ _ _ _ (body_eq _ _ _)), bind_assoc.
    step. unfold bind at 1.
    destruct (k (clonePlain_at c.2 (next_ref s)).1 acc) as [a|e|]; [|done..].
    cbn [lift]. step.
    rewrite (IH fuel _ (Some c.1) a); [done|done|simpl in Hfuel; lia].
Qed.
End traversal.

Lemma walk_total {A} (k : value → A → pure_result A) (g : value → A → A) vs acc n :
  (∀ d a, k d a = Continue (g d a)) →
  walk k vs acc n =
  (Continue (foldl (λ a d, g d a) acc (clone_all vs n).1), (clone_all vs n).2).
Proof.
  intros Hk. revert acc n. induction vs as [|v vs IH]; intros acc n; simpl; [done|].
  rewrite Hk, IH. destruct (clonePlain_at v n) as [v' n1]. simpl.
  by destruct (clone_all vs n1).
Qed.

Lemma foldl_snoc {A B} (f : A → B) (acc : list B) (l : list A) :
  foldl (λ a d, a ++ [f d]) acc l = acc ++ List.map f l.
Proof.
  revert acc. induction l as [|x l IH]; intros acc; simpl.
  - by rewrite app_nil_r.
  - by rewrite IH, <- app_assoc.
Qed.

Lemma is_list_fuel s d cs : is_list s d cs → length cs ≤ length (nodes s).
Proof. intros (_ & Hseg & Hnd). by eapply seg_length. Qed.

(** The clones handed out by a head-to-tail traversal. *)
Lemma toArray_spec s d cs :
  is_list s d cs →
  DLinkedList.toArray d s =
  Ret (clone_all cs.*2 (next_ref s)).1
      (mkStore (nodes s) (dlls s) (clone_all cs.*2 (next_ref s)).2).
Proof.
  intros Hl. pose proof (is_list_fuel _ _ _ Hl) as Hfuel.
  destruct Hl as (HD & Hseg & _).
  unfold DLinkedList.toArray. do 2 step.
  erewrite (while_next _ (λ d a, Continue (a ++ [d]))); [|done|exact Hseg|exact Hfuel].
  erewrite (walk_total _ (λ d a, a ++ [d])); [|done].
  simpl. by rewrite (foldl_snoc id), List.map_id.
Qed.

Lemma reduce_spec {V} s d cs (f : value → V → V) init :
  is_list s d cs →
  DLinkedList.reduce d f init s =
  Ret (foldl (λ a x, f x a) init (clone_all cs.*2 (next_ref s)).1)
      (mkStore (nodes s) (dlls s) (clone_all cs.*2 (next_ref s)).2).
Proof.
  intros Hl. pose proof (is_list_fuel _ _ _ Hl) as Hfuel.
  destruct Hl as (HD & Hseg & _).
  unfold DLinkedList.reduce. do 2 step.
  erewrite (while_next _ (λ d a, Continue (f d a))); [|done|exact Hseg|exact Hfuel].
  by erewrite (walk_total _ f).
Qed.

Lemma reduceRight_spec {V} s d cs (f : value → V → V) init :
  is_list s d cs →
  DLinkedList.reduceRight d f init s =
  Ret (foldl (λ a x, f x a) init (clone_all (reverse cs.*2) (next_ref s)).1)
      (mkStore (nodes s) (dlls s) (clone_all (reverse cs.*2) (next_ref s)).2).
Proof.
  intros Hl. pose proof (is_list_fuel _ _ _ Hl) as Hfuel.
  destruct Hl as (HD & Hseg & _).
  unfold DLinkedList.reduceRight. do 2 step.
  erewrite (while_prev _ (λ d a, Continue (f d a))); [|done|exact Hseg|exact Hfuel].
  by erewrite (walk_total _ f).
Qed.

Lemma map_run s d cs iteratee :
  is_list s d cs →
  DLinkedList.map d iteratee s =
  DLinkedList.fromArray_static
    (List.map (DLinkedList.mapFn_of iteratee) (clone_all cs.*2 (next_ref s)).1)
    (mkStore (nodes s) (dlls s) (clone_all cs.*2 (next_ref s)).2).
Proof.
  intros Hl. pose proof (is_list_fuel _ _ _ Hl) as Hfuel.
  destruct Hl as (HD & Hseg & _).
  unfold DLinkedList.map. do 2 step.
  etrans; [eapply bind_run|].
  { erewrite (while_next _ (λ d a, Continue (a ++ [DLinkedList.mapFn_of iteratee d])));
      [|done|exact Hseg|exact Hfuel].
    erewrite (walk_total _ (λ d a, a ++ [DLinkedList.mapFn_of iteratee d])); [|done].
    simpl. rewrite foldl_snoc. simpl. reflexivity. }
  done.
Qed.

Lemma mapRight_run s d cs iteratee :
  is_list s d cs →
  DLinkedList.mapRight d iteratee s =
  DLinkedList.fromArray_static
    (List.map (DLinkedList.mapFn_of iteratee) (clone_all (reverse cs.*2) (next_ref s)).1)
    (mkStore (nodes s) (dlls s) (clone_all (reverse cs.*2) (next_ref s)).2).
Proof.
  intros Hl. pose proof (is_list_fuel _ _ _ Hl) as Hfuel.
  destruct Hl as (HD & Hseg & _).
  unfold DLinkedList.mapRight. do 2 step.
  etrans; [eapply bind_run|].
  { erewrite (while_prev _ (λ d a, Continue (a ++ [DLinkedList.mapFn_of iteratee d])));
      [|done|exact Hseg|exact Hfuel].
    erewrite (walk_total _ (λ d a, a ++ [DLinkedList.mapFn_of iteratee d])); [|done].
    simpl. rewrite foldl_snoc. simpl. reflexivity. }
  done.
Qed.

(** ** Search *)

Lemma findNode_loop_spec fuel predicate s p cs :
  seg (nodes s) p cs None → length cs ≤ fuel →
  DLinkedList.findNode_loop fuel predicate (first_of cs None) s =
  Ret (find_cell predicate cs (next_ref s)).1
      (mkStore (nodes s) (dlls s) (find_cell predicate cs (next_ref s)).2).
Proof.
  revert fuel s p. induction cs as [|c cs IH]; intros fuel s p Hseg Hfuel.
  - destruct s, fuel; done.
  - destruct fuel as [|fuel]; [simpl in Hfuel; lia|].
    destruct Hseg as [Hc Hrest]. cbn [first_of DLinkedList.findNode_loop find_cell].
    step. destruct (predicate _); [done|].
    step. rewrite (IH fuel _ (Some c.1)); [done|done|simpl in Hfuel; lia].
Qed.

Lemma findNode_spec s d cs predicate :
  is_list s d cs →
  DLinkedList.findNode d predicate s =
  Ret (find_cell predicate cs (next_ref s)).1
      (mkStore (nodes s) (dlls s) (find_cell predicate cs (next_ref s)).2).
Proof.
  intros Hl. pose proof (is_list_fuel _ _ _ Hl) as Hfuel.
  destruct Hl as (HD & Hseg & _).
  unfold DLinkedList.findNode. do 2 step.
  by eapply findNode_loop_spec.
Qed.

Lemma clone_all_cons v vs n :
  clone_all (v :: vs) n =
  ((clonePlain_at v n).1 :: (clone_all vs (clonePlain_at v n).2).1,
   (clone_all vs (clonePlain_at v n).2).2).
Proof.
  simpl. destruct (clonePlain_at v n) as [v' n1]. simpl.
  by destruct (clone_all vs n1).
Qed.

(** The scan finds nothing exactly when no clone satisfies the predicate. *)
Lemma find_cell_None predicate cs n :
  (find_cell predicate cs n).1 = None ↔
  Forall (λ v, predicate v = false) (clone_all cs.*2 n).1.
Proof.
  revert n. induction cs as [|c cs IH]; intros n.
  - split; [constructor|done].
  - rewrite fmap_cons, clone_all_cons. cbn [find_cell fst].
    destruct (predicate (clonePlain_at c.2 n).1) eqn:E; simpl.
    + split; [done|]. intros H. apply Forall_cons in H as [H _]. congruence.
    + rewrite IH. split; [by constructor|]. by intros [_ ?]%Forall_cons.
Qed.

(** What the scan finds is the first cell whose clone satisfies it. *)
Lemma find_cell_Some predicate cs n l :
  (find_cell predicate cs n).1 = Some l →
  ∃ xs c ys, cs = xs ++ c :: ys ∧ c.1 = l
    ∧ (find_cell predicate xs n).1 = None
    ∧ predicate (clonePlain_at c.2 (clone_all xs.*2 n).2).1 = true.
Proof.
  revert n. induction cs as [|c cs IH]; intros n; simpl; [done|].
  destruct (predicate (clonePlain_at c.2 n).1) eqn:E; simpl.
  - intros [= <-]. by exists [], c, cs.
  - intros (xs & c' & ys & -> & Hc & Hnone & Hp)%IH.
    exists (c :: xs), c', ys. split_and!; [done|done|by simpl; rewrite E|].
    by rewrite fmap_cons, clone_all_cons.
Qed.

(** ** Insertion relative to a node *)

Lemma last_of_middle p xs c ys : last_of p (xs ++ c :: ys) = last_of (Some c.1) ys.
Proof. by rewrite last_of_app. Qed.

Lemma first_of_middle xs c ys q : first_of (xs ++ c :: ys) q = first_of xs (Some c.1).
Proof. by rewrite first_of_app. Qed.

Lemma NoDup_middle_ne (xs : list (loc * value)) c y ys :
  NoDup (xs ++ c :: y :: ys).*1 → c.1 ≠ y.1.
Proof.
  rewrite fmap_app, !fmap_cons. intros (_ & _ & H)%NoDup_app.
  apply NoDup_cons in H as [H _]. intros E. apply H. rewrite E. left.
Qed.

Lemma seg_middle_next N p xs c y ys q :
  seg N p (xs ++ c :: y :: ys) q →
  N !! y.1 = Some (NodeObj.mk y.2 (first_of ys q) (Some c.1)).
Proof. intros H%seg_app. simpl in H. tauto. Qed.

Lemma elem_of_middle (xs : list (loc * value)) c ys : c.1 ∈ (xs ++ c :: ys).*1.
Proof. rewrite fmap_app, fmap_cons. apply elem_of_app. right. left. Qed.

Lemma NoDup_insert_fresh (xs ys : list (loc * value)) c :
  c.1 ∉ (xs ++ ys).*1 → NoDup (xs ++ ys).*1 → NoDup (xs ++ c :: ys).*1.
Proof.
  rewrite !fmap_app, fmap_cons. intros Hc Hnd.
  rewrite <- Permutation_middle. by apply NoDup_cons.
Qed.

Lemma NoDup_delete_middle (xs ys : list (loc * value)) c :
  NoDup (xs ++ c :: ys).*1 → NoDup (xs ++ ys).*1 ∧ c.1 ∉ (xs ++ ys).*1.
Proof.
  rewrite !fmap_app, fmap_cons. rewrite <- Permutation_middle.
  intros [? ?]%NoDup_cons. done.
Qed.

(** The two halves of a chain have no node in common. *)
Lemma NoDup_split (xs ys : list (loc * value)) :
  NoDup (xs ++ ys).*1 →
  NoDup xs.*1 ∧ NoDup ys.*1 ∧ (∀ l, l ∈ xs.*1 → l ∉ ys.*1) ∧ (∀ l, l ∈ ys.*1 → l ∉ xs.*1).
Proof.
  rewrite fmap_app. intros (H1 & H2 & H3)%NoDup_app. split_and!; [done|done|done|].
  intros l Hl Hl'. by apply (H2 l).
Qed.

Lemma insertAfterNode_spec s d xs c ys v :
  is_list s d (xs ++ c :: ys) →
  ∃ s', DLinkedList.insertAfterNode d (Some c.1) v s = Ret d s'
        ∧ is_list s' d (xs ++ c :: (length (nodes s), (clonePlain_at v (next_ref s)).1) :: ys)
        ∧ next_ref s' = (clonePlain_at v (next_ref s)).2
        ∧ preserves d (xs ++ c :: ys).*1 s s'
        ∧ length (nodes s') = S (length (nodes s))
        ∧ length (dlls s') = length (dlls s).
Proof.
  intros Hl. destruct ys as [|y ys].
  - destruct (append_spec _ _ _ v Hl) as (s' & Hrun & Hl' & H).
    exists s'. split; [|split; [|done]].
    + destruct Hl as (_ & Hseg & _). apply seg_middle in Hseg.
      unfold DLinkedList.insertAfterNode. step. done.
    + by rewrite <- app_assoc in Hl'.
  - destruct s as [N D n]. destruct Hl as (HD & Hseg & Hnd). cbn [nodes dlls next_ref] in *.
    pose proof (seg_middle _ _ _ _ _ _ Hseg) as Hc. cbn [first_of] in Hc.
    pose proof (seg_middle_next _ _ _ _ _ _ _ Hseg) as Hy.
    pose proof (NoDup_middle_ne _ _ _ _ Hnd) as Hne.
    eexists. split.
    { unfold DLinkedList.insertAfterNode. repeat step. finish. }
    unfold is_list, preserves. cbn [nodes dlls next_ref]. split_and!.
    + eapply lookup_insert_same in HD. rewrite HD. f_equal.
      rewrite !first_of_middle, !last_of_middle. cbn [last_of foldl]. f_equal.
      rewrite !length_app. simpl. lia.
    + replace (xs ++ c :: (length N, (clonePlain_at v n).1) :: y :: ys)
        with ((xs ++ [c]) ++ (length N, (clonePlain_at v n).1) :: y :: ys)
        by (by rewrite <- app_assoc).
      replace (xs ++ c :: y :: ys) with ((xs ++ [c]) ++ y :: ys) in Hseg, Hnd
        by (by rewrite <- app_assoc).
      apply NoDup_split in Hnd as (Hnd1 & Hnd2 & Hd1 & Hd2).
      apply seg_app in Hseg as [Hs1 Hs2]. rewrite last_of_app in Hs2.
      cbn [first_of last_of foldl] in Hs1, Hs2.
      apply seg_app. split.
      * cbn [first_of fst]. eapply seg_set_next; [done|].
        apply seg_insert; [apply Hd2; left|]. apply seg_alloc. exact Hs1.
      * rewrite last_of_app. cbn [last_of foldl].
        apply (seg_app _ _ [_]). split.
        -- split; [|done]. apply lookup_lt_Some in Hc, Hy. cbn [fst snd first_of].
           do 2 (apply lookup_insert_other; [lia|]). apply lookup_snoc_new.
        -- cbn [last_of foldl fst]. apply seg_insert.
           { apply Hd1. rewrite fmap_app. apply elem_of_app. right. left. }
           eapply seg_set_prev; [done|]. apply seg_alloc. exact Hs2.
    + replace (xs ++ c :: (length N, (clonePlain_at v n).1) :: y :: ys)
        with ((xs ++ [c]) ++ (length N, (clonePlain_at v n).1) :: y :: ys)
        by (by rewrite <- app_assoc).
      apply NoDup_insert_fresh; rewrite <- app_assoc; [|done].
      intros Hin. eapply seg_bound in Hin; [|exact Hseg]. simpl in Hin. lia.
    + done.
    + intros l nd Hl Hlk.
      apply lookup_insert_other.
      { intros <-. apply Hl. apply elem_of_middle. }
      apply lookup_insert_other.
      { intros <-. apply Hl. pose proof (elem_of_middle (xs ++ [c]) y ys) as Hin.
        by rewrite <- app_assoc in Hin. }
      by apply lookup_snoc_old.
    + intros d' o Hd' Ho. by apply lookup_insert_other.
    + rewrite !length_insert, length_app. simpl. lia.
    + by rewrite length_insert.
Qed.

Lemma insertBeforeNode_spec s d xs c ys v :
  is_list s d (xs ++ c :: ys) →
  ∃ s', DLinkedList.insertBeforeNode d (Some c.1) v s = Ret d s'
        ∧ is_list s' d (xs ++ (length (nodes s), (clonePlain_at v (next_ref s)).1) :: c :: ys)
        ∧ next_ref s' = (clonePlain_at v (next_ref s)).2
        ∧ preserves d (xs ++ c :: ys).*1 s s'
        ∧ length (nodes s') = S (length (nodes s))
        ∧ length (dlls s') = length (dlls s).
Proof.
  intros Hl. destruct xs as [|a xs _] using rev_ind.
  - destruct (prepend_spec _ _ _ v Hl) as (s' & Hrun & Hl' & H).
    exists s'. split; [|split; [|done]]; [|done].
    destruct Hl as (_ & Hseg & _). apply (seg_middle _ _ []) in Hseg.
    unfold DLinkedList.insertBeforeNode. step. done.
  - rewrite <- app_assoc in Hl. cbn [app] in Hl.
    rewrite <- !app_assoc. cbn [app].
    destruct s as [N D n]. destruct Hl as (HD & Hseg & Hnd). cbn [nodes dlls next_ref] in *.
    pose proof (seg_middle_next _ _ _ _ _ _ _ Hseg) as Hc.
    pose proof (seg_middle _ _ _ _ _ _ Hseg) as Ha. cbn [first_of] in Ha.
    pose proof (NoDup_middle_ne _ _ _ _ Hnd) as Hne.
    eexists. split.
    { unfold DLinkedList.insertBeforeNode. repeat step. finish. }
    unfold is_list, preserves. cbn [nodes dlls next_ref]. split_and!.
    + eapply lookup_insert_same in HD. rewrite HD. f_equal.
      rewrite !first_of_middle, !last_of_middle. cbn [last_of foldl]. f_equal.
      rewrite !length_app. simpl. lia.
    + replace (xs ++ a :: (length N, (clonePlain_at v n).1) :: c :: ys)
        with ((xs ++ [a]) ++ (length N, (clonePlain_at v n).1) :: c :: ys)
        by (by rewrite <- app_assoc).
      replace (xs ++ a :: c :: ys) with ((xs ++ [a]) ++ c :: ys) in Hseg, Hnd
        by (by rewrite <- app_assoc).
      apply NoDup_split in Hnd as (Hnd1 & Hnd2 & Hd1 & Hd2).
      apply seg_app in Hseg as [Hs1 Hs2]. rewrite last_of_app in Hs2.
      cbn [first_of last_of foldl] in Hs1, Hs2.
      apply seg_app. split.
      * cbn [first_of fst]. apply seg_insert; [apply Hd2; left|].
        eapply seg_set_next; [done|]. apply seg_alloc. exact Hs1.
      * rewrite last_of_app. cbn [last_of foldl].
        apply (seg_app _ _ [_]). split.
        -- split; [|done]. apply lookup_lt_Some in Hc, Ha. cbn [fst snd first_of].
           do 2 (apply lookup_insert_other; [lia|]). apply lookup_snoc_new.
        -- cbn [last_of foldl fst]. eapply seg_set_prev; [done|].
           apply seg_insert.
           { apply Hd1. rewrite fmap_app. apply elem_of_app. right. left. }
           apply seg_alloc. exact Hs2.
    + replace (xs ++ a :: (length N, (clonePlain_at v n).1) :: c :: ys)
        with ((xs ++ [a]) ++ (length N, (clonePlain_at v n).1) :: c :: ys)
        by (by rewrite <- app_assoc).
      apply NoDup_insert_fresh; rewrite <- app_assoc; [|done].
      intros Hin. eapply seg_bound in Hin; [|exact Hseg]. simpl in Hin. lia.
    + done.
    + intros l nd Hl Hlk.
      apply lookup_insert_other.
      { intros <-. apply Hl. pose proof (elem_of_middle (xs ++ [a]) c ys) as Hin.
        by rewrite <- app_assoc in Hin. }
      apply lookup_insert_other.
      { intros <-. apply Hl. apply elem_of_middle. }
      by apply lookup_snoc_old.
    + intros d' o Hd' Ho. by apply lookup_insert_other.
    + rewrite !length_insert, length_app. simpl. lia.
    + by rewrite length_insert.
Qed.

(** ** Removal *)

Lemma removeHead_spec s d cs :
  is_list s d cs →
  ∃ s', DLinkedList.removeHead d s = Ret d s'
        ∧ is_list s' d (tail cs)
        ∧ next_ref s' = next_ref s
        ∧ preserves d cs.*1 s s'
        ∧ length (nodes s') = length (nodes s)
        ∧ length (dlls s') = length (dlls s).
Proof.
  destruct s as [N D n]. intros (HD & Hseg & Hnd). cbn [nodes dlls next_ref] in *.
  destruct cs as [|c [|y ys]].
  - simpl in HD. eexists. split.
    { unfold DLinkedList.removeHead. repeat step. done. }
    split_and!; first [done|apply preserves_refl].
  - simpl in HD. pose proof Hseg as [Hc _]. simpl in Hc.
    eexists. split.
    { unfold DLinkedList.removeHead. repeat step. finish. }
    unfold is_list, preserves. cbn [nodes dlls next_ref]. split_and!; try done.
    + by eapply lookup_insert_same.
    + constructor.
    + intros d' o Hd' Ho. by apply lookup_insert_other.
    + by rewrite length_insert.
  - destruct (last_of_cons_Some (Some c.1) y ys) as [t Ht].
    change (last_of None (c :: y :: ys)) with (last_of (Some c.1) (y :: ys)) in HD.
    rewrite Ht in HD. cbn [first_of] in HD.
    pose proof Hseg as [Hc Hrest]. cbn [first_of] in Hc.
    pose proof Hrest as [Hy _].
    apply NoDup_cons in Hnd as [Hcy Hnd].
    eexists. split.
    { unfold DLinkedList.removeHead. repeat step. finish. }
    unfold is_list, preserves. cbn [nodes dlls next_ref tail]. split_and!; try done.
    + eapply lookup_insert_same in HD. rewrite HD. f_equal.
      change (last_of None (y :: ys)) with (last_of (Some c.1) (y :: ys)).
      rewrite Ht. cbn [first_of]. f_equal. simpl. lia.
    + eapply seg_set_prev; [done|exact Hrest].
    + intros l nd Hl Hlk. apply lookup_insert_other; [|done].
      intros <-. apply Hl. rewrite !fmap_cons. right. left.
    + intros d' o Hd' Ho. by apply lookup_insert_other.
    + by rewrite length_insert.
    + by rewrite length_insert.
Qed.

Lemma removeTail_spec s d cs :
  is_list s d cs →
  ∃ s', DLinkedList.removeTail d s = Ret d s'
        ∧ is_list s' d (removelast cs)
        ∧ next_ref s' = next_ref s
        ∧ preserves d cs.*1 s s'
        ∧ length (nodes s') = length (nodes s)
        ∧ length (dlls s') = length (dlls s).
Proof.
  destruct s as [N D n]. intros (HD & Hseg & Hnd). cbn [nodes dlls next_ref] in *.
  destruct cs as [|c cs _] using rev_ind; [|destruct cs as [|a cs _] using rev_ind].
  - simpl in HD. eexists. split.
    { unfold DLinkedList.removeTail. repeat step. done. }
    split_and!; first [done|apply preserves_refl].
  - simpl in HD. pose proof Hseg as [Hc _]. simpl in Hc.
    eexists. split.
    { unfold DLinkedList.removeTail. repeat step. finish. }
    unfold is_list, preserves. cbn [nodes dlls next_ref]. split_and!; try done.
    + by eapply lookup_insert_same.
    + constructor.
    + intros d' o Hd' Ho. by apply lookup_insert_other.
    + by rewrite length_insert.
  - rewrite removelast_last.
    rewrite <- app_assoc in HD, Hseg, Hnd. cbn [app] in HD, Hseg, Hnd.
    rewrite last_of_middle, first_of_middle in HD. cbn [last_of foldl] in HD.
    pose proof (seg_middle_next _ _ _ _ _ _ _ Hseg) as Hc. cbn [first_of] in Hc.
    pose proof (seg_middle _ _ _ _ _ _ Hseg) as Ha. cbn [first_of] in Ha.
    pose proof (NoDup_middle_ne _ _ _ _ Hnd) as Hne.
    eexists. split.
    { unfold DLinkedList.removeTail. repeat step. finish. }
    unfold is_list, preserves. cbn [nodes dlls next_ref]. split_and!; try done.
    + eapply lookup_insert_same in HD. rewrite HD. f_equal.
      rewrite first_of_middle, last_of_middle. cbn [last_of foldl]. f_equal.
      rewrite !length_app. simpl. lia.
    + eapply seg_set_next.
      * replace (cs ++ [a; c]) with ((cs ++ [a]) ++ [c]) in Hnd by (by rewrite <- app_assoc).
        by apply NoDup_split in Hnd as (? & _).
      * replace (cs ++ [a; c]) with ((cs ++ [a]) ++ [c]) in Hseg by (by rewrite <- app_assoc).
        apply seg_app in Hseg as [Hs _]. exact Hs.
    + replace (cs ++ [a; c]) with ((cs ++ [a]) ++ [c]) in Hnd by (by rewrite <- app_assoc).
      by apply NoDup_split in Hnd as (? & _).
    + intros l nd Hl Hlk. apply lookup_insert_other; [|done].
      intros <-. apply Hl. rewrite <- app_assoc. apply elem_of_middle.
    + intros d' o Hd' Ho. by apply lookup_insert_other.
    + by rewrite length_insert.
    + by rewrite length_insert.
Qed.

Lemma clear_spec s d cs :
  is_list s d cs →
  ∃ s', DLinkedList.clear d s = Ret d s'
        ∧ is_list s' d []
        ∧ next_ref s' = next_ref s
        ∧ preserves d cs.*1 s s'
        ∧ length (nodes s') = length (nodes s)
        ∧ length (dlls s') = length (dlls s).
Proof.
  destruct s as [N D n]. intros (HD & Hseg & Hnd). cbn [nodes dlls next_ref] in *.
  eexists. split.
  { unfold DLinkedList.clear. repeat step. finish. }
  unfold is_list, preserves. cbn [nodes dlls next_ref]. split_and!; try done.
  - by eapply lookup_insert_same.
  - constructor.
  - intros d' o Hd' Ho. by apply lookup_insert_other.
  - by rewrite length_insert.
Qed.

Lemma removeNode_null s d : DLinkedList.removeNode d None s = Ret d s.
Proof. reflexivity. Qed.

(** On the head node [removeNode] is [removeHead]. *)
Lemma removeNode_head s d c ys :
  is_list s d (c :: ys) →
  DLinkedList.removeNode d (Some c.1) s = DLinkedList.removeHead d s.
Proof.
  intros (_ & [Hc _] & _). unfold DLinkedList.removeNode. step. done.
Qed.

(** On a node that has a node on either side [removeNode] links the two
    neighbours to each other. *)
Lemma removeNode_interior s d xs a c y ys :
  is_list s d (xs ++ a :: c :: y :: ys) →
  ∃ s', DLinkedList.removeNode d (Some c.1) s = Ret d s'
        ∧ is_list s' d (xs ++ a :: y :: ys)
        ∧ next_ref s' = next_ref s
        ∧ preserves d (xs ++ a :: c :: y :: ys).*1 s s'
        ∧ length (nodes s') = length (nodes s)
        ∧ length (dlls s') = length (dlls s).
Proof.
  destruct s as [N D n]. intros (HD & Hseg & Hnd). cbn [nodes dlls next_ref] in *.
  pose proof (seg_middle _ _ _ _ _ _ Hseg) as Ha. cbn [first_of] in Ha.
  pose proof (seg_middle_next _ _ _ _ _ _ _ Hseg) as Hc. cbn [first_of] in Hc.
  pose proof (seg_middle_next N None (xs ++ [a]) c y ys None) as Hy.
  rewrite <- app_assoc in Hy. specialize (Hy Hseg).
  pose proof (NoDup_middle_ne _ _ _ _ Hnd) as Hac.
  pose proof (NoDup_middle_ne (xs ++ [a]) c y ys) as Hcy.
  rewrite <- app_assoc in Hcy. specialize (Hcy Hnd).
  replace (xs ++ a :: c :: y :: ys) with ((xs ++ [a]) ++ c :: y :: ys) in Hseg, Hnd
    by (by rewrite <- app_assoc).
  apply NoDup_delete_middle in Hnd as [Hnd Hcnot].
  pose proof Hnd as Hnd0.
  apply NoDup_split in Hnd as (Hnd1 & Hnd2 & Hd1 & Hd2).
  assert (a.1 ≠ y.1) as Hay.
  { intros E. apply (Hd2 y.1); [left|]. rewrite <- E, fmap_app. apply elem_of_app. right. left. }
  apply seg_app in Hseg as [Hs1 Hs2]. rewrite last_of_app in Hs2.
  cbn [first_of last_of foldl] in Hs1, Hs2. destruct Hs2 as [_ Hs2].
  eexists. split.
  { unfold DLinkedList.removeNode. repeat step. finish. }
  unfold is_list, preserves. cbn [nodes dlls next_ref]. split_and!; try done.
  - eapply lookup_insert_same in HD. rewrite HD. f_equal.
    rewrite !first_of_middle, !last_of_middle. cbn [last_of foldl]. f_equal.
    rewrite !length_app. simpl. lia.
  - replace (xs ++ a :: y :: ys) with ((xs ++ [a]) ++ y :: ys) by (by rewrite <- app_assoc).
    apply seg_app. split.
    + cbn [first_of]. apply seg_insert; [apply Hd2; left|].
      eapply seg_set_next; [done|exact Hs1].
    + rewrite last_of_app. cbn [last_of foldl].
      eapply seg_set_prev; [done|]. apply seg_insert; [|exact Hs2].
      apply Hd1. rewrite fmap_app. apply elem_of_app. right. left.
  - by rewrite <- app_assoc in Hnd0.
  - intros l nd Hl Hlk.
    apply lookup_insert_other.
    { intros <-. apply Hl. rewrite fmap_app, !fmap_cons.
      apply elem_of_app. right. right. right. left. }
    apply lookup_insert_other; [|done].
    intros <-. apply Hl. apply elem_of_middle.
  - intros d' o Hd' Ho. by apply lookup_insert_other.
  - by rewrite !length_insert.
  - by rewrite length_insert.
Qed.

(** On the tail node of a list of two or more [removeNode] calls [setPrev]
    on [null]: it throws after the first assignment, with [tail_node] and
    [length] as they were. *)
Lemma removeNode_tail s d xs a c :
  is_list s d (xs ++ [a; c]) →
  DLinkedList.removeNode d (Some c.1) s =
  Throw TypeError
    (mkStore (<[a.1 := NodeObj.mk a.2 None (last_of None xs)]> (nodes s))
       (dlls s) (next_ref s)).
Proof.
  destruct s as [N D n]. intros (HD & Hseg & Hnd). cbn [nodes dlls next_ref] in *.
  pose proof (seg_middle _ _ _ _ _ _ Hseg) as Ha. cbn [first_of] in Ha.
  pose proof (seg_middle_next _ _ _ _ _ _ _ Hseg) as Hc. cbn [first_of] in Hc.
  pose proof (NoDup_middle_ne _ _ _ _ Hnd) as Hac.
  unfold DLinkedList.removeNode. repeat step. done.
Qed.

(** ** Allocation of clones *)

Lemma clone_all_fresh vs n v :
  v ∈ (clone_all vs n).1 → isPlainObject v || isArray v = true →
  Forall (λ r, n ≤ r < (clone_all vs n).2) (refs v).
Proof.
  revert n. induction vs as [|x vs IH]; intros n.
  - by intros ?%elem_of_nil.
  - rewrite clone_all_cons. cbn [fst snd].
    pose proof (clonePlain_at_le x n) as Hle.
    pose proof (clone_all_le vs (clonePlain_at x n).2) as Hle'.
    intros [->|Hin]%elem_of_cons Hcomp.
    + rewrite clonePlain_at_composite in Hcomp.
      eapply Forall_impl; [by apply clonePlain_at_fresh|]. simpl. intros; lia.
    + eapply Forall_impl; [by apply IH|]. simpl. intros; lia.
Qed.

(** A value allocated before a clone was made shares nothing with it. *)
Lemma fresh_independent v w n :
  Forall (λ r, n ≤ r) (refs v) → allocated n w → independent v w.
Proof.
  unfold allocated, independent. rewrite !Forall_forall.
  intros Hv Hw r Hr Hr'. specialize (Hv _ Hr). specialize (Hw _ Hr'). simpl in *. lia.
Qed.

Lemma appended_length l vs n : length (appended l vs n) = length vs.
Proof. by rewrite <- (length_fmap snd), appended_snd, clone_all_length. Qed.

Lemma Forall2_struct_eq_trans xs ys zs :
  Forall2 struct_eq xs ys → Forall2 struct_eq ys zs → Forall2 struct_eq xs zs.
Proof.
  intros H. revert zs. induction H as [|x y xs ys Hxy _ IH]; intros zs Hz.
  - by inversion Hz.
  - inversion Hz; subst. constructor; [|by apply IH].
    unfold struct_eq in *. congruence.
Qed.

Lemma Forall2_struct_eq_sym xs ys :
  Forall2 struct_eq xs ys → Forall2 struct_eq ys xs.
Proof. induction 1; constructor; [by symmetry|done]. Qed.

Lemma Forall2_struct_eq_reverse xs ys :
  Forall2 struct_eq xs ys → Forall2 struct_eq (reverse xs) (reverse ys).
Proof.
  induction 1 as [|x y xs ys Hxy _ IH]; [constructor|].
  rewrite !reverse_cons. apply Forall2_app; [done|]. by constructor.
Qed.

(** ** C3: round trip through a list *)

(** C3. For every sequence [S], [toArray] applied to the list built by
    [fromArray(S)] yields a sequence structurally equal to [S], and every
    composite element of the result (a plain object or an array) is an
    independent copy: it shares no object with any element of [S]. *)
Theorem toArray_fromArray_roundtrip (s : Store) (S : list value) :
  Forall (allocated (next_ref s)) S →
  ∃ d s1 out s2,
    DLinkedList.fromArray_static S s = Ret d s1
    ∧ DLinkedList.toArray d s1 = Ret out s2
    ∧ Forall2 struct_eq out S
    ∧ ∀ v w, v ∈ out → isPlainObject v || isArray v = true → w ∈ S → independent v w.
Proof.
  intros Halloc.
  destruct (fromArray_static_spec s S) as (s1 & Hrun & Hl & Hn & _).
  eexists _, s1, _, _. split; [exact Hrun|]. split; [by apply toArray_spec|].
  rewrite appended_snd, Hn. split.
  - eapply Forall2_struct_eq_trans; apply clone_all_shape.
  - intros v w Hv Hcomp Hw.
    apply (fresh_independent _ _ (next_ref s)).
    + eapply Forall_impl; [by eapply clone_all_fresh|]. simpl.
      pose proof (clone_all_le S (next_ref s)). intros; lia.
    + rewrite Forall_forall in Halloc. by apply Halloc.
Qed.

(** A store in which two payload objects have been allocated already. *)
Lemma toArray_fromArray_roundtrip_witness :
  ∃ d s1 out s2,
    DLinkedList.fromArray_static
      [VComp PlainObject 0 [("a"%string, VComp ArrayObject 1 [])]; VNum 5]
      (mkStore [] [] 2) = Ret d s1
    ∧ DLinkedList.toArray d s1 = Ret out s2
    ∧ Forall2 struct_eq out
        [VComp PlainObject 0 [("a"%string, VComp ArrayObject 1 [])]; VNum 5]
    ∧ ∀ v w, v ∈ out → isPlainObject v || isArray v = true →
        w ∈ [VComp PlainObject 0 [("a"%string, VComp ArrayObject 1 [])]; VNum 5] →
        independent v w.
Proof.
  apply (toArray_fromArray_roundtrip (mkStore [] [] 2)).
  repeat constructor; simpl; lia.
Defined.

(** ** C4: construction from a sequence *)

Lemma fromArray_append_each this arr s :
  DLinkedList.fromArray this arr s = append_each this arr s.
Proof.
  unfold DLinkedList.fromArray, append_each. revert s.
  induction arr as [|v arr IH]; intros s; [done|].
  cbn [DLinkedList.forEach_append foldr]. rewrite bind_assoc.
  apply bind_ext. intros _ s'. apply IH.
Qed.

Lemma fromArray_instance_static arr s :
  fromArray_instance arr s = DLinkedList.fromArray_static arr s.
Proof.
  unfold fromArray_instance, DLinkedList.fromArray_static.
  apply bind_ext. intros d s'. unfold DLinkedList.fromArray.
  rewrite !bind_assoc. apply bind_ext. intros _ s''. done.
Qed.

(** C4. For every input sequence, [fromArray], in the static form and in the
    instance form (on a list just constructed), appends each element in
    order: the list it returns is correctly linked, holds the clones of the
    elements in order, and its [length] equals the length of the input; an
    empty input yields an empty list. *)
Theorem fromArray_length (s : Store) (arr : list value) :
  (∃ d s' cs,
     DLinkedList.fromArray_static arr s = Ret d s'
     ∧ fromArray_instance arr s = Ret d s'
     ∧ DLinkedList.fromArray_static arr s
       = (let! dll := DLinkedList.new in append_each dll arr) s
     ∧ is_list s' d cs
     ∧ cs.*2 = (clone_all arr (next_ref s)).1
     ∧ ListObj.length <$> dlls s' !! d = Some (Z.of_nat (length arr)))
  ∧ (∃ d s',
       DLinkedList.fromArray_static [] s = Ret d s'
       ∧ fromArray_instance [] s = Ret d s'
       ∧ dlls s' !! d = Some (ListObj.mk None None 0)
       ∧ DLinkedList.toArray d s' = Ret [] s').
Proof.
  split.
  - destruct (fromArray_static_spec s arr) as (s' & Hrun & Hl & Hn & _).
    eexists _, s', _. split; [exact Hrun|].
    split; [by rewrite fromArray_instance_static|]. split.
    { rewrite <- fromArray_instance_static. apply bind_ext.
      intros; apply fromArray_append_each. }
    split; [exact Hl|]. split; [apply appended_snd|].
    destruct Hl as (-> & _). simpl. by rewrite appended_length.
  - destruct (fromArray_static_spec s []) as (s' & Hrun & Hl & Hn & _).
    eexists _, s'. split; [exact Hrun|].
    split; [by rewrite fromArray_instance_static|].
    simpl in Hl. split; [by destruct Hl|].
    rewrite (toArray_spec _ _ _ Hl). simpl. by destruct s'.
Qed.

(** The instance form adds to what the receiver holds already. *)
Lemma fromArray_onto s d cs arr :
  is_list s d cs →
  ∃ s' cs', DLinkedList.fromArray d arr s = Ret d s'
    ∧ is_list s' d (cs ++ cs')
    ∧ cs'.*2 = (clone_all arr (next_ref s)).1
    ∧ ListObj.length <$> dlls s' !! d = Some (Z.of_nat (length cs + length arr)).
Proof.
  intros Hl. destruct (fromArray_spec s d cs arr Hl) as (s' & Hrun & Hl' & _).
  eexists s', _. split; [exact Hrun|]. split; [exact Hl'|]. split; [apply appended_snd|].
  destruct Hl' as (-> & _). simpl. by rewrite length_app, appended_length.
Qed.

(** ** C10: [null] as a stored value *)

(** C10. The no-value sentinel cannot be told from a stored [null]: on the
    non-empty list [[null, 1]], [head()] returns [null] as it does on the
    empty list, and [find] returns [null] both when the first match is the
    stored [null] and when nothing matches. *)
Theorem null_sentinel_ambiguous :
  ∃ d s e s0,
    DLinkedList.fromArray_static [VNull; VNum 1] empty_store = Ret d s
    ∧ DLinkedList.fromArray_static [] empty_store = Ret e s0
    ∧ ListObj.length <$> dlls s !! d = Some 2%Z
    ∧ ListObj.length <$> dlls s0 !! e = Some 0%Z
    ∧ DLinkedList.head d s = Ret VNull s
    ∧ DLinkedList.head e s0 = Ret VNull s0
    ∧ DLinkedList.tail e s0 = Ret VNull s0
    ∧ DLinkedList.find d is_null s = Ret VNull s
    ∧ DLinkedList.find d (λ _, false) s = Ret VNull s
    ∧ DLinkedList.findNode d is_null s = Ret (Some 0) s
    ∧ DLinkedList.findNode d (λ _, false) s = Ret None s.
Proof. by eexists _, _, _, _; split_and!; vm_compute. Qed.

(** ** The list [[1, 2, 3]] *)

Lemma store_123_built :
  DLinkedList.fromArray_static [VNum 1; VNum 2; VNum 3] empty_store = Ret 0 store_123.
Proof. reflexivity. Qed.

Lemma is_list_123 : is_list store_123 0 cells_123.
Proof.
  split_and!; [reflexivity|by repeat split|].
  apply NoDup_ListNoDup. repeat constructor; simpl; intuition lia.
Qed.

(** ** C7 and C8: [map] and [mapRight] build a new list *)









(** [mapRight()] on [[1, 2, 3]], run from the empty store. *)
Example mapRight_123 :
  (let! dll := DLinkedList.fromArray_static [VNum 1; VNum 2; VNum 3] in
   let! reversed := DLinkedList.mapRight dll None in
   DLinkedList.toArray reversed) empty_store
  = Ret [VNum 3; VNum 2; VNum 1]
      (mkStore (nodes store_123 ++
                  [NodeObj.mk (VNum 3) (Some 4) None;
                   NodeObj.mk (VNum 2) (Some 5) (Some 3);
                   NodeObj.mk (VNum 1) None (Some 4)])
         (dlls store_123 ++ [ListObj.mk (Some 3) (Some 5) 3]) 0).
Proof. reflexivity. Qed.

(** ** C5: a missing match *)

(** Cloning payloads does not affect the shape of a list. *)
Lemma is_list_next_ref s d cs n :
  is_list s d cs → is_list (mkStore (nodes s) (dlls s) n) d cs.
Proof. by intros (? & ? & ?). Qed.

Lemma insertAfter_spec s d cs predicate data :
  is_list s d cs →
  match (find_cell predicate cs (next_ref s)).1 with
  | None =>
      DLinkedList.insertAfter d predicate data s =
      Throw NotFound (mkStore (nodes s) (dlls s) (find_cell predicate cs (next_ref s)).2)
  | Some l =>
      ∃ s' xs c ys v, DLinkedList.insertAfter d predicate data s = Ret d s'
        ∧ cs = xs ++ c :: ys ∧ c.1 = l
        ∧ is_list s' d (xs ++ c :: (length (nodes s), v) :: ys)
        ∧ struct_eq v data
  end.
Proof.
  intros Hl. unfold DLinkedList.insertAfter.
  rewrite (bind_run _ _ _ _ _ (findNode_spec _ _ _ predicate Hl)).
  destruct (find_cell predicate cs (next_ref s)) as [[l|] n1] eqn:E; simpl; [|done].
  assert ((find_cell predicate cs (next_ref s)).1 = Some l) as Hf by (by rewrite E).
  apply find_cell_Some in Hf as (xs & c & ys & -> & <- & _).
  apply (is_list_next_ref _ _ _ n1) in Hl.
  destruct (insertAfterNode_spec _ _ _ _ _ data Hl) as (s' & Hrun & Hl' & _).
  eexists s', xs, c, ys, _. split_and!; [exact Hrun|done|done|exact Hl'|].
  apply clonePlain_at_shape.
Qed.

Lemma insertBefore_spec s d cs predicate data :
  is_list s d cs →
  match (find_cell predicate cs (next_ref s)).1 with
  | None =>
      DLinkedList.insertBefore d predicate data s =
      Throw NotFound (mkStore (nodes s) (dlls s) (find_cell predicate cs (next_ref s)).2)
  | Some l =>
      ∃ s' xs c ys v, DLinkedList.insertBefore d predicate data s = Ret d s'
        ∧ cs = xs ++ c :: ys ∧ c.1 = l
        ∧ is_list s' d (xs ++ (length (nodes s), v) :: c :: ys)
        ∧ struct_eq v data
  end.
Proof.
  intros Hl. unfold DLinkedList.insertBefore.
  rewrite (bind_run _ _ _ _ _ (findNode_spec _ _ _ predicate Hl)).
  destruct (find_cell predicate cs (next_ref s)) as [[l|] n1] eqn:E; simpl; [|done].
  assert ((find_cell predicate cs (next_ref s)).1 = Some l) as Hf by (by rewrite E).
  apply find_cell_Some in Hf as (xs & c & ys & -> & <- & _).
  apply (is_list_next_ref _ _ _ n1) in Hl.
  destruct (insertBeforeNode_spec _ _ _ _ _ data Hl) as (s' & Hrun & Hl' & _).
  eexists s', xs, c, ys, _. split_and!; [exact Hrun|done|done|exact Hl'|].
  apply clonePlain_at_shape.
Qed.

Lemma remove_run s d cs predicate :
  is_list s d cs →
  DLinkedList.remove d predicate s =
  DLinkedList.removeNode d (find_cell predicate cs (next_ref s)).1
    (mkStore (nodes s) (dlls s) (find_cell predicate cs (next_ref s)).2).
Proof.
  intros Hl. unfold DLinkedList.remove.
  by rewrite (bind_run _ _ _ _ _ (findNode_spec _ _ _ predicate Hl)).
Qed.

Lemma Forall_false_Exists_true (predicate : value → bool) vs :
  Forall (λ v, predicate v = false) vs → Exists (λ v, predicate v = true) vs → False.
Proof.
  intros Hall Hex. apply Exists_exists in Hex as (v & Hv & Ht).
  rewrite Forall_forall in Hall. specialize (Hall v Hv). congruence.
Qed.

(** C5. For every list and predicate, [insertAfter] and [insertBefore]
    throw the "unable to find a node" error exactly when no payload handed
    to the predicate satisfies it (otherwise they return the list); [remove]
    with no matching node, and [removeNode] on [null], return the list with
    every node and the list object unchanged. *)
Theorem insert_throws_remove_is_noop
    (s : Store) (d : loc) (cs : list (loc * value)) (predicate : value → bool) (data : value) :
  is_list s d cs →
  let seen := (clone_all cs.*2 (next_ref s)).1 in
  ((∃ s', DLinkedList.insertAfter d predicate data s = Throw NotFound s')
     ↔ Forall (λ v, predicate v = false) seen)
  ∧ ((∃ s', DLinkedList.insertBefore d predicate data s = Throw NotFound s')
     ↔ Forall (λ v, predicate v = false) seen)
  ∧ (Exists (λ v, predicate v = true) seen →
     (∃ s', DLinkedList.insertAfter d predicate data s = Ret d s')
     ∧ (∃ s', DLinkedList.insertBefore d predicate data s = Ret d s'))
  ∧ (Forall (λ v, predicate v = false) seen →
     ∃ s', DLinkedList.remove d predicate s = Ret d s'
           ∧ nodes s' = nodes s ∧ dlls s' = dlls s ∧ is_list s' d cs)
  ∧ DLinkedList.removeNode d None s = Ret d s.
Proof.
  intros Hl seen. unfold seen.
  pose proof (insertAfter_spec s d cs predicate data Hl) as Ha.
  pose proof (insertBefore_spec s d cs predicate data Hl) as Hb.
  pose proof (remove_run s d cs predicate Hl) as Hr.
  pose proof (find_cell_None predicate cs (next_ref s)) as Hnone.
  destruct ((find_cell predicate cs (next_ref s)).1) as [l|] eqn:E.
  - destruct Ha as (sa & ? & ? & ? & ? & Ha & _), Hb as (sb & ? & ? & ? & ? & Hb & _).
    assert (¬ Forall (λ v, predicate v = false) (clone_all cs.*2 (next_ref s)).1) as Hno.
    { intros H. apply Hnone in H. done. }
    split_and!.
    + split; [|done]. intros [s' Hs']. congruence.
    + split; [|done]. intros [s' Hs']. congruence.
    + intros _. eauto.
    + done.
    + done.
  - assert (Forall (λ v, predicate v = false) (clone_all cs.*2 (next_ref s)).1) as Hall.
    { by apply Hnone. }
    split_and!.
    + split; [done|]. eauto.
    + split; [done|]. eauto.
    + intros H. by destruct (Forall_false_Exists_true _ _ Hall H).
    + intros _. eexists. split; [exact Hr|]. split_and!; [done|done|].
      by apply is_list_next_ref.
    + done.
Qed.

Lemma insert_throws_remove_is_noop_witness :
  let seen := (clone_all cells_123.*2 (next_ref store_123)).1 in
  ((∃ s', DLinkedList.insertAfter 0 (is_num 7) (VNum 8) store_123 = Throw NotFound s')
     ↔ Forall (λ v, is_num 7 v = false) seen)
  ∧ ((∃ s', DLinkedList.insertBefore 0 (is_num 7) (VNum 8) store_123 = Throw NotFound s')
     ↔ Forall (λ v, is_num 7 v = false) seen)
  ∧ (Exists (λ v, is_num 7 v = true) seen →
     (∃ s', DLinkedList.insertAfter 0 (is_num 7) (VNum 8) store_123 = Ret 0 s')
     ∧ (∃ s', DLinkedList.insertBefore 0 (is_num 7) (VNum 8) store_123 = Ret 0 s'))
  ∧ (Forall (λ v, is_num 7 v = false) seen →
     ∃ s', DLinkedList.remove 0 (is_num 7) store_123 = Ret 0 s'
           ∧ nodes s' = nodes store_123 ∧ dlls s' = dlls store_123
           ∧ is_list s' 0 cells_123)
  ∧ DLinkedList.removeNode 0 None store_123 = Ret 0 store_123.
Proof.
  apply (insert_throws_remove_is_noop store_123 0 cells_123 (is_num 7) (VNum 8)).
  split_and!; [reflexivity|by repeat split|].
  apply NoDup_ListNoDup. repeat constructor; simpl; intuition lia.
Defined.

(** [insertAfter(v => v === 2, 3)] on [[1, 2, 4, 5]]. *)
Example insertAfter_1245 :
  ∃ s,
    (let! dll := DLinkedList.fromArray_static [VNum 1; VNum 2; VNum 4; VNum 5] in
     let! dll := DLinkedList.insertAfter dll (is_num 2) (VNum 3) in
     DLinkedList.toArray dll) empty_store
    = Ret [VNum 1; VNum 2; VNum 3; VNum 4; VNum 5] s.
Proof. by eexists; vm_compute. Qed.

(** ** C9: the asynchronous folds *)

Lemma stepper_while {V} fuel (iteratee : value → V → answer V) advance node acc s :
  DLinkedList.stepper fuel iteratee advance node acc s =
  DLinkedList.while_node fuel
    (λ cur acc,
       let! d := Node.getData cur in
       let! x := call (iteratee d acc) in
       await (Promise_resolve x))
    advance node acc s.
Proof.
  revert node acc s. induction fuel as [|fuel IH]; intros [l|] acc s; try done.
  cbn [DLinkedList.stepper DLinkedList.while_node].
  rewrite !bind_assoc. apply bind_ext. intros d s1.
  rewrite !bind_assoc. apply bind_ext. intros x s2.
  apply bind_ext. intros acc' s3. apply bind_ext. intros nx s4. apply IH.
Qed.

Lemma settle_run {V} (a : answer V) s :
  bind (call a) (λ x, await (Promise_resolve x)) s = lift (settle a) s.
Proof. destruct a as [v|[t [v|e|]]|e]; done. Qed.

Lemma asyncReduce_run {V} s d cs (iteratee : value → V → answer V) init :
  is_list s d cs →
  DLinkedList.asyncReduce d iteratee init s =
  settled (lift (walk (λ x a, settle (iteratee x a)) cs.*2 init (next_ref s)).1
    (mkStore (nodes s) (dlls s)
       (walk (λ x a, settle (iteratee x a)) cs.*2 init (next_ref s)).2)).
Proof.
  intros Hl. pose proof (is_list_fuel _ _ _ Hl) as Hfuel.
  destruct Hl as (HD & Hseg & _).
  unfold DLinkedList.asyncReduce, async. f_equal.
  do 2 step. rewrite stepper_while.
  erewrite (while_next _ (λ x a, settle (iteratee x a))); [|intros|exact Hseg|exact Hfuel].
  - reflexivity.
  - apply bind_ext. intros; apply settle_run.
Qed.

Lemma asyncReduceRight_run {V} s d cs (iteratee : value → V → answer V) init :
  is_list s d cs →
  DLinkedList.asyncReduceRight d iteratee init s =
  settled (lift (walk (λ x a, settle (iteratee x a)) (reverse cs.*2) init (next_ref s)).1
    (mkStore (nodes s) (dlls s)
       (walk (λ x a, settle (iteratee x a)) (reverse cs.*2) init (next_ref s)).2)).
Proof.
  intros Hl. pose proof (is_list_fuel _ _ _ Hl) as Hfuel.
  destruct Hl as (HD & Hseg & _).
  unfold DLinkedList.asyncReduceRight, async. f_equal.
  do 2 step. rewrite stepper_while.
  erewrite (while_prev _ (λ x a, settle (iteratee x a))); [|intros|exact Hseg|exact Hfuel].
  - reflexivity.
  - apply bind_ext. intros; apply settle_run.
Qed.

(** C9. For every list, initial accumulator and iteratee whose calls answer
    either with a plain value or with a promise of that value,
    [asyncReduce] (resp. [asyncReduceRight]) is fulfilled with the result of
    the synchronous [reduce] (resp. [reduceRight]) of the underlying
    function from the same accumulator, and leaves the same store. *)
Theorem asyncReduce_agrees_with_reduce {V : Type}
    (s : Store) (d : loc) (cs : list (loc * value))
    (g : value → V → V) (iteratee : value → V → answer V) (init : V) :
  is_list s d cs →
  (∀ x a, iteratee x a = Plain (g x a)
          ∨ ∃ t, iteratee x a = Promised (mkPromise t (Fulfilled (g x a)))) →
  (∃ r s', DLinkedList.reduce d g init s = Ret r s'
           ∧ DLinkedList.asyncReduce d iteratee init s = Ret (Fulfilled r) s')
  ∧ (∃ r s', DLinkedList.reduceRight d g init s = Ret r s'
             ∧ DLinkedList.asyncReduceRight d iteratee init s = Ret (Fulfilled r) s').
Proof.
  intros Hl Hit.
  assert (∀ x a, settle (iteratee x a) = Continue (g x a)) as Hsettle.
  { intros x a. by destruct (Hit x a) as [->|[t ->]]. }
  split.
  - eexists _, _. split; [by apply reduce_spec|].
    rewrite (asyncReduce_run _ _ _ _ _ Hl), (walk_total _ g) by done. done.
  - eexists _, _. split; [by apply reduceRight_spec|].
    rewrite (asyncReduceRight_run _ _ _ _ _ Hl), (walk_total _ g) by done. done.
Qed.

Lemma asyncReduce_agrees_with_reduce_witness :
  (∃ r s', DLinkedList.reduce 0 add_num 0%Z store_123 = Ret r s'
           ∧ DLinkedList.asyncReduce 0 add_num_async 0%Z store_123 = Ret (Fulfilled r) s')
  ∧ (∃ r s', DLinkedList.reduceRight 0 add_num 0%Z store_123 = Ret r s'
             ∧ DLinkedList.asyncReduceRight 0 add_num_async 0%Z store_123
               = Ret (Fulfilled r) s').
Proof.
  apply (asyncReduce_agrees_with_reduce store_123 0 cells_123 add_num add_num_async 0%Z).
  - split_and!; [reflexivity|by repeat split|].
    apply NoDup_ListNoDup. repeat constructor; simpl; intuition lia.
  - intros x a. unfold add_num_async. destruct (is_num 2 x); [left|right; eexists]; reflexivity.
Defined.

(** [reduce((v, acc) => acc + v, 0)] on [[1, 2, 3]], synchronous and not. *)
Example reduce_123 :
  DLinkedList.reduce 0 add_num 0%Z store_123 = Ret 6%Z store_123
  ∧ DLinkedList.asyncReduce 0 add_num_async 0%Z store_123 = Ret (Fulfilled 6%Z) store_123.
Proof. split; reflexivity. Qed.

(** ** C6: failure of an asynchronous map *)

Lemma dispatch_run {V} (a : answer V) results s :
  bind (call a) (λ x, ret (results ++ [Promise_resolve x])) s = lift (dispatch a results) s.
Proof. by destruct a. Qed.

(** [Promise.all] is rejected as soon as one of the promises is. *)
Lemma first_rejection_Exists {V} (ps : list (promise V)) :
  Exists rejected ps → ∃ t e, first_rejection ps = Some (t, e).
Proof.
  induction 1 as [p ps [e He]|p ps _ (t & e & IH)]; simpl.
  - rewrite He. destruct (first_rejection ps) as [[t' e']|]; [|by eauto].
    destruct (_ <=? _); eauto.
  - rewrite IH. destruct (fate_of p); [by eauto| |by eauto].
    destruct (_ <=? _); eauto.
Qed.

Lemma await_all_rejected {V} (ps : list (promise V)) s :
  Exists rejected ps → ∃ e, await (Promise_all ps) s = Throw e s.
Proof.
  intros (t & e & H)%first_rejection_Exists. exists e.
  unfold Promise_all. by rewrite H.
Qed.

(** The dispatch loop on a sequence with a failing invocation either throws
    or collects a promise that is rejected. *)
Lemma walk_dispatch_fails {V} (iteratee : value → answer V) vs acc n :
  Exists (λ v, failed (iteratee v)) (clone_all vs n).1 ∨ Exists rejected acc →
  (∃ e n', walk (λ x results, dispatch (iteratee x) results) vs acc n = (Raise e, n'))
  ∨ (∃ ps n', walk (λ x results, dispatch (iteratee x) results) vs acc n = (Continue ps, n')
              ∧ Exists rejected ps).
Proof.
  revert acc n. induction vs as [|v vs IH]; intros acc n.
  - simpl. intros [H|H]; [by apply Exists_nil in H|]. right. eauto.
  - rewrite clone_all_cons. cbn [fst walk]. intros H.
    destruct (iteratee (clonePlain_at v n).1) as [x|p|e] eqn:E; cbn [dispatch].
    + apply IH. destruct H as [H|H].
      * apply Exists_cons in H as [H|H]; [by rewrite E in H|by left].
      * right. apply Exists_app. by left.
    + apply IH. destruct H as [H|H].
      * apply Exists_cons in H as [H|H]; [|by left].
        rewrite E in H. right. apply Exists_app. right. by constructor.
      * right. apply Exists_app. by left.
    + left. eauto.
Qed.

Lemma asyncMap_run s d cs iteratee :
  is_list s d cs →
  DLinkedList.asyncMap d iteratee s =
  settled
    (bind (lift (walk (λ x results, dispatch (iteratee x) results) cs.*2 [] (next_ref s)).1)
       (λ results,
          let! unwrapped := await (Promise_all results) in
          DLinkedList.fromArray_static unwrapped)
       (mkStore (nodes s) (dlls s)
          (walk (λ x results, dispatch (iteratee x) results) cs.*2 [] (next_ref s)).2)).
Proof.
  intros Hl. pose proof (is_list_fuel _ _ _ Hl) as Hfuel.
  destruct Hl as (HD & Hseg & _).
  unfold DLinkedList.asyncMap, async. f_equal.
  do 2 step. unfold bind at 1.
  erewrite (while_next _ (λ x results, dispatch (iteratee x) results));
    [|intros|exact Hseg|exact Hfuel].
  - reflexivity.
  - apply bind_ext. intros; apply dispatch_run.
Qed.

Lemma asyncMapRight_run s d cs iteratee :
  is_list s d cs →
  DLinkedList.asyncMapRight d iteratee s =
  settled
    (bind
       (lift (walk (λ x results, dispatch (iteratee x) results) (reverse cs.*2) []
                (next_ref s)).1)
       (λ results,
          let! unwrapped := await (Promise_all results) in
          DLinkedList.fromArray_static unwrapped)
       (mkStore (nodes s) (dlls s)
          (walk (λ x results, dispatch (iteratee x) results) (reverse cs.*2) []
             (next_ref s)).2)).
Proof.
  intros Hl. pose proof (is_list_fuel _ _ _ Hl) as Hfuel.
  destruct Hl as (HD & Hseg & _).
  unfold DLinkedList.asyncMapRight, async. f_equal.
  do 2 step. unfold bind at 1.
  erewrite (while_prev _ (λ x results, dispatch (iteratee x) results));
    [|intros|exact Hseg|exact Hfuel].
  - reflexivity.
  - apply bind_ext. intros; apply dispatch_run.
Qed.

(** Whatever the traversal, a failing invocation makes the whole call fail
    before any list or node is constructed. *)
Lemma dispatch_fails_settled (iteratee : value → answer value) vs N D n :
  Exists (λ v, failed (iteratee v)) (clone_all vs n).1 →
  ∃ e n',
    settled
      (bind (lift (walk (λ x results, dispatch (iteratee x) results) vs [] n).1)
         (λ results,
            let! unwrapped := await (Promise_all results) in
            DLinkedList.fromArray_static unwrapped)
         (mkStore N D (walk (λ x results, dispatch (iteratee x) results) vs [] n).2))
    = Ret (Rejected e) (mkStore N D n').
Proof.
  intros Hex.
  destruct (walk_dispatch_fails iteratee vs [] n (or_introl Hex))
    as [(e & n' & ->)|(ps & n' & -> & Hps)]; cbn [fst snd].
  - by exists e, n'.
  - destruct (await_all_rejected ps (mkStore N D n') Hps) as [e He].
    exists e, n'. unfold bind at 1. cbn [lift]. by rewrite (bind_throw _ _ _ _ _ He).
Qed.

(** C6. For every list and asynchronous iteratee, if one invocation of the
    iteratee fails (it throws, or the promise it returns is rejected) then
    [asyncMap] and [asyncMapRight] are rejected as a whole: the promise they
    return is rejected, whatever the other invocations produced, and no
    list object and no node has been constructed. *)
Theorem asyncMap_fails_as_a_whole
    (s : Store) (d : loc) (cs : list (loc * value)) (iteratee : value → answer value) :
  is_list s d cs →
  (Exists (λ v, failed (iteratee v)) (clone_all cs.*2 (next_ref s)).1 →
   ∃ e s', DLinkedList.asyncMap d iteratee s = Ret (Rejected e) s'
           ∧ nodes s' = nodes s ∧ dlls s' = dlls s)
  ∧ (Exists (λ v, failed (iteratee v)) (clone_all (reverse cs.*2) (next_ref s)).1 →
     ∃ e s', DLinkedList.asyncMapRight d iteratee s = Ret (Rejected e) s'
             ∧ nodes s' = nodes s ∧ dlls s' = dlls s).
Proof.
  intros Hl. split; intros Hex.
  - rewrite (asyncMap_run _ _ _ _ Hl).
    destruct (dispatch_fails_settled iteratee _ (nodes s) (dlls s) _ Hex) as (e & n' & ->).
    by eexists _, _.
  - rewrite (asyncMapRight_run _ _ _ _ Hl).
    destruct (dispatch_fails_settled iteratee _ (nodes s) (dlls s) _ Hex) as (e & n' & ->).
    by eexists _, _.
Qed.

Lemma asyncMap_fails_as_a_whole_witness :
  (∃ e s', DLinkedList.asyncMap 0 reject_two store_123 = Ret (Rejected e) s'
           ∧ nodes s' = nodes store_123 ∧ dlls s' = dlls store_123)
  ∧ (∃ e s', DLinkedList.asyncMapRight 0 reject_two store_123 = Ret (Rejected e) s'
             ∧ nodes s' = nodes store_123 ∧ dlls s' = dlls store_123).
Proof.
  destruct (asyncMap_fails_as_a_whole store_123 0 cells_123 reject_two) as [Hfwd Hbwd].
  - split_and!; [reflexivity|by repeat split|].
    apply NoDup_ListNoDup. repeat constructor; simpl; intuition lia.
  - split; [apply Hfwd|apply Hbwd]; vm_compute;
      apply Exists_cons_tl, Exists_cons_hd; by eexists.
Defined.

(** [asyncMap] when every invocation succeeds: the new list holds the
    results in the order of the nodes, not of settlement. *)
Example asyncMap_123 :
  ∃ s' s'',
    DLinkedList.asyncMap 0 square_later store_123 = Ret (Fulfilled 1) s'
    ∧ DLinkedList.toArray 1 s' = Ret [VNum 1; VNum 4; VNum 9] s''
    ∧ DLinkedList.asyncMap 0 reject_two store_123 = Ret (Rejected (Error "two")) store_123.
Proof. by eexists _, _; split_and!; vm_compute. Qed.

(** ** The [length] invariant *)

Lemma count_next_seg N fuel p cs :
  seg N p cs None → length cs ≤ fuel →
  count_next N fuel (first_of cs None) = Some (length cs).
Proof.
  revert fuel p. induction cs as [|c cs IH]; intros fuel p Hseg Hfuel.
  - by destruct fuel.
  - destruct fuel as [|fuel]; [simpl in Hfuel; lia|].
    destruct Hseg as [Hc Hrest]. cbn [first_of count_next].
    rewrite Hc. simpl. rewrite (IH fuel (Some c.1)); [done|done|simpl in Hfuel; lia].
Qed.

Lemma count_prev_seg N fuel cs q :
  seg N None cs q → length cs ≤ fuel →
  count_prev N fuel (last_of None cs) = Some (length cs).
Proof.
  revert fuel q. induction cs as [|c cs IH] using rev_ind; intros fuel q Hseg Hfuel.
  - by destruct fuel.
  - rewrite length_app in Hfuel |- *. destruct fuel as [|fuel]; [simpl in Hfuel; lia|].
    pose proof (seg_middle _ _ _ _ _ _ Hseg) as Hc.
    apply seg_app in Hseg as [Hrest _].
    rewrite last_of_app. cbn [last_of foldl count_prev].
    rewrite Hc. simpl. rewrite (IH fuel (Some c.1)); [|done|simpl in Hfuel; lia].
    simpl. f_equal. lia.
Qed.

(** A correctly linked list satisfies the [length] invariant. *)
Lemma is_list_length_invariant s d cs : is_list s d cs → length_invariant s d.
Proof.
  intros Hl. pose proof (is_list_fuel _ _ _ Hl) as Hfuel.
  destruct Hl as (HD & Hseg & _).
  eexists. split; [exact HD|]. simpl. split_and!.
  - exists (length cs). split_and!; [done|by eapply count_next_seg|by eapply count_prev_seg].
  - rewrite first_of_None. destruct cs; simpl; split; (done || lia).
  - by rewrite first_of_None, last_of_None.
Qed.

(** [removeNode] does its job on any node but the tail of a longer list. *)
Lemma removeNode_spec s d xs c ys :
  is_list s d (xs ++ c :: ys) → ys ≠ [] ∨ xs = [] →
  ∃ s', DLinkedList.removeNode d (Some c.1) s = Ret d s'
        ∧ is_list s' d (xs ++ ys)
        ∧ next_ref s' = next_ref s
        ∧ preserves d (xs ++ c :: ys).*1 s s'
        ∧ length (nodes s') = length (nodes s)
        ∧ length (dlls s') = length (dlls s).
Proof.
  intros Hl Hcase. destruct xs as [|a xs _] using rev_ind.
  - cbn [app] in *. rewrite (removeNode_head _ _ _ _ Hl).
    by destruct (removeHead_spec _ _ _ Hl) as (s' & H); exists s'.
  - destruct Hcase as [Hys|Hxs]; [|by apply app_eq_nil in Hxs as [_ ?]].
    destruct ys as [|y ys]; [done|].
    rewrite <- !app_assoc in *. cbn [app] in *.
    by apply removeNode_interior.
Qed.

(** Removing the tail node of a list of two or more through [removeNode]
    throws and leaves the list broken: [length] counts a node that the walk
    from the head no longer reaches. *)
Lemma removeNode_tail_breaks s d xs a c :
  is_list s d (xs ++ [a; c]) →
  ∃ s', DLinkedList.removeNode d (Some c.1) s = Throw TypeError s'
        ∧ ¬ length_invariant s' d.
Proof.
  intros Hl. eexists. split; [by apply removeNode_tail|].
  pose proof (is_list_fuel _ _ _ Hl) as Hfuel.
  destruct Hl as (HD & Hseg & Hnd).
  intros (o & Ho & (k & Hk & Hnext & _) & _). cbn [nodes dlls] in *.
  rewrite HD in Ho. injection Ho as <-. cbn [ListObj.length ListObj.head_node] in *.
  replace (xs ++ [a; c]) with ((xs ++ [a]) ++ [c]) in * by (by rewrite <- app_assoc).
  apply seg_app in Hseg as [Hseg _]. apply NoDup_split in Hnd as (Hnd & _).
  eapply (seg_set_next _ _ _ _ _ None) in Hseg; [|done].
  rewrite first_of_app in Hnext.
  rewrite (first_of_indep _ _ _ None), length_insert in Hnext.
  erewrite count_next_seg in Hnext; [|exact Hseg|by rewrite length_app in Hfuel; lia].
  injection Hnext as <-. rewrite !length_app in Hk. simpl in Hk. lia.
Qed.

Lemma headNode_run s d cs :
  is_list s d cs → DLinkedList.headNode d s = Ret (first_of cs None) s.
Proof.
  intros (HD & _). unfold DLinkedList.headNode. step. by destruct (first_of cs None).
Qed.

Lemma tailNode_run s d cs :
  is_list s d cs → DLinkedList.tailNode d s = Ret (last_of None cs) s.
Proof.
  intros (HD & _). unfold DLinkedList.tailNode. step. by destruct (last_of None cs).
Qed.

(** ** Sequences of operations *)

Lemma removeNode_member s d xs c ys :
  is_list s d (xs ++ c :: ys) →
  returns_linked d (DLinkedList.removeNode d (Some c.1) s)
  ∨ throws_broken d (DLinkedList.removeNode d (Some c.1) s).
Proof.
  intros Hl. destruct ys as [|y ys]; [destruct xs as [|a xs _] using rev_ind|].
  - left. destruct (removeNode_spec s d [] c [] Hl) as (s' & Hrun & Hl' & _); [by right|].
    by exists s', [].
  - right. rewrite <- app_assoc in Hl. by apply removeNode_tail_breaks in Hl.
  - left. destruct (removeNode_spec s d xs c (y :: ys) Hl) as (s' & Hrun & Hl' & _); [by left|].
    by eexists s', _.
Qed.

Lemma removeNode_found s d cs predicate n :
  is_list s d cs →
  returns_linked d (DLinkedList.removeNode d (find_cell predicate cs n).1 s)
  ∨ throws_broken d (DLinkedList.removeNode d (find_cell predicate cs n).1 s).
Proof.
  intros Hl. destruct (find_cell predicate cs n).1 as [l|] eqn:E.
  - apply find_cell_Some in E as (xs & c & ys & -> & <- & _).
    exact (removeNode_member _ _ _ _ _ Hl).
  - left. by exists s, cs.
Qed.

Lemma reaches_seg N fuel p cs l :
  seg N p cs None → reaches N fuel (first_of cs None) l = true → l ∈ cs.*1.
Proof.
  revert fuel p. induction cs as [|c cs IH]; intros fuel p; [by destruct fuel|].
  cbn [seg first_of]. intros [Hc Hrest]. destruct fuel as [|fuel]; [done|].
  cbn [reaches]. rewrite fmap_cons. case_bool_decide as E.
  - intros _. rewrite <- E. left.
  - rewrite Hc. cbn [NodeObj.next]. intros H. right. by eapply IH.
Qed.

Lemma on_list_member s d cs l : is_list s d cs → on_list s d l = true → l ∈ cs.*1.
Proof.
  intros (HD & Hseg & _). unfold on_list. rewrite HD. cbn [ListObj.head_node].
  by eapply reaches_seg.
Qed.

Lemma own_node_member s d cs o l :
  is_list s d cs → own_node d o s = true → held_node o = Some l → l ∈ cs.*1.
Proof.
  intros Hl Ho E. unfold own_node in Ho. rewrite E in Ho. by eapply on_list_member.
Qed.

(** A node looked up on the list, or held by the caller and on the list, is
    [null] or one of its cells; looking it up changes no node and no list. *)
Lemma query_spec s d cs q :
  is_list s d cs → (∀ l, held q = Some l → l ∈ cs.*1) →
  ∃ r n, query d q s = Ret r (mkStore (nodes s) (dlls s) n)
         ∧ (r = None ∨ ∃ xs c ys, cs = xs ++ c :: ys ∧ r = Some c.1).
Proof.
  intros Hl Hq. destruct q as [p| | | |[l|]]; cbn [query].
  - eexists _, _. split; [by apply findNode_spec|].
    destruct (find_cell p cs (next_ref s)).1 as [l|] eqn:E; [|by left].
    right. apply find_cell_Some in E as (xs & c & ys & -> & <- & _). by exists xs, c, ys.
  - exists (first_of cs None), (next_ref s). rewrite (headNode_run _ _ _ Hl).
    split; [by destruct s|]. destruct cs as [|c cs]; [by left|]. right. by exists [], c, cs.
  - exists (last_of None cs), (next_ref s). rewrite (tailNode_run _ _ _ Hl).
    split; [by destruct s|]. destruct cs as [|c cs _] using rev_ind; [by left|].
    right. exists cs, c, []. by rewrite last_of_app.
  - exists None, (next_ref s). split; [by destruct s|by left].
  - exists (Some l), (next_ref s). split; [by destruct s|]. right.
    specialize (Hq l eq_refl). apply list_elem_of_fmap in Hq as (c & -> & Hc).
    apply list_elem_of_split in Hc as (xs & ys & ->). by exists xs, c, ys.
  - exists None, (next_ref s). split; [by destruct s|by left].
Qed.

(** Every operation on a correctly linked list, handed a node of that list
    if it is handed one, either returns the list, correctly linked, or
    throws one of the errors of the insertions and leaves it as it was, or
    throws on the removal of a tail node and leaves it broken. *)
Lemma exec_outcome s d cs o :
  is_list s d cs → own_node d o s = true →
  returns_linked d (exec d o s) ∨ throws_error d cs (exec d o s)
  ∨ throws_broken d (exec d o s).
Proof.
  intros Hl Hown. pose proof (λ l, own_node_member s d cs o l Hl Hown) as Hheld.
  destruct o as [v|v|p v|p v|p|q| | | |q v|q v|arr]; cbn [exec held_node] in *.
  - left. destruct (append_spec _ _ _ v Hl) as (s' & ? & ? & _). by eexists s', _.
  - left. destruct (prepend_spec _ _ _ v Hl) as (s' & ? & ? & _). by eexists s', _.
  - pose proof (insertAfter_spec _ _ _ p v Hl) as H.
    destruct (find_cell p cs (next_ref s)).1.
    + left. destruct H as (s' & ? & ? & ? & ? & ? & _ & _ & ? & _). by eexists s', _.
    + right. left. eexists NotFound, _. split; [exact H|].
      split; [left|by apply is_list_next_ref].
  - pose proof (insertBefore_spec _ _ _ p v Hl) as H.
    destruct (find_cell p cs (next_ref s)).1.
    + left. destruct H as (s' & ? & ? & ? & ? & ? & _ & _ & ? & _). by eexists s', _.
    + right. left. eexists NotFound, _. split; [exact H|].
      split; [left|by apply is_list_next_ref].
  - rewrite (remove_run _ _ _ _ Hl).
    destruct (removeNode_found _ d cs p (next_ref s)
                (is_list_next_ref _ _ _ (find_cell p cs (next_ref s)).2 Hl)); auto.
  - destruct (query_spec s d cs q Hl Hheld) as (r & n & Hq & Hr).
    rewrite (bind_run _ _ _ _ _ Hq). apply (is_list_next_ref _ _ _ n) in Hl.
    destruct Hr as [->|(xs & c & ys & -> & ->)].
    + left. by eexists _, cs.
    + destruct (removeNode_member _ d xs c ys Hl); auto.
  - left. destruct (removeHead_spec _ _ _ Hl) as (s' & ? & ? & _). by eexists s', _.
  - left. destruct (removeTail_spec _ _ _ Hl) as (s' & ? & ? & _). by eexists s', _.
  - left. destruct (clear_spec _ _ _ Hl) as (s' & ? & ? & _). by eexists s', _.
  - destruct (query_spec s d cs q Hl Hheld) as (r & n & Hq & Hr).
    rewrite (bind_run _ _ _ _ _ Hq). apply (is_list_next_ref _ _ _ n) in Hl.
    destruct Hr as [->|(xs & c & ys & -> & ->)].
    + right. left. eexists InvalidReference, _. split; [reflexivity|].
      split; [right; left|exact Hl].
    + left. destruct (insertAfterNode_spec _ _ _ _ _ v Hl) as (s' & ? & ? & _).
      by eexists s', _.
  - destruct (query_spec s d cs q Hl Hheld) as (r & n & Hq & Hr).
    rewrite (bind_run _ _ _ _ _ Hq). apply (is_list_next_ref _ _ _ n) in Hl.
    destruct Hr as [->|(xs & c & ys & -> & ->)].
    + right. left. eexists (Error "Unable to insert data."), _. split; [reflexivity|].
      split; [right; right; left|exact Hl].
    + left. destruct (insertBeforeNode_spec _ _ _ _ _ v Hl) as (s' & ? & ? & _).
      by eexists s', _.
  - left. destruct (fromArray_spec _ _ _ arr Hl) as (s' & ? & ? & _). by eexists s', _.
Qed.

(** After any sequence of operations that all return, each handed a node of
    the list if it is handed one, the list is correctly linked and the
    [length] invariant holds. *)
Lemma exec_all_linked s d cs ops r s' :
  is_list s d cs → own_nodes d ops s = true → exec_all d ops s = Ret r s' →
  r = d ∧ (∃ cs', is_list s' d cs') ∧ length_invariant s' d.
Proof.
  revert s cs. induction ops as [|o ops IH]; intros s cs Hl Hown Hrun.
  - injection Hrun as <- <-. split; [done|]. split; [by exists cs|].
    by eapply is_list_length_invariant.
  - cbn [exec_all own_nodes] in Hrun, Hown. apply andb_true_iff in Hown as [Ho Hrest].
    unfold bind in Hrun.
    destruct (exec_outcome s d cs o Hl Ho)
      as [(s1 & cs1 & Heq & Hl1)|[(e & s1 & Heq & _)|(s1 & Heq & _)]];
      rewrite Heq in Hrun, Hrest; [|done..].
    by eapply IH.
Qed.

(** ** C1 and C2: removal of the tail node through [removeNode] *)

(** C1. [removeNode] does not remove the tail node of a list of two or more:
    on [[1, 2]], [removeNode(tailNode())] throws a [TypeError] from
    [node.getNext().setPrev(...)], having unlinked the node from its
    predecessor only; [tail_node] still refers to it and [length] is still 2,
    while [toArray()] yields [[1]]. *)
Theorem removeNode_on_tail_throws :
  ∃ d s t s',
    DLinkedList.fromArray_static [VNum 1; VNum 2] empty_store = Ret d s
    ∧ DLinkedList.tailNode d s = Ret t s
    ∧ t = Some 1
    ∧ DLinkedList.removeNode d t s = Throw TypeError s'
    ∧ dlls s' !! d = Some (ListObj.mk (Some 0) (Some 1) 2)
    ∧ DLinkedList.toArray d s' = Ret [VNum 1] s'.
Proof. by eexists _, _, _, _; split_and!; vm_compute. Qed.

(** C2. The [length] invariant does not survive [remove] on the last
    element: on [[1, 2]], [remove(v => v === 2)] throws a [TypeError] and
    leaves [length] at 2 with one node reachable from the head through
    [next] and two from the tail through [prev]. *)
Theorem length_invariant_broken_by_remove :
  ∃ d s s',
    DLinkedList.fromArray_static [VNum 1; VNum 2] empty_store = Ret d s
    ∧ length_invariant s d
    ∧ exec_all d [OpRemove (is_num 2)] s = Throw TypeError s'
    ∧ dlls s' !! d = Some (ListObj.mk (Some 0) (Some 1) 2)
    ∧ count_next (nodes s') (length (nodes s')) (Some 0) = Some 1
    ∧ count_prev (nodes s') (length (nodes s')) (Some 1) = Some 2
    ∧ ¬ length_invariant s' d.
Proof.
  eexists _, _, _. split; [by vm_compute|]. split_and!; try by vm_compute.
  - eexists. split; [by vm_compute|]. split_and!; [|by vm_compute..].
    exists 2. by vm_compute.
  - intros (o & Ho & (k & Hk & Hnext & _) & _).
    vm_compute in Ho. injection Ho as <-.
    vm_compute in Hnext. injection Hnext as <-. done.
Qed.

(** * Further properties of the operations *)

Lemma is_list_obj : is_list store_obj 0 cells_obj.
Proof.
  split_and!; [reflexivity|by repeat split|].
  apply NoDup_ListNoDup. repeat constructor; simpl; intuition lia.
Qed.

Lemma find_cell_first predicate xs c ys n :
  Forall (λ v, predicate v = false) (clone_all xs.*2 n).1 →
  predicate (clonePlain_at c.2 (clone_all xs.*2 n).2).1 = true →
  find_cell predicate (xs ++ c :: ys) n
  = (Some c.1, (clonePlain_at c.2 (clone_all xs.*2 n).2).2).
Proof.
  revert n. induction xs as [|x xs IH]; intros n.
  - simpl. by intros _ ->.
  - rewrite fmap_cons, clone_all_cons. cbn [fst snd app find_cell].
    intros [Hx Hxs]%Forall_cons Hc. rewrite Hx. by apply IH.
Qed.

(** ** Insertion *)

(** X1. [append] on a correctly linked list returns the list with one more
    node at the tail, holding a clone of the data; the nodes before it keep
    their order and [length] grows by 1. *)
Theorem append_adds_last (s : Store) (d : loc) (cs : list (loc * value)) (data : value) :
  is_list s d cs →
  ∃ s' l w,
    DLinkedList.append d data s = Ret d s'
    ∧ is_list s' d (cs ++ [(l, w)])
    ∧ struct_eq w data
    ∧ dlls s' !! d
      = Some (ListObj.mk (first_of (cs ++ [(l, w)]) None) (Some l)
                (Z.of_nat (length cs) + 1)).
Proof.
  intros Hl. destruct (append_spec s d cs data Hl) as (s' & Hrun & Hl' & _).
  eexists s', _, _. split; [exact Hrun|]. split; [exact Hl'|].
  split; [apply clonePlain_at_shape|].
  destruct Hl' as (-> & _). rewrite last_of_app, length_app. simpl. do 2 f_equal. lia.
Qed.

Lemma append_adds_last_witness :
  ∃ s' l w,
    DLinkedList.append 0 (VNum 4) store_123 = Ret 0 s'
    ∧ is_list s' 0 (cells_123 ++ [(l, w)])
    ∧ struct_eq w (VNum 4)
    ∧ dlls s' !! 0
      = Some (ListObj.mk (first_of (cells_123 ++ [(l, w)]) None) (Some l)
                (Z.of_nat (length cells_123) + 1)).
Proof. apply (append_adds_last store_123 0 cells_123 (VNum 4)). exact is_list_123. Defined.

(** X2. [prepend] on a correctly linked list returns the list with one more
    node at the head, holding a clone of the data; the nodes after it keep
    their order and [length] grows by 1. *)
Theorem prepend_adds_first (s : Store) (d : loc) (cs : list (loc * value)) (data : value) :
  is_list s d cs →
  ∃ s' l w,
    DLinkedList.prepend d data s = Ret d s'
    ∧ is_list s' d ((l, w) :: cs)
    ∧ struct_eq w data
    ∧ dlls s' !! d
      = Some (ListObj.mk (Some l) (last_of None ((l, w) :: cs)) (Z.of_nat (length cs) + 1)).
Proof.
  intros Hl. destruct (prepend_spec s d cs data Hl) as (s' & Hrun & Hl' & _).
  eexists s', _, _. split; [exact Hrun|]. split; [exact Hl'|].
  split; [apply clonePlain_at_shape|].
  destruct Hl' as (-> & _). simpl. do 2 f_equal. lia.
Qed.

Lemma prepend_adds_first_witness :
  ∃ s' l w,
    DLinkedList.prepend 0 (VNum 0) store_123 = Ret 0 s'
    ∧ is_list s' 0 ((l, w) :: cells_123)
    ∧ struct_eq w (VNum 0)
    ∧ dlls s' !! 0
      = Some (ListObj.mk (Some l) (last_of None ((l, w) :: cells_123))
                (Z.of_nat (length cells_123) + 1)).
Proof. apply (prepend_adds_first store_123 0 cells_123 (VNum 0)). exact is_list_123. Defined.

(** X3. [insertAfterNode] on a node of the list puts a new node holding a
    clone of the data right after it, also when the node is the tail; on
    [null] it throws "Not able to insert data." and changes nothing. *)
Theorem insertAfterNode_inserts
    (s : Store) (d : loc) (xs : list (loc * value)) (c : loc * value)
    (ys : list (loc * value)) (data : value) :
  is_list s d (xs ++ c :: ys) →
  (∃ s' l w,
     DLinkedList.insertAfterNode d (Some c.1) data s = Ret d s'
     ∧ is_list s' d (xs ++ c :: (l, w) :: ys)
     ∧ struct_eq w data)
  ∧ DLinkedList.insertAfterNode d None data s = Throw InvalidReference s.
Proof.
  intros Hl. split; [|done].
  destruct (insertAfterNode_spec s d xs c ys data Hl) as (s' & Hrun & Hl' & _).
  eexists s', _, _. split; [exact Hrun|]. split; [exact Hl'|]. apply clonePlain_at_shape.
Qed.

Lemma insertAfterNode_inserts_witness :
  (∃ s' l w,
     DLinkedList.insertAfterNode 0 (Some 2) (VNum 4) store_123 = Ret 0 s'
     ∧ is_list s' 0 ([(0, VNum 1); (1, VNum 2)] ++ (2, VNum 3) :: (l, w) :: [])
     ∧ struct_eq w (VNum 4))
  ∧ DLinkedList.insertAfterNode 0 None (VNum 4) store_123 = Throw InvalidReference store_123.
Proof.
  apply (insertAfterNode_inserts store_123 0 [(0, VNum 1); (1, VNum 2)] (2, VNum 3) []).
  exact is_list_123.
Defined.

(** X4. [insertBeforeNode] on a node of the list puts a new node holding a
    clone of the data right before it, also when the node is the head; on
    [null] it throws "Unable to insert data." and changes nothing. *)
Theorem insertBeforeNode_inserts
    (s : Store) (d : loc) (xs : list (loc * value)) (c : loc * value)
    (ys : list (loc * value)) (data : value) :
  is_list s d (xs ++ c :: ys) →
  (∃ s' l w,
     DLinkedList.insertBeforeNode d (Some c.1) data s = Ret d s'
     ∧ is_list s' d (xs ++ (l, w) :: c :: ys)
     ∧ struct_eq w data)
  ∧ DLinkedList.insertBeforeNode d None data s = Throw (Error "Unable to insert data.") s.
Proof.
  intros Hl. split; [|done].
  destruct (insertBeforeNode_spec s d xs c ys data Hl) as (s' & Hrun & Hl' & _).
  eexists s', _, _. split; [exact Hrun|]. split; [exact Hl'|]. apply clonePlain_at_shape.
Qed.

Lemma insertBeforeNode_inserts_witness :
  (∃ s' l w,
     DLinkedList.insertBeforeNode 0 (Some 0) (VNum 0) store_123 = Ret 0 s'
     ∧ is_list s' 0 ([] ++ (l, w) :: (0, VNum 1) :: [(1, VNum 2); (2, VNum 3)])
     ∧ struct_eq w (VNum 0))
  ∧ DLinkedList.insertBeforeNode 0 None (VNum 0) store_123
    = Throw (Error "Unable to insert data.") store_123.
Proof.
  apply (insertBeforeNode_inserts store_123 0 [] (0, VNum 1) [(1, VNum 2); (2, VNum 3)]).
  exact is_list_123.
Defined.

(** X5. [insertAfter] and [insertBefore] insert next to the first node, from
    the head, whose clone satisfies the predicate: right after it, resp.
    right before it; later matches are left alone. *)
Theorem insert_at_first_match
    (s : Store) (d : loc) (xs : list (loc * value)) (c : loc * value)
    (ys : list (loc * value)) (predicate : value → bool) (data : value) :
  is_list s d (xs ++ c :: ys) →
  Forall (λ v, predicate v = false) (clone_all xs.*2 (next_ref s)).1 →
  predicate (clonePlain_at c.2 (clone_all xs.*2 (next_ref s)).2).1 = true →
  (∃ s' l w,
     DLinkedList.insertAfter d predicate data s = Ret d s'
     ∧ is_list s' d (xs ++ c :: (l, w) :: ys) ∧ struct_eq w data)
  ∧ (∃ s' l w,
       DLinkedList.insertBefore d predicate data s = Ret d s'
       ∧ is_list s' d (xs ++ (l, w) :: c :: ys) ∧ struct_eq w data).
Proof.
  intros Hl Hxs Hc.
  pose proof (findNode_spec _ _ _ predicate Hl) as Hfind.
  rewrite (find_cell_first _ _ _ _ _ Hxs Hc) in Hfind. cbn [fst snd] in Hfind.
  apply (is_list_next_ref _ _ _ (clonePlain_at c.2 (clone_all xs.*2 (next_ref s)).2).2) in Hl.
  split.
  - destruct (insertAfterNode_spec _ _ _ _ _ data Hl) as (s' & Hrun & Hl' & _).
    eexists s', _, _. split; [|split; [exact Hl'|apply clonePlain_at_shape]].
    unfold DLinkedList.insertAfter. by rewrite (bind_run _ _ _ _ _ Hfind).
  - destruct (insertBeforeNode_spec _ _ _ _ _ data Hl) as (s' & Hrun & Hl' & _).
    eexists s', _, _. split; [|split; [exact Hl'|apply clonePlain_at_shape]].
    unfold DLinkedList.insertBefore. by rewrite (bind_run _ _ _ _ _ Hfind).
Qed.

Lemma insert_at_first_match_witness :
  (∃ s' l w,
     DLinkedList.insertAfter 0 (at_least 2) (VNum 9) store_123 = Ret 0 s'
     ∧ is_list s' 0 ([(0, VNum 1)] ++ (1, VNum 2) :: (l, w) :: [(2, VNum 3)])
     ∧ struct_eq w (VNum 9))
  ∧ (∃ s' l w,
       DLinkedList.insertBefore 0 (at_least 2) (VNum 9) store_123 = Ret 0 s'
       ∧ is_list s' 0 ([(0, VNum 1)] ++ (l, w) :: (1, VNum 2) :: [(2, VNum 3)])
       ∧ struct_eq w (VNum 9)).
Proof.
  apply (insert_at_first_match store_123 0 [(0, VNum 1)] (1, VNum 2) [(2, VNum 3)]).
  - exact is_list_123.
  - by repeat constructor.
  - reflexivity.
Defined.

(** ** Removal *)

(** X6. [removeHead] drops the first node of a correctly linked list and
    keeps the others in order; on a list of one node the list becomes empty,
    on the empty list nothing changes. *)
Theorem removeHead_drops_first (s : Store) (d : loc) (cs : list (loc * value)) :
  is_list s d cs →
  ∃ s',
    DLinkedList.removeHead d s = Ret d s'
    ∧ is_list s' d (tail cs)
    ∧ (cs = [] → s' = s).
Proof.
  intros Hl. destruct (removeHead_spec s d cs Hl) as (s' & Hrun & Hl' & _).
  exists s'. split; [exact Hrun|]. split; [exact Hl'|].
  intros ->. destruct Hl as (HD & _). simpl in HD.
  assert (DLinkedList.removeHead d s = Ret d s) as Hnoop.
  { unfold DLinkedList.removeHead. step. done. }
  congruence.
Qed.

Lemma removeHead_drops_first_witness :
  ∃ s',
    DLinkedList.removeHead 0 store_123 = Ret 0 s'
    ∧ is_list s' 0 (tail cells_123)
    ∧ (cells_123 = [] → s' = store_123).
Proof. apply (removeHead_drops_first store_123 0 cells_123). exact is_list_123. Defined.

(** X7. [removeTail] drops the last node of a correctly linked list and
    keeps the others in order; on a list of one node the list becomes empty,
    on the empty list nothing changes. *)
Theorem removeTail_drops_last (s : Store) (d : loc) (cs : list (loc * value)) :
  is_list s d cs →
  ∃ s',
    DLinkedList.removeTail d s = Ret d s'
    ∧ is_list s' d (removelast cs)
    ∧ (cs = [] → s' = s).
Proof.
  intros Hl. destruct (removeTail_spec s d cs Hl) as (s' & Hrun & Hl' & _).
  exists s'. split; [exact Hrun|]. split; [exact Hl'|].
  intros ->. destruct Hl as (HD & _). simpl in HD.
  assert (DLinkedList.removeTail d s = Ret d s) as Hnoop.
  { unfold DLinkedList.removeTail. step. done. }
  congruence.
Qed.

Lemma removeTail_drops_last_witness :
  ∃ s',
    DLinkedList.removeTail 0 store_123 = Ret 0 s'
    ∧ is_list s' 0 (removelast cells_123)
    ∧ (cells_123 = [] → s' = store_123).
Proof. apply (removeTail_drops_last store_123 0 cells_123). exact is_list_123. Defined.

(** X8. [remove] takes out the first node, from the head, whose clone
    satisfies the predicate, and only that one, provided that node is not
    the tail of a list of two or more: the other nodes keep their order. *)
Theorem remove_first_match
    (s : Store) (d : loc) (xs : list (loc * value)) (c : loc * value)
    (ys : list (loc * value)) (predicate : value → bool) :
  is_list s d (xs ++ c :: ys) →
  Forall (λ v, predicate v = false) (clone_all xs.*2 (next_ref s)).1 →
  predicate (clonePlain_at c.2 (clone_all xs.*2 (next_ref s)).2).1 = true →
  ys ≠ [] ∨ xs = [] →
  ∃ s', DLinkedList.remove d predicate s = Ret d s' ∧ is_list s' d (xs ++ ys).
Proof.
  intros Hl Hxs Hc Hcase. rewrite (remove_run _ _ _ _ Hl).
  rewrite (find_cell_first _ _ _ _ _ Hxs Hc). cbn [fst snd].
  apply (is_list_next_ref _ _ _ (clonePlain_at c.2 (clone_all xs.*2 (next_ref s)).2).2) in Hl.
  destruct (removeNode_spec _ _ _ _ _ Hl Hcase) as (s' & Hrun & Hl' & _).
  by exists s'.
Qed.

Lemma remove_first_match_witness :
  ∃ s', DLinkedList.remove 0 (at_least 2) store_123 = Ret 0 s'
        ∧ is_list s' 0 ([(0, VNum 1)] ++ [(2, VNum 3)]).
Proof.
  apply (remove_first_match store_123 0 [(0, VNum 1)] (1, VNum 2) [(2, VNum 3)]).
  - exact is_list_123.
  - by repeat constructor.
  - reflexivity.
  - by left.
Defined.

(** X9. Insertion at an end followed by removal at the same end gives the
    list back: after [append] then [removeTail], and after [prepend] then
    [removeHead], the list has the cells it had. *)
Theorem insert_then_remove_at_end
    (s : Store) (d : loc) (cs : list (loc * value)) (data : value) :
  is_list s d cs →
  (∃ s', (let! l := DLinkedList.append d data in DLinkedList.removeTail l) s = Ret d s'
         ∧ is_list s' d cs)
  ∧ (∃ s', (let! l := DLinkedList.prepend d data in DLinkedList.removeHead l) s = Ret d s'
           ∧ is_list s' d cs).
Proof.
  intros Hl. split.
  - destruct (append_spec s d cs data Hl) as (s1 & Hrun1 & Hl1 & _).
    destruct (removeTail_spec _ _ _ Hl1) as (s2 & Hrun2 & Hl2 & _).
    rewrite removelast_last in Hl2. exists s2. split; [|done].
    by rewrite (bind_run _ _ _ _ _ Hrun1).
  - destruct (prepend_spec s d cs data Hl) as (s1 & Hrun1 & Hl1 & _).
    destruct (removeHead_spec _ _ _ Hl1) as (s2 & Hrun2 & Hl2 & _).
    exists s2. split; [|done]. by rewrite (bind_run _ _ _ _ _ Hrun1).
Qed.

Lemma insert_then_remove_at_end_witness :
  (∃ s', (let! l := DLinkedList.append 0 obj_a in DLinkedList.removeTail l) store_123
         = Ret 0 s'
         ∧ is_list s' 0 cells_123)
  ∧ (∃ s', (let! l := DLinkedList.prepend 0 obj_a in DLinkedList.removeHead l) store_123
           = Ret 0 s'
           ∧ is_list s' 0 cells_123).
Proof. apply (insert_then_remove_at_end store_123 0 cells_123 obj_a). exact is_list_123. Defined.

(** X10. [clear] empties a list whatever it holds, and the list can be
    filled again: after [clear] then [fromArray(arr)] it holds the clones of
    [arr] in order and nothing else, with [length] the length of [arr]. *)
Theorem clear_then_fromArray
    (s : Store) (d : loc) (cs : list (loc * value)) (arr : list value) :
  is_list s d cs →
  ∃ s0 s' cs',
    DLinkedList.clear d s = Ret d s0
    ∧ is_list s0 d []
    ∧ DLinkedList.toArray d s0 = Ret [] s0
    ∧ DLinkedList.fromArray d arr s0 = Ret d s'
    ∧ is_list s' d cs'
    ∧ cs'.*2 = (clone_all arr (next_ref s)).1
    ∧ ListObj.length <$> dlls s' !! d = Some (Z.of_nat (length arr)).
Proof.
  intros Hl. destruct (clear_spec s d cs Hl) as (s0 & Hrun0 & Hl0 & Hn0 & _).
  destruct (fromArray_spec s0 d [] arr Hl0) as (s' & Hrun & Hl' & _).
  exists s0, s'. eexists. split; [exact Hrun0|]. split; [exact Hl0|]. split.
  { rewrite (toArray_spec _ _ _ Hl0). simpl. by destruct s0. }
  split; [exact Hrun|]. split; [exact Hl'|]. split.
  - simpl. by rewrite appended_snd, Hn0.
  - destruct Hl' as (-> & _). simpl. by rewrite appended_length.
Qed.

Lemma clear_then_fromArray_witness :
  ∃ s0 s' cs',
    DLinkedList.clear 0 store_123 = Ret 0 s0
    ∧ is_list s0 0 []
    ∧ DLinkedList.toArray 0 s0 = Ret [] s0
    ∧ DLinkedList.fromArray 0 [VNum 7; obj_a] s0 = Ret 0 s'
    ∧ is_list s' 0 cs'
    ∧ cs'.*2 = (clone_all [VNum 7; obj_a] (next_ref store_123)).1
    ∧ ListObj.length <$> dlls s' !! 0 = Some (Z.of_nat (length [VNum 7; obj_a])).
Proof.
  apply (clear_then_fromArray store_123 0 cells_123 [VNum 7; obj_a]). exact is_list_123.
Defined.

(** X11. On every correctly linked list of two or more nodes, [removeNode]
    on the tail node throws a [TypeError]: the node before it has lost its
    [next], the list object still has the old [tail_node] and [length], and
    the [length] invariant no longer holds. *)
Theorem removeNode_tail_always_throws
    (s : Store) (d : loc) (xs : list (loc * value)) (a c : loc * value) :
  is_list s d (xs ++ [a; c]) →
  ∃ s',
    (let! t := DLinkedList.tailNode d in DLinkedList.removeNode d t) s = Throw TypeError s'
    ∧ dlls s' = dlls s
    ∧ NodeObj.next <$> nodes s' !! a.1 = Some None
    ∧ ¬ length_invariant s' d.
Proof.
  intros Hl.
  pose proof (tailNode_run _ _ _ Hl) as Htail.
  rewrite last_of_app in Htail. cbn [last_of foldl] in Htail.
  rewrite (bind_run _ _ _ _ _ Htail).
  destruct (removeNode_tail_breaks _ _ _ _ _ Hl) as (s' & Hrun & Hbroken).
  exists s'. split; [exact Hrun|].
  rewrite (removeNode_tail _ _ _ _ _ Hl) in Hrun. injection Hrun as <-.
  split; [done|]. split; [|done]. cbn [nodes].
  destruct Hl as (_ & Hseg & _). apply seg_middle in Hseg.
  by erewrite lookup_insert_same.
Qed.

Lemma removeNode_tail_always_throws_witness :
  ∃ s',
    (let! t := DLinkedList.tailNode 0 in DLinkedList.removeNode 0 t) store_123
    = Throw TypeError s'
    ∧ dlls s' = dlls store_123
    ∧ NodeObj.next <$> nodes s' !! 1 = Some None
    ∧ ¬ length_invariant s' 0.
Proof.
  apply (removeNode_tail_always_throws store_123 0 [(0, VNum 1)] (1, VNum 2) (2, VNum 3)).
  exact is_list_123.
Defined.

(** What [removeNode] does to a node that has a [prev] and a [next], in any
    store. *)
Lemma removeNode_linked_run N D n d l pa ny dc da na pa' dy ny' py o :
  N !! l = Some (NodeObj.mk dc (Some ny) (Some pa)) →
  N !! pa = Some (NodeObj.mk da na pa') →
  N !! ny = Some (NodeObj.mk dy ny' py) →
  pa ≠ l → pa ≠ ny →
  D !! d = Some o →
  DLinkedList.removeNode d (Some l) (mkStore N D n) =
  Ret d (mkStore (<[ny := NodeObj.mk dy ny' (Some pa)]> (<[pa := NodeObj.mk da (Some ny) pa']> N))
           (<[d := ListObj.mk (ListObj.head_node o) (ListObj.tail_node o)
                     (ListObj.length o - 1)]> D)
           n).
Proof.
  intros Hl Hpa Hny Hne1 Hne2 HD. unfold DLinkedList.removeNode.
  repeat step. finish.
Qed.

(** X12. [removeNode] is not idempotent on a node it has removed: called
    again with an interior node that was just removed, it returns without
    throwing, leaves every node as it is and takes 1 off [length] once
    more, so that [length] no longer counts the nodes of the list. *)
Theorem removeNode_twice_miscounts
    (s : Store) (d : loc) (xs : list (loc * value)) (a c y : loc * value)
    (ys : list (loc * value)) :
  is_list s d (xs ++ a :: c :: y :: ys) →
  ∃ s1 s2,
    DLinkedList.removeNode d (Some c.1) s = Ret d s1
    ∧ is_list s1 d (xs ++ a :: y :: ys)
    ∧ DLinkedList.removeNode d (Some c.1) s1 = Ret d s2
    ∧ nodes s2 = nodes s1
    ∧ ListObj.length <$> dlls s2 !! d
      = Some (Z.of_nat (length (xs ++ a :: y :: ys)) - 1)%Z
    ∧ ¬ length_invariant s2 d.
Proof.
  intros Hl.
  destruct (removeNode_interior _ _ _ _ _ _ _ Hl) as (s1 & Hrun1 & Hl1 & _).
  destruct s as [N D n]. pose proof Hl as (HD & Hseg & Hnd). cbn [nodes dlls] in *.
  pose proof (seg_middle _ _ _ _ _ _ Hseg) as Ha. cbn [first_of] in Ha.
  pose proof (seg_middle_next _ _ _ _ _ _ _ Hseg) as Hc. cbn [first_of] in Hc.
  pose proof (seg_middle_next N None (xs ++ [a]) c y ys None) as Hy.
  rewrite <- app_assoc in Hy. specialize (Hy Hseg).
  pose proof (NoDup_middle_ne _ _ _ _ Hnd) as Hac.
  pose proof (NoDup_middle_ne (xs ++ [a]) c y ys) as Hcy.
  rewrite <- app_assoc in Hcy. specialize (Hcy Hnd).
  assert (a.1 ≠ y.1) as Hay.
  { replace (xs ++ a :: c :: y :: ys) with ((xs ++ [a]) ++ c :: y :: ys) in Hnd
      by (by rewrite <- app_assoc).
    apply NoDup_delete_middle in Hnd as [Hnd _].
    apply NoDup_split in Hnd as (_ & _ & _ & Hd2).
    intros E. apply (Hd2 y.1); [left|]. rewrite <- E, fmap_app. apply elem_of_app. right. left. }
  pose proof (removeNode_linked_run _ _ n _ _ _ _ _ _ _ _ _ _ _ _ Hc Ha Hy Hac Hay HD) as Hrun1'.
  rewrite Hrun1' in Hrun1. injection Hrun1 as <-. cbn [ListObj.head_node ListObj.tail_node ListObj.length] in *.
  remember (<[y.1 := _]> (<[a.1 := _]> N)) as N1 eqn:EN1.
  assert (N1 !! c.1 = Some (NodeObj.mk c.2 (Some y.1) (Some a.1))) as Hc1.
  { rewrite EN1. by do 2 (apply lookup_insert_other; [done|]). }
  assert (N1 !! a.1 = Some (NodeObj.mk a.2 (Some y.1) (last_of None xs))) as Ha1.
  { rewrite EN1. apply lookup_insert_other; [done|]. by eapply lookup_insert_same. }
  assert (N1 !! y.1 = Some (NodeObj.mk y.2 (first_of ys None) (Some a.1))) as Hy1.
  { rewrite EN1. eapply lookup_insert_same. by apply lookup_insert_other. }
  pose proof Hl1 as (HD1 & Hseg1 & Hnd1). cbn [nodes dlls] in HD1, Hseg1.
  pose proof (removeNode_linked_run _ _ n _ _ _ _ _ _ _ _ _ _ _ _ Hc1 Ha1 Hy1 Hac Hay HD1)
    as Hrun2.
  repeat match type of Hrun2 with
    | context [@insert ?K ?V ?L ?I ?i ?v N1] =>
        replace (@insert K V L I i v N1) with N1 in Hrun2
          by (symmetry; apply list_insert_id; first [exact Ha1|exact Hy1])
    end.
  cbn [ListObj.head_node ListObj.tail_node ListObj.length] in Hrun2.
  eexists _, _. split; [exact Hrun1'|]. split; [exact Hl1|]. split; [exact Hrun2|].
  cbn [nodes dlls]. split; [done|]. split.
  { by erewrite lookup_insert_same. }
  intros (o & Ho & (k & Hk & Hnext & _) & _). cbn [nodes dlls] in *.
  erewrite lookup_insert_same in Ho by exact HD1. injection Ho as <-.
  cbn [ListObj.length ListObj.head_node] in *.
  erewrite count_next_seg in Hnext; [|exact Hseg1|by eapply seg_length].
  injection Hnext as <-. lia.
Qed.

Lemma removeNode_twice_miscounts_witness :
  ∃ s1 s2,
    DLinkedList.removeNode 0 (Some 1) store_123 = Ret 0 s1
    ∧ is_list s1 0 ([] ++ (0, VNum 1) :: (2, VNum 3) :: [])
    ∧ DLinkedList.removeNode 0 (Some 1) s1 = Ret 0 s2
    ∧ nodes s2 = nodes s1
    ∧ ListObj.length <$> dlls s2 !! 0
      = Some (Z.of_nat (length ([] ++ (0, VNum 1) :: (2, VNum 3) :: [])) - 1)%Z
    ∧ ¬ length_invariant s2 0.
Proof.
  apply (removeNode_twice_miscounts store_123 0 [] (0, VNum 1) (1, VNum 2) (2, VNum 3) []).
  exact is_list_123.
Defined.

(** ** Search and traversal *)

Lemma find_run s d xs c ys predicate :
  is_list s d (xs ++ c :: ys) →
  Forall (λ v, predicate v = false) (clone_all xs.*2 (next_ref s)).1 →
  predicate (clonePlain_at c.2 (clone_all xs.*2 (next_ref s)).2).1 = true →
  DLinkedList.find d predicate s =
  Ret (clonePlain_at c.2 (clonePlain_at c.2 (clone_all xs.*2 (next_ref s)).2).2).1
      (mkStore (nodes s) (dlls s)
         (clonePlain_at c.2 (clonePlain_at c.2 (clone_all xs.*2 (next_ref s)).2).2).2).
Proof.
  intros Hl Hxs Hc.
  pose proof (findNode_spec _ _ _ predicate Hl) as Hfind.
  rewrite (find_cell_first _ _ _ _ _ Hxs Hc) in Hfind. cbn [fst snd] in Hfind.
  destruct Hl as (_ & Hseg & _). apply seg_middle in Hseg.
  unfold DLinkedList.find. rewrite (bind_run _ _ _ _ _ Hfind).
  by erewrite getData_run by exact Hseg.
Qed.

(** X13. [findNode] returns the first node, from the head, whose clone
    satisfies the predicate and [find] a clone of its payload; with a
    predicate that no clone satisfies they return [null]. Neither changes a
    node or the list. *)
Theorem find_first_match
    (s : Store) (d : loc) (xs : list (loc * value)) (c : loc * value)
    (ys : list (loc * value)) (predicate : value → bool) :
  is_list s d (xs ++ c :: ys) →
  Forall (λ v, predicate v = false) (clone_all xs.*2 (next_ref s)).1 →
  predicate (clonePlain_at c.2 (clone_all xs.*2 (next_ref s)).2).1 = true →
  (∃ s1 v s2,
     DLinkedList.findNode d predicate s = Ret (Some c.1) s1
     ∧ nodes s1 = nodes s ∧ dlls s1 = dlls s
     ∧ DLinkedList.find d predicate s = Ret v s2
     ∧ struct_eq v c.2
     ∧ nodes s2 = nodes s ∧ dlls s2 = dlls s)
  ∧ (∀ other : value → bool,
       Forall (λ v, other v = false) (clone_all (xs ++ c :: ys).*2 (next_ref s)).1 →
       ∃ s1, DLinkedList.findNode d other s = Ret None s1
             ∧ DLinkedList.find d other s = Ret VNull s1
             ∧ nodes s1 = nodes s ∧ dlls s1 = dlls s).
Proof.
  intros Hl Hxs Hc. split.
  - pose proof (findNode_spec _ _ _ predicate Hl) as Hfind.
    rewrite (find_cell_first _ _ _ _ _ Hxs Hc) in Hfind. cbn [fst snd] in Hfind.
    eexists _, _, _. split; [exact Hfind|]. split; [done|]. split; [done|].
    split; [eapply find_run; eassumption|]. split; [apply clonePlain_at_shape|done].
  - intros other Hnone%find_cell_None.
    pose proof (findNode_spec _ _ _ other Hl) as Hfind. rewrite Hnone in Hfind.
    eexists. split; [exact Hfind|]. split; [|done].
    unfold DLinkedList.find. by rewrite (bind_run _ _ _ _ _ Hfind).
Qed.

Lemma find_first_match_witness :
  (∃ s1 v s2,
     DLinkedList.findNode 0 (at_least 2) store_123 = Ret (Some 1) s1
     ∧ nodes s1 = nodes store_123 ∧ dlls s1 = dlls store_123
     ∧ DLinkedList.find 0 (at_least 2) store_123 = Ret v s2
     ∧ struct_eq v (VNum 2)
     ∧ nodes s2 = nodes store_123 ∧ dlls s2 = dlls store_123)
  ∧ (∀ other : value → bool,
       Forall (λ v, other v = false)
         (clone_all ([(0, VNum 1)] ++ (1, VNum 2) :: [(2, VNum 3)]).*2
            (next_ref store_123)).1 →
       ∃ s1, DLinkedList.findNode 0 other store_123 = Ret None s1
             ∧ DLinkedList.find 0 other store_123 = Ret VNull s1
             ∧ nodes s1 = nodes store_123 ∧ dlls s1 = dlls store_123).
Proof.
  apply (find_first_match store_123 0 [(0, VNum 1)] (1, VNum 2) [(2, VNum 3)] (at_least 2)).
  - exact is_list_123.
  - by repeat constructor.
  - reflexivity.
Defined.

Lemma clone_all_snoc_last vs v n :
  last (clone_all (vs ++ [v]) n).1 = Some (clonePlain_at v (clone_all vs n).2).1.
Proof.
  rewrite clone_all_app. cbn [fst clone_all].
  destruct (clonePlain_at v (clone_all vs n).2) as [v' n']. simpl. apply last_snoc.
Qed.

(** X14. [toArray] returns as many elements as [length] says, changes no
    node and no list object, and can be called again: the second result is
    element-wise structurally equal to the first. *)
Theorem toArray_restartable (s : Store) (d : loc) (cs : list (loc * value)) :
  is_list s d cs →
  ∃ arr s1 arr' s2,
    DLinkedList.toArray d s = Ret arr s1
    ∧ Forall2 struct_eq arr cs.*2
    ∧ ListObj.length <$> dlls s !! d = Some (Z.of_nat (length arr))
    ∧ nodes s1 = nodes s ∧ dlls s1 = dlls s
    ∧ DLinkedList.toArray d s1 = Ret arr' s2
    ∧ Forall2 struct_eq arr' arr
    ∧ nodes s2 = nodes s ∧ dlls s2 = dlls s.
Proof.
  intros Hl. eexists _, _, _, _.
  split; [by apply toArray_spec|]. split; [apply clone_all_shape|]. split.
  { destruct Hl as (-> & _). simpl. by rewrite clone_all_length, length_fmap. }
  split; [done|]. split; [done|].
  split; [by apply toArray_spec, is_list_next_ref|]. split; [|done].
  eapply Forall2_struct_eq_trans; [apply clone_all_shape|].
  apply Forall2_struct_eq_sym, clone_all_shape.
Qed.

Lemma toArray_restartable_witness :
  ∃ arr s1 arr' s2,
    DLinkedList.toArray 0 store_obj = Ret arr s1
    ∧ Forall2 struct_eq arr cells_obj.*2
    ∧ ListObj.length <$> dlls store_obj !! 0 = Some (Z.of_nat (length arr))
    ∧ nodes s1 = nodes store_obj ∧ dlls s1 = dlls store_obj
    ∧ DLinkedList.toArray 0 s1 = Ret arr' s2
    ∧ Forall2 struct_eq arr' arr
    ∧ nodes s2 = nodes store_obj ∧ dlls s2 = dlls store_obj.
Proof. apply (toArray_restartable store_obj 0 cells_obj). exact is_list_obj. Defined.

(** X15. The accessors agree with [toArray]: [head()] is the first element
    of [toArray()] and [tail()] is structurally equal to the last one, both
    [null] on the empty list; [headNode()] and [tailNode()] are the first
    and the last node, [null] on the empty list. *)
Theorem accessors_agree_with_toArray (s : Store) (d : loc) (cs : list (loc * value)) :
  is_list s d cs →
  ∃ arr s1 h sh t st,
    DLinkedList.toArray d s = Ret arr s1
    ∧ DLinkedList.head d s = Ret h sh
    ∧ h = default VNull (head arr)
    ∧ DLinkedList.tail d s = Ret t st
    ∧ struct_eq t (default VNull (last arr))
    ∧ DLinkedList.headNode d s = Ret (head cs.*1) s
    ∧ DLinkedList.tailNode d s = Ret (last cs.*1) s.
Proof.
  intros Hl. pose proof (toArray_spec _ _ _ Hl) as Harr.
  pose proof (headNode_run _ _ _ Hl) as Hhn. pose proof (tailNode_run _ _ _ Hl) as Htn.
  destruct Hl as (HD & Hseg & _).
  destruct cs as [|c cs _] using rev_ind.
  - simpl in *. eexists _, _, VNull, s, VNull, s. split; [exact Harr|].
    split; [unfold DLinkedList.head; step; done|]. split; [done|].
    split; [unfold DLinkedList.tail; step; done|]. done.
  - pose proof (seg_middle _ _ _ _ _ _ Hseg) as Hc.
    assert (∃ c0 cs0, cs ++ [c] = c0 :: cs0) as (c0 & cs0 & E).
    { destruct cs; simpl; eauto. }
    assert (nodes s !! c0.1 = Some (NodeObj.mk c0.2 (first_of cs0 None) None)) as Hc0.
    { rewrite E in Hseg. by destruct Hseg. }
    eexists _, _, _, _, _, _. split; [exact Harr|]. split.
    { unfold DLinkedList.head. step. rewrite E. cbn [first_of].
      by erewrite getData_run by exact Hc0. }
    split.
    { rewrite E, fmap_cons, clone_all_cons. done. }
    split.
    { unfold DLinkedList.tail. step. rewrite last_of_app. cbn [last_of foldl].
      by erewrite getData_run by exact Hc. }
    split.
    { rewrite fmap_app. cbn [fmap list_fmap]. rewrite clone_all_snoc_last. simpl.
      eapply eq_trans; [apply clonePlain_at_shape|]. symmetry. apply clonePlain_at_shape. }
    split.
    { rewrite Hhn, E. done. }
    rewrite Htn, last_of_app, fmap_app. cbn [fmap list_fmap last_of foldl].
    by rewrite last_snoc.
Qed.

Lemma accessors_agree_with_toArray_witness :
  ∃ arr s1 h sh t st,
    DLinkedList.toArray 0 store_obj = Ret arr s1
    ∧ DLinkedList.head 0 store_obj = Ret h sh
    ∧ h = default VNull (head arr)
    ∧ DLinkedList.tail 0 store_obj = Ret t st
    ∧ struct_eq t (default VNull (last arr))
    ∧ DLinkedList.headNode 0 store_obj = Ret (head cells_obj.*1) store_obj
    ∧ DLinkedList.tailNode 0 store_obj = Ret (last cells_obj.*1) store_obj.
Proof. apply (accessors_agree_with_toArray store_obj 0 cells_obj). exact is_list_obj. Defined.

(** A list built by the static [fromArray] while another list exists: the
    new list holds the clones, the other one is untouched. *)
Lemma fromArray_static_beside s d cs vs n :
  is_list s d cs →
  ∃ s' cs',
    DLinkedList.fromArray_static vs (mkStore (nodes s) (dlls s) n) = Ret (length (dlls s)) s'
    ∧ is_list s' (length (dlls s)) cs'
    ∧ cs'.*2 = (clone_all vs n).1
    ∧ next_ref s' = (clone_all vs n).2
    ∧ is_list s' d cs
    ∧ dlls s' !! d = dlls s !! d
    ∧ (∀ l nd, nodes s !! l = Some nd → nodes s' !! l = Some nd).
Proof.
  intros Hl. set (s1 := mkStore (nodes s) (dlls s) n).
  destruct (fromArray_static_spec s1 vs) as (s' & Hrun & Hl' & Hn & Hp & _).
  assert (is_list s1 d cs) as Hl1 by (by apply is_list_next_ref).
  pose proof Hl as (HD & _). apply lookup_lt_Some in HD as Hlt.
  eexists s', _. split; [exact Hrun|]. split; [exact Hl'|].
  split; [by rewrite appended_snd|]. split; [done|].
  split; [|split].
  - eapply is_list_frame; [exact Hl1|exact Hp|simpl; lia|]. intros l _. apply not_elem_of_nil.
  - destruct Hp as [_ HpD]. rewrite HD. apply HpD; [simpl; lia|done].
  - destruct Hp as [HpN _]. intros l nd Hlk. apply HpN; [apply not_elem_of_nil|done].
Qed.

Lemma foldl_filter (predicate : value → bool) (acc l : list value) :
  foldl (λ a x, if predicate x then a ++ [x] else a) acc l = acc ++ List.filter predicate l.
Proof.
  revert acc. induction l as [|x l IH]; intros acc; simpl.
  - by rewrite app_nil_r.
  - rewrite IH. destruct (predicate x); [|done]. by rewrite <- app_assoc.
Qed.

Lemma filter_run s d cs predicate :
  is_list s d cs →
  DLinkedList.filter d predicate s =
  DLinkedList.fromArray_static
    (List.filter predicate (clone_all cs.*2 (next_ref s)).1)
    (mkStore (nodes s) (dlls s) (clone_all cs.*2 (next_ref s)).2).
Proof.
  intros Hl. pose proof (is_list_fuel _ _ _ Hl) as Hfuel.
  destruct Hl as (HD & Hseg & _).
  unfold DLinkedList.filter. do 2 step.
  etrans; [eapply bind_run|].
  { erewrite (while_next _ (λ x a, Continue (if predicate x then a ++ [x] else a)));
      [|intros|exact Hseg|exact Hfuel].
    - erewrite (walk_total _ (λ x a, if predicate x then a ++ [x] else a)); [|done].
      simpl. rewrite foldl_filter. simpl. reflexivity.
    - apply bind_ext. intros x s'. by destruct (predicate x). }
  done.
Qed.

Lemma Forall2_struct_eq_refl xs : Forall2 struct_eq xs xs.
Proof. by apply Forall_Forall2_diag, Forall_true. Qed.

Lemma filter_scalars (predicate : value → bool) vs :
  Forall (λ v, isPlainObject v || isArray v = false) vs →
  Forall (λ v, isPlainObject v || isArray v = false) (List.filter predicate vs).
Proof.
  induction 1 as [|v vs Hv _ IH]; simpl; [constructor|].
  destruct (predicate v); [by constructor|done].
Qed.

(** X16. [filter] returns a new list holding, in order, the elements of
    [toArray()] that satisfy the predicate (structurally equal clones of
    them; the very values when the payloads are scalars), and leaves the
    list it is called on as it was. *)
Theorem filter_keeps_matching
    (s : Store) (d : loc) (cs : list (loc * value)) (predicate : value → bool) :
  is_list s d cs →
  ∃ d' s' orig s1 out s2,
    DLinkedList.filter d predicate s = Ret d' s'
    ∧ d' ≠ d
    ∧ DLinkedList.toArray d s = Ret orig s1
    ∧ DLinkedList.toArray d' s' = Ret out s2
    ∧ Forall2 struct_eq out (List.filter predicate orig)
    ∧ (Forall (λ v, isPlainObject v || isArray v = false) cs.*2 →
       out = List.filter predicate orig)
    ∧ ListObj.length <$> dlls s' !! d' = Some (Z.of_nat (length (List.filter predicate orig)))
    ∧ is_list s' d cs
    ∧ dlls s' !! d = dlls s !! d.
Proof.
  intros Hl. rewrite (filter_run _ _ _ _ Hl).
  destruct (fromArray_static_beside s d cs
              (List.filter predicate (clone_all cs.*2 (next_ref s)).1)
              (clone_all cs.*2 (next_ref s)).2 Hl)
    as (s' & cs' & Hrun & Hl' & Hcs' & Hn' & Hkeep & HD & _).
  pose proof Hl as (HDl & _). apply lookup_lt_Some in HDl.
  eexists _, s', _, _, _, _. split; [exact Hrun|]. split; [lia|].
  split; [by apply toArray_spec|]. split; [by apply toArray_spec|].
  rewrite Hcs', Hn'. split; [|split; [|split; [|done]]].
  - eapply Forall2_struct_eq_trans; apply clone_all_shape.
  - intros Hsc. rewrite (clone_all_scalars cs.*2) by done. cbn [fst snd].
    repeat (rewrite (clone_all_scalars (List.filter predicate cs.*2))
              by (by apply filter_scalars); cbn [fst snd]).
    done.
  - destruct Hl' as (-> & _). cbn [fmap option_fmap option_map ListObj.length].
    by rewrite <- (length_fmap snd cs'), Hcs', clone_all_length.
Qed.

Lemma filter_keeps_matching_witness :
  ∃ d' s' orig s1 out s2,
    DLinkedList.filter 0 (at_least 2) store_123 = Ret d' s'
    ∧ d' ≠ 0
    ∧ DLinkedList.toArray 0 store_123 = Ret orig s1
    ∧ DLinkedList.toArray d' s' = Ret out s2
    ∧ Forall2 struct_eq out (List.filter (at_least 2) orig)
    ∧ (Forall (λ v, isPlainObject v || isArray v = false) cells_123.*2 →
       out = List.filter (at_least 2) orig)
    ∧ ListObj.length <$> dlls s' !! d'
      = Some (Z.of_nat (length (List.filter (at_least 2) orig)))
    ∧ is_list s' 0 cells_123
    ∧ dlls s' !! 0 = dlls store_123 !! 0.
Proof. apply (filter_keeps_matching store_123 0 cells_123 (at_least 2)). exact is_list_123. Defined.

(** X17. [each] calls the iteratee once on every element of [toArray()], in
    that order, and returns the list; [eachRight] does so from the tail, on
    structurally equal clones (the very values when the payloads are
    scalars). Neither changes a node or the list. *)
Theorem each_visits_in_order {E : Type}
    (s : Store) (d : loc) (cs : list (loc * value)) (iteratee : value → E → E) (env : E) :
  is_list s d cs →
  ∃ orig s1 seen s2,
    DLinkedList.toArray d s = Ret orig s1
    ∧ DLinkedList.each d iteratee env s = Ret (d, foldl (λ e v, iteratee v e) env orig) s1
    ∧ DLinkedList.eachRight d iteratee env s = Ret (d, foldl (λ e v, iteratee v e) env seen) s2
    ∧ Forall2 struct_eq seen (reverse orig)
    ∧ (Forall (λ v, isPlainObject v || isArray v = false) cs.*2 → seen = reverse orig)
    ∧ nodes s1 = nodes s ∧ dlls s1 = dlls s ∧ nodes s2 = nodes s ∧ dlls s2 = dlls s.
Proof.
  intros Hl. pose proof (is_list_fuel _ _ _ Hl) as Hfuel.
  pose proof (toArray_spec _ _ _ Hl) as Harr.
  destruct Hl as (HD & Hseg & _).
  eexists _, _, (clone_all (reverse cs.*2) (next_ref s)).1, _. split; [exact Harr|]. split.
  { unfold DLinkedList.each. do 2 step.
    etrans; [eapply bind_run|].
    { erewrite (while_next _ (λ x e, Continue (iteratee x e))); [|done|exact Hseg|exact Hfuel].
      erewrite (walk_total _ iteratee); [|done]. reflexivity. }
    done. }
  split.
  { unfold DLinkedList.eachRight. do 2 step.
    etrans; [eapply bind_run|].
    { erewrite (while_prev _ (λ x e, Continue (iteratee x e))); [|done|exact Hseg|exact Hfuel].
      erewrite (walk_total _ iteratee); [|done]. reflexivity. }
    done. }
  split.
  { eapply Forall2_struct_eq_trans; [apply clone_all_shape|].
    apply Forall2_struct_eq_reverse, Forall2_struct_eq_sym, clone_all_shape. }
  split; [|done].
  intros Hsc. rewrite (clone_all_scalars cs.*2) by done.
  by rewrite (clone_all_scalars (reverse cs.*2)) by (by apply Forall_reverse).
Qed.

Lemma each_visits_in_order_witness :
  ∃ orig s1 seen s2,
    DLinkedList.toArray 0 store_123 = Ret orig s1
    ∧ DLinkedList.each 0 push [] store_123 = Ret (0, foldl (λ e v, push v e) [] orig) s1
    ∧ DLinkedList.eachRight 0 push [] store_123
      = Ret (0, foldl (λ e v, push v e) [] seen) s2
    ∧ Forall2 struct_eq seen (reverse orig)
    ∧ (Forall (λ v, isPlainObject v || isArray v = false) cells_123.*2 →
       seen = reverse orig)
    ∧ nodes s1 = nodes store_123 ∧ dlls s1 = dlls store_123
    ∧ nodes s2 = nodes store_123 ∧ dlls s2 = dlls store_123.
Proof. apply (each_visits_in_order store_123 0 cells_123 push []). exact is_list_123. Defined.

(** X18. [reduce] is the left fold of the iteratee over [toArray()], from
    the initial accumulator; [reduceRight] is the same fold over the
    elements from the tail (structurally equal clones; the very values when
    the payloads are scalars). On the empty list both return the initial
    accumulator. *)
Theorem reduce_is_fold {V : Type}
    (s : Store) (d : loc) (cs : list (loc * value)) (iteratee : value → V → V) (init : V) :
  is_list s d cs →
  ∃ orig s1 seen s2,
    DLinkedList.toArray d s = Ret orig s1
    ∧ DLinkedList.reduce d iteratee init s = Ret (foldl (λ a v, iteratee v a) init orig) s1
    ∧ DLinkedList.reduceRight d iteratee init s
      = Ret (foldl (λ a v, iteratee v a) init seen) s2
    ∧ Forall2 struct_eq seen (reverse orig)
    ∧ (Forall (λ v, isPlainObject v || isArray v = false) cs.*2 → seen = reverse orig)
    ∧ (cs = [] → DLinkedList.reduce d iteratee init s = Ret init s1
                 ∧ DLinkedList.reduceRight d iteratee init s = Ret init s2).
Proof.
  intros Hl. pose proof (toArray_spec _ _ _ Hl) as Harr.
  eexists _, _, (clone_all (reverse cs.*2) (next_ref s)).1, _.
  split; [exact Harr|]. split; [by apply reduce_spec|]. split; [by apply reduceRight_spec|].
  split.
  { eapply Forall2_struct_eq_trans; [apply clone_all_shape|].
    apply Forall2_struct_eq_reverse, Forall2_struct_eq_sym, clone_all_shape. }
  split.
  { intros Hsc. rewrite (clone_all_scalars cs.*2) by done.
    by rewrite (clone_all_scalars (reverse cs.*2)) by (by apply Forall_reverse). }
  intros ->. split.
  - by rewrite (reduce_spec _ _ _ _ _ Hl).
  - by rewrite (reduceRight_spec _ _ _ _ _ Hl).
Qed.

Lemma reduce_is_fold_witness :
  ∃ orig s1 seen s2,
    DLinkedList.toArray 0 store_123 = Ret orig s1
    ∧ DLinkedList.reduce 0 add_num 0%Z store_123
      = Ret (foldl (λ a v, add_num v a) 0%Z orig) s1
    ∧ DLinkedList.reduceRight 0 add_num 0%Z store_123
      = Ret (foldl (λ a v, add_num v a) 0%Z seen) s2
    ∧ Forall2 struct_eq seen (reverse orig)
    ∧ (Forall (λ v, isPlainObject v || isArray v = false) cells_123.*2 →
       seen = reverse orig)
    ∧ (cells_123 = [] → DLinkedList.reduce 0 add_num 0%Z store_123 = Ret 0%Z s1
                        ∧ DLinkedList.reduceRight 0 add_num 0%Z store_123 = Ret 0%Z s2).
Proof. apply (reduce_is_fold store_123 0 cells_123 add_num 0%Z). exact is_list_123. Defined.

(** ** Transformations *)



(** ** Asynchronous traversals *)

Lemma all_fulfilled_snoc {V} (ps : list (promise V)) vs p v :
  all_fulfilled ps = Some vs → fate_of p = Fulfilled v →
  all_fulfilled (ps ++ [p]) = Some (vs ++ [v]).
Proof.
  revert vs. induction ps as [|q ps IH]; intros vs; simpl.
  - by intros [= <-] ->.
  - destruct (fate_of q); [|done..]. destruct (all_fulfilled ps) as [ws|]; [|done].
    intros [= <-] Hp. by rewrite (IH ws eq_refl Hp).
Qed.

Lemma first_rejection_snoc {V} (ps : list (promise V)) p v :
  first_rejection ps = None → fate_of p = Fulfilled v → first_rejection (ps ++ [p]) = None.
Proof.
  induction ps as [|q ps IH]; simpl.
  - by intros _ ->.
  - destruct (fate_of q).
    + intros H Hp. by apply IH.
    + destruct (first_rejection ps) as [[]|]; [destruct (_ <=? _)|]; done.
    + intros H Hp. by apply IH.
Qed.

(** The dispatch loop when every invocation answers with a value or with a
    promise that is fulfilled: every promise collected is fulfilled, in the
    order of the invocations. *)
Lemma walk_dispatch_fulfilled {V} (iteratee : value → answer V) (g : value → V) vs acc va n :
  (∀ x, iteratee x = Plain (g x)
        ∨ ∃ t, iteratee x = Promised (mkPromise t (Fulfilled (g x)))) →
  all_fulfilled acc = Some va → first_rejection acc = None →
  ∃ ps, walk (λ x results, dispatch (iteratee x) results) vs acc n
        = (Continue ps, (clone_all vs n).2)
        ∧ all_fulfilled ps = Some (va ++ List.map g (clone_all vs n).1)
        ∧ first_rejection ps = None.
Proof.
  intros Hit. revert acc va n. induction vs as [|v vs IH]; intros acc va n Hall Hfr.
  - exists acc. simpl. by rewrite app_nil_r.
  - rewrite clone_all_cons. cbn [walk fst snd List.map].
    destruct (Hit (clonePlain_at v n).1) as [->|[t ->]]; cbn [dispatch].
    + destruct (IH (acc ++ [mkPromise 0 (Fulfilled (g (clonePlain_at v n).1))])
                  (va ++ [g (clonePlain_at v n).1]) (clonePlain_at v n).2)
        as (ps & Hw & Ha & Hf).
      { by apply all_fulfilled_snoc. }
      { by eapply first_rejection_snoc. }
      exists ps. by rewrite <- app_assoc in Ha.
    + destruct (IH (acc ++ [mkPromise t (Fulfilled (g (clonePlain_at v n).1))])
                  (va ++ [g (clonePlain_at v n).1]) (clonePlain_at v n).2)
        as (ps & Hw & Ha & Hf).
      { by apply all_fulfilled_snoc. }
      { by eapply first_rejection_snoc. }
      exists ps. by rewrite <- app_assoc in Ha.
Qed.

Lemma dispatch_fulfilled_settled (iteratee : value → answer value) (g : value → value) vs N D n :
  (∀ x, iteratee x = Plain (g x)
        ∨ ∃ t, iteratee x = Promised (mkPromise t (Fulfilled (g x)))) →
  settled
    (bind (lift (walk (λ x results, dispatch (iteratee x) results) vs [] n).1)
       (λ results,
          let! unwrapped := await (Promise_all results) in
          DLinkedList.fromArray_static unwrapped)
       (mkStore N D (walk (λ x results, dispatch (iteratee x) results) vs [] n).2))
  = settled
      (DLinkedList.fromArray_static (List.map g (clone_all vs n).1)
         (mkStore N D (clone_all vs n).2)).
Proof.
  intros Hit.
  destruct (walk_dispatch_fulfilled iteratee g vs [] [] n Hit eq_refl eq_refl)
    as (ps & -> & Ha & Hf).
  cbn [fst snd app] in *. unfold bind, lift, Promise_all. cbn beta iota.
  rewrite Hf, Ha. done.
Qed.

(** X20. [asyncMap] agrees with [map]: when every invocation of the iteratee
    answers with a value or with a promise that is fulfilled, whenever that
    promise settles, the promise of [asyncMap] is fulfilled with the list
    that [map] builds from the values, in the order of the nodes; the same
    for [asyncMapRight] and [mapRight]. *)
Theorem asyncMap_agrees_with_map
    (s : Store) (d : loc) (cs : list (loc * value))
    (g : value → value) (iteratee : value → answer value) :
  is_list s d cs →
  (∀ x, iteratee x = Plain (g x)
        ∨ ∃ t, iteratee x = Promised (mkPromise t (Fulfilled (g x)))) →
  (∃ d' s', DLinkedList.map d (Some g) s = Ret d' s'
            ∧ DLinkedList.asyncMap d iteratee s = Ret (Fulfilled d') s')
  ∧ (∃ d' s', DLinkedList.mapRight d (Some g) s = Ret d' s'
              ∧ DLinkedList.asyncMapRight d iteratee s = Ret (Fulfilled d') s').
Proof.
  intros Hl Hit. split.
  - rewrite (map_run _ _ _ _ Hl), (asyncMap_run _ _ _ _ Hl).
    rewrite (dispatch_fulfilled_settled _ g) by done. cbn [DLinkedList.mapFn_of].
    destruct (fromArray_static_spec
                (mkStore (nodes s) (dlls s) (clone_all cs.*2 (next_ref s)).2)
                (List.map g (clone_all cs.*2 (next_ref s)).1)) as (s' & -> & _).
    by eexists _, _.
  - rewrite (mapRight_run _ _ _ _ Hl), (asyncMapRight_run _ _ _ _ Hl).
    rewrite (dispatch_fulfilled_settled _ g) by done. cbn [DLinkedList.mapFn_of].
    destruct (fromArray_static_spec
                (mkStore (nodes s) (dlls s) (clone_all (reverse cs.*2) (next_ref s)).2)
                (List.map g (clone_all (reverse cs.*2) (next_ref s)).1)) as (s' & -> & _).
    by eexists _, _.
Qed.

Lemma asyncMap_agrees_with_map_witness :
  (∃ d' s', DLinkedList.map 0 (Some square) store_123 = Ret d' s'
            ∧ DLinkedList.asyncMap 0 square_later store_123 = Ret (Fulfilled d') s')
  ∧ (∃ d' s', DLinkedList.mapRight 0 (Some square) store_123 = Ret d' s'
              ∧ DLinkedList.asyncMapRight 0 square_later store_123 = Ret (Fulfilled d') s').
Proof.
  apply (asyncMap_agrees_with_map store_123 0 cells_123 square square_later).
  - exact is_list_123.
  - intros x. destruct x; first [left; reflexivity|right; eexists; reflexivity].
Defined.

(** A traversal whose body continues on every clone of a prefix goes on with
    the rest, from the fold over the prefix. *)
Lemma walk_prefix {A} (k : value → A → pure_result A) (g : value → A → A) xs ys acc n :
  (∀ x a, x ∈ (clone_all xs n).1 → k x a = Continue (g x a)) →
  walk k (xs ++ ys) acc n
  = walk k ys (foldl (λ a x, g x a) acc (clone_all xs n).1) (clone_all xs n).2.
Proof.
  revert acc n. induction xs as [|x xs IH]; intros acc n Hk; [done|].
  rewrite clone_all_cons in Hk |- *. cbn [app walk fst snd foldl] in *.
  rewrite Hk by constructor.
  apply IH. intros y a Hy. apply Hk. by constructor.
Qed.

(** X21. [asyncReduce] stops at the first invocation that fails: when the
    invocations on the nodes before some node are fulfilled and the one on
    that node throws or answers with a promise that is rejected, the promise
    of [asyncReduce] is rejected with that error, and the data of the nodes
    after it is never read (no clone of it is made); no node and no list
    object changes. *)
Theorem asyncReduce_stops_at_first_failure {V : Type}
    (s : Store) (d : loc) (xs : list (loc * value)) (c : loc * value)
    (ys : list (loc * value))
    (g : value → V → V) (iteratee : value → V → answer V) (init : V) (e : exn) :
  is_list s d (xs ++ c :: ys) →
  (∀ x a, x ∈ (clone_all xs.*2 (next_ref s)).1 →
          iteratee x a = Plain (g x a)
          ∨ ∃ t, iteratee x a = Promised (mkPromise t (Fulfilled (g x a)))) →
  (let x := (clonePlain_at c.2 (clone_all xs.*2 (next_ref s)).2).1 in
   let a := foldl (λ a x, g x a) init (clone_all xs.*2 (next_ref s)).1 in
   iteratee x a = Raises e ∨ ∃ t, iteratee x a = Promised (mkPromise t (Rejected e))) →
  DLinkedList.asyncReduce d iteratee init s
  = Ret (Rejected e)
      (mkStore (nodes s) (dlls s) (clonePlain_at c.2 (clone_all xs.*2 (next_ref s)).2).2).
Proof.
  intros Hl Hxs Hc. rewrite (asyncReduce_run _ _ _ _ _ Hl).
  rewrite fmap_app, fmap_cons.
  rewrite (walk_prefix (λ x a, settle (iteratee x a)) g).
  2:{ intros x a Hx. by destruct (Hxs x a Hx) as [->|[t ->]]. }
  cbn [walk]. cbn zeta in Hc.
  by destruct Hc as [->|[t ->]].
Qed.

Lemma asyncReduce_stops_at_first_failure_witness :
  DLinkedList.asyncReduce 0 add_until_two 0%Z store_123
  = Ret (Rejected (Error "two"))
      (mkStore (nodes store_123) (dlls store_123)
         (clonePlain_at (1, VNum 2).2 (clone_all [(0, VNum 1)].*2 (next_ref store_123)).2).2).
Proof.
  apply (asyncReduce_stops_at_first_failure store_123 0 [(0, VNum 1)] (1, VNum 2)
           [(2, VNum 3)] add_num add_until_two 0%Z (Error "two")).
  - exact is_list_123.
  - intros x a Hx. apply list_elem_of_singleton in Hx. subst x. left. reflexivity.
  - right. exists 1. reflexivity.
Defined.

(** ** Copies on the way in and on the way out *)

Lemma allocated_mono n m v : n ≤ m → allocated n v → allocated m v.
Proof. intros Hle Hv. eapply Forall_impl; [exact Hv|]. simpl. intros; lia. Qed.

Lemma clonePlain_at_allocated v n : allocated n v → allocated (clonePlain_at v n).2 (clonePlain_at v n).1.
Proof.
  intros Hv. destruct (isPlainObject v || isArray v) eqn:E.
  - eapply Forall_impl; [exact (clonePlain_at_fresh v n E)|]. simpl. intros; lia.
  - by rewrite (clonePlain_at_id v n E).
Qed.

(** A payload cloned twice, as by a write followed by a read or by two
    reads: plain objects and arrays are copied each time, any other value
    is passed as it is. *)
Lemma clonePlain_at_twice v n m :
  allocated n v → (clonePlain_at v n).2 ≤ m →
  struct_eq (clonePlain_at v n).1 v
  ∧ struct_eq (clonePlain_at (clonePlain_at v n).1 m).1 v
  ∧ (isPlainObject v || isArray v = true →
     independent (clonePlain_at v n).1 v
     ∧ independent (clonePlain_at (clonePlain_at v n).1 m).1 v
     ∧ independent (clonePlain_at (clonePlain_at v n).1 m).1 (clonePlain_at v n).1)
  ∧ (isPlainObject v || isArray v = false →
     (clonePlain_at v n).1 = v ∧ (clonePlain_at (clonePlain_at v n).1 m).1 = v).
Proof.
  intros Hv Hm. pose proof (clonePlain_at_le v n) as Hle.
  split; [apply clonePlain_at_shape|]. split.
  { eapply eq_trans; apply clonePlain_at_shape. }
  split.
  - intros E.
    assert (isPlainObject (clonePlain_at v n).1 || isArray (clonePlain_at v n).1 = true) as E'
      by (by rewrite clonePlain_at_composite).
    pose proof (clonePlain_at_fresh v n E) as H1.
    pose proof (clonePlain_at_fresh _ m E') as H2.
    split_and!.
    + eapply fresh_independent; [|exact Hv].
      eapply Forall_impl; [exact H1|]. simpl. intros; lia.
    + eapply fresh_independent; [|apply (allocated_mono n m); [lia|exact Hv]].
      eapply Forall_impl; [exact H2|]. simpl. intros; lia.
    + eapply fresh_independent;
        [|apply (allocated_mono (clonePlain_at v n).2 m);
          [exact Hm|by apply clonePlain_at_allocated]].
      eapply Forall_impl; [exact H2|]. simpl. intros; lia.
  - intros E. rewrite (clonePlain_at_id v n E). cbn [fst].
    by rewrite (clonePlain_at_id v m E).
Qed.

(** X22. Reading never hands out the stored payload of a plain object or an
    array: [getData] on a node of the list, hence [head()] on the first node
    and [tail()] on the last, returns a structurally equal copy that shares
    no object with the stored value nor with the copy returned by the next
    call. Any other value (a scalar, a function, a class instance) is
    returned as it is. No node and no list object changes. *)
Theorem getData_returns_a_copy
    (s : Store) (d : loc) (xs : list (loc * value)) (c : loc * value)
    (ys : list (loc * value)) :
  is_list s d (xs ++ c :: ys) →
  allocated (next_ref s) c.2 →
  ∃ v1 s1 v2 s2,
    Node.getData (Some c.1) s = Ret v1 s1
    ∧ Node.getData (Some c.1) s1 = Ret v2 s2
    ∧ struct_eq v1 c.2 ∧ struct_eq v2 c.2
    ∧ (isPlainObject c.2 || isArray c.2 = true →
       independent v1 c.2 ∧ independent v2 c.2 ∧ independent v2 v1)
    ∧ (isPlainObject c.2 || isArray c.2 = false → v1 = c.2 ∧ v2 = c.2)
    ∧ nodes s2 = nodes s ∧ dlls s2 = dlls s
    ∧ (xs = [] → DLinkedList.head d s = Ret v1 s1)
    ∧ (ys = [] → DLinkedList.tail d s = Ret v1 s1).
Proof.
  intros Hl Halloc. destruct Hl as (HD & Hseg & _).
  pose proof (seg_middle _ _ _ _ _ _ Hseg) as Hc.
  pose proof (getData_run s _ _ Hc) as Hrun1. cbn [NodeObj.data] in Hrun1.
  pose proof (getData_run (mkStore (nodes s) (dlls s) (clonePlain_at c.2 (next_ref s)).2)
                _ _ Hc) as Hrun2.
  cbn [NodeObj.data next_ref nodes dlls] in Hrun2.
  pose proof (clonePlain_at_le c.2 (next_ref s)) as Hle1.
  pose proof (clonePlain_at_le c.2 (clonePlain_at c.2 (next_ref s)).2) as Hle2.
  eexists _, _, _, _. split; [exact Hrun1|]. split; [exact Hrun2|].
  split; [apply clonePlain_at_shape|]. split; [apply clonePlain_at_shape|].
  split.
  { intros E.
    pose proof (clonePlain_at_fresh c.2 (next_ref s) E) as H1.
    pose proof (clonePlain_at_fresh c.2 (clonePlain_at c.2 (next_ref s)).2 E) as H2.
    split_and!.
    - eapply fresh_independent; [|exact Halloc].
      eapply Forall_impl; [exact H1|]. simpl. intros; lia.
    - eapply fresh_independent; [|exact Halloc].
      eapply Forall_impl; [exact H2|]. simpl. intros; lia.
    - eapply fresh_independent; [|by apply clonePlain_at_allocated].
      eapply Forall_impl; [exact H2|]. simpl. intros; lia. }
  split.
  { intros E. by rewrite !(clonePlain_at_id c.2 _ E). }
  split; [done|]. split; [done|]. split.
  - intros ->. unfold DLinkedList.head. step. cbn [app first_of]. exact Hrun1.
  - intros ->. unfold DLinkedList.tail. step. rewrite last_of_middle.
    cbn [last_of foldl]. exact Hrun1.
Qed.

Lemma getData_returns_a_copy_witness :
  ∃ v1 s1 v2 s2,
    Node.getData (Some (0, VComp PlainObject 2 [("a", VComp ArrayObject 3 [])]).1) store_obj
    = Ret v1 s1
    ∧ Node.getData (Some (0, VComp PlainObject 2 [("a", VComp ArrayObject 3 [])]).1) s1
      = Ret v2 s2
    ∧ struct_eq v1 (0, VComp PlainObject 2 [("a", VComp ArrayObject 3 [])]).2
    ∧ struct_eq v2 (0, VComp PlainObject 2 [("a", VComp ArrayObject 3 [])]).2
    ∧ (isPlainObject (0, VComp PlainObject 2 [("a", VComp ArrayObject 3 [])]).2
       || isArray (0, VComp PlainObject 2 [("a", VComp ArrayObject 3 [])]).2 = true →
       independent v1 (0, VComp PlainObject 2 [("a", VComp ArrayObject 3 [])]).2
       ∧ independent v2 (0, VComp PlainObject 2 [("a", VComp ArrayObject 3 [])]).2
       ∧ independent v2 v1)
    ∧ (isPlainObject (0, VComp PlainObject 2 [("a", VComp ArrayObject 3 [])]).2
       || isArray (0, VComp PlainObject 2 [("a", VComp ArrayObject 3 [])]).2 = false →
       v1 = (0, VComp PlainObject 2 [("a", VComp ArrayObject 3 [])]).2
       ∧ v2 = (0, VComp PlainObject 2 [("a", VComp ArrayObject 3 [])]).2)
    ∧ nodes s2 = nodes store_obj ∧ dlls s2 = dlls store_obj
    ∧ (@nil (loc * value) = [] → DLinkedList.head 0 store_obj = Ret v1 s1)
    ∧ ([(1, VNum 5)] = [] → DLinkedList.tail 0 store_obj = Ret v1 s1).
Proof.
  apply (getData_returns_a_copy store_obj 0 []
           (0, VComp PlainObject 2 [("a", VComp ArrayObject 3 [])]) [(1, VNum 5)]).
  - exact is_list_obj.
  - repeat constructor.
Defined.

(** X23. Writing never stores the caller's plain object or array: [append]
    and [prepend] store a structurally equal copy that shares no object with
    the data passed, and [tail()] resp. [head()] right after returns one
    more copy, independent of both. Any other value (a scalar, a function,
    a class instance) is stored and returned as it is. *)
Theorem append_stores_a_copy
    (s : Store) (d : loc) (cs : list (loc * value)) (data : value) :
  is_list s d cs →
  allocated (next_ref s) data →
  (∃ s' l w v s'',
     DLinkedList.append d data s = Ret d s'
     ∧ is_list s' d (cs ++ [(l, w)])
     ∧ DLinkedList.tail d s' = Ret v s''
     ∧ struct_eq w data ∧ struct_eq v data
     ∧ (isPlainObject data || isArray data = true →
        independent w data ∧ independent v data ∧ independent v w)
     ∧ (isPlainObject data || isArray data = false → w = data ∧ v = data))
  ∧ (∃ s' l w v s'',
       DLinkedList.prepend d data s = Ret d s'
       ∧ is_list s' d ((l, w) :: cs)
       ∧ DLinkedList.head d s' = Ret v s''
       ∧ struct_eq w data ∧ struct_eq v data
       ∧ (isPlainObject data || isArray data = true →
          independent w data ∧ independent v data ∧ independent v w)
       ∧ (isPlainObject data || isArray data = false → w = data ∧ v = data)).
Proof.
  intros Hl Halloc. split.
  - destruct (append_spec s d cs data Hl) as (s' & Hrun & Hl' & Hn & _).
    destruct (clonePlain_at_twice data (next_ref s) (next_ref s') Halloc) as (E1 & E2 & E3 & E4);
      [by rewrite Hn|].
    eexists s', _, _, _, _. split; [exact Hrun|]. split; [exact Hl'|].
    split; [|by split_and!].
    destruct Hl' as (HD' & Hseg' & _).
    pose proof (seg_middle _ _ _ _ _ _ Hseg') as Hc.
    unfold DLinkedList.tail. step. rewrite last_of_middle. cbn [last_of foldl fst].
    by erewrite getData_run by exact Hc.
  - destruct (prepend_spec s d cs data Hl) as (s' & Hrun & Hl' & Hn & _).
    destruct (clonePlain_at_twice data (next_ref s) (next_ref s') Halloc) as (E1 & E2 & E3 & E4);
      [by rewrite Hn|].
    eexists s', _, _, _, _. split; [exact Hrun|]. split; [exact Hl'|].
    split; [|by split_and!].
    destruct Hl' as (HD' & Hseg' & _).
    pose proof (seg_middle _ _ [] _ _ _ Hseg') as Hc.
    unfold DLinkedList.head. step. cbn [first_of fst].
    by erewrite getData_run by exact Hc.
Qed.

Lemma append_stores_a_copy_witness :
  (∃ s' l w v s'',
     DLinkedList.append 0 obj_a (mkStore (nodes store_123) (dlls store_123) 2) = Ret 0 s'
     ∧ is_list s' 0 (cells_123 ++ [(l, w)])
     ∧ DLinkedList.tail 0 s' = Ret v s''
     ∧ struct_eq w obj_a ∧ struct_eq v obj_a
     ∧ (isPlainObject obj_a || isArray obj_a = true →
        independent w obj_a ∧ independent v obj_a ∧ independent v w)
     ∧ (isPlainObject obj_a || isArray obj_a = false → w = obj_a ∧ v = obj_a))
  ∧ (∃ s' l w v s'',
       DLinkedList.prepend 0 obj_a (mkStore (nodes store_123) (dlls store_123) 2) = Ret 0 s'
       ∧ is_list s' 0 ((l, w) :: cells_123)
       ∧ DLinkedList.head 0 s' = Ret v s''
       ∧ struct_eq w obj_a ∧ struct_eq v obj_a
       ∧ (isPlainObject obj_a || isArray obj_a = true →
          independent w obj_a ∧ independent v obj_a ∧ independent v w)
       ∧ (isPlainObject obj_a || isArray obj_a = false → w = obj_a ∧ v = obj_a)).
Proof.
  apply (append_stores_a_copy (mkStore (nodes store_123) (dlls store_123) 2) 0 cells_123 obj_a).
  - exact (is_list_next_ref _ _ _ 2 is_list_123).
  - repeat constructor.
Defined.

(** ** Construction on a list that holds elements already *)

(** X24. The instance form of [fromArray] does not reset the list: on a list
    that holds elements already it is [append] on each element of the array
    in order, so the elements end up after those the list had, and [length]
    is the sum of the two lengths. *)
Theorem fromArray_extends
    (s : Store) (d : loc) (cs : list (loc * value)) (arr : list value) :
  is_list s d cs →
  ∃ before s0 s' after s2,
    DLinkedList.toArray d s = Ret before s0
    ∧ DLinkedList.fromArray d arr s = Ret d s'
    ∧ DLinkedList.fromArray d arr s = append_each d arr s
    ∧ DLinkedList.toArray d s' = Ret after s2
    ∧ Forall2 struct_eq after (before ++ arr)
    ∧ ListObj.length <$> dlls s' !! d = Some (Z.of_nat (length before + length arr)).
Proof.
  intros Hl. destruct (fromArray_onto s d cs arr Hl) as (s' & cs' & Hrun & Hl' & Hcs' & Hlen).
  eexists _, _, s', _, _. split; [by apply toArray_spec|]. split; [exact Hrun|].
  split; [apply fromArray_append_each|]. split; [by apply toArray_spec|]. split.
  - rewrite fmap_app. eapply Forall2_struct_eq_trans; [apply clone_all_shape|].
    apply Forall2_app.
    + apply Forall2_struct_eq_sym, clone_all_shape.
    + rewrite Hcs'. apply clone_all_shape.
  - by rewrite clone_all_length, length_fmap.
Qed.

Lemma fromArray_extends_witness :
  ∃ before s0 s' after s2,
    DLinkedList.toArray 0 store_123 = Ret before s0
    ∧ DLinkedList.fromArray 0 [VNum 4; obj_a] store_123 = Ret 0 s'
    ∧ DLinkedList.fromArray 0 [VNum 4; obj_a] store_123 = append_each 0 [VNum 4; obj_a] store_123
    ∧ DLinkedList.toArray 0 s' = Ret after s2
    ∧ Forall2 struct_eq after (before ++ [VNum 4; obj_a])
    ∧ ListObj.length <$> dlls s' !! 0
      = Some (Z.of_nat (length before + length [VNum 4; obj_a])).
Proof. apply (fromArray_extends store_123 0 cells_123 [VNum 4; obj_a]). exact is_list_123. Defined.

(** ** Every way a sequence of operations can end *)

(** X25. Take any sequence of [append], [prepend], [insertAfter],
    [insertBefore], [insertAfterNode], [insertBeforeNode], [remove],
    [removeNode], [removeHead], [removeTail], [clear] and [fromArray] on a
    correctly linked list, in which every node handed to [removeNode],
    [insertAfterNode] or [insertBeforeNode] -- looked up on the spot or held
    by the caller -- is [null] or a node of the list at the moment of the
    call. It ends in one of three ways: every operation returns the list,
    which is correctly linked and satisfies the [length] invariant; or an
    insertion throws for want of a match or of a node, the list still being
    correctly linked; or [removeNode] hits the tail of a list of two or
    more and throws a [TypeError], the [length] invariant being broken. No
    such sequence loops for ever, reaches a dangling node or throws
    anything else. *)
Theorem op_sequence_outcomes
    (s : Store) (d : loc) (cs : list (loc * value)) (ops : list op) :
  is_list s d cs →
  own_nodes d ops s = true →
  (∃ s' cs', exec_all d ops s = Ret d s' ∧ is_list s' d cs' ∧ length_invariant s' d)
  ∨ (∃ e s' cs', exec_all d ops s = Throw e s' ∧ e ∈ insertion_errors
                 ∧ is_list s' d cs' ∧ length_invariant s' d)
  ∨ (∃ s', exec_all d ops s = Throw TypeError s' ∧ ¬ length_invariant s' d).
Proof.
  revert s cs. induction ops as [|o ops IH]; intros s cs Hl Hown.
  - left. exists s, cs. split; [done|]. split; [done|]. by eapply is_list_length_invariant.
  - cbn [exec_all own_nodes] in *. apply andb_true_iff in Hown as [Ho Hrest].
    unfold bind.
    destruct (exec_outcome s d cs o Hl Ho)
      as [(s1 & cs1 & Heq & Hl1)|[(e & s1 & Heq & He & Hl1)|(s1 & Heq & Hbr)]];
      rewrite Heq in Hrest |- *.
    + by apply (IH s1 cs1).
    + right. left. exists e, s1, cs. split; [done|]. split; [done|]. split; [done|].
      by eapply is_list_length_invariant.
    + right. right. by exists s1.
Qed.

Lemma op_sequence_outcomes_witness :
  (∃ s' cs',
     exec_all 0 [OpAppend (VNum 4); OpInsertAfterNode (Held (Some 1)) (VNum 9);
                 OpRemoveNode (Held (Some 1)); OpRemoveNode TheTail] store_123 = Ret 0 s'
     ∧ is_list s' 0 cs' ∧ length_invariant s' 0)
  ∨ (∃ e s' cs',
       exec_all 0 [OpAppend (VNum 4); OpInsertAfterNode (Held (Some 1)) (VNum 9);
                   OpRemoveNode (Held (Some 1)); OpRemoveNode TheTail] store_123 = Throw e s'
       ∧ e ∈ insertion_errors ∧ is_list s' 0 cs' ∧ length_invariant s' 0)
  ∨ (∃ s',
       exec_all 0 [OpAppend (VNum 4); OpInsertAfterNode (Held (Some 1)) (VNum 9);
                   OpRemoveNode (Held (Some 1)); OpRemoveNode TheTail] store_123
       = Throw TypeError s'
       ∧ ¬ length_invariant s' 0).
Proof.
  apply (op_sequence_outcomes store_123 0 cells_123
           [OpAppend (VNum 4); OpInsertAfterNode (Held (Some 1)) (VNum 9);
            OpRemoveNode (Held (Some 1)); OpRemoveNode TheTail]).
  - exact is_list_123.
  - reflexivity.
Defined.

(** ** Two lists in one store *)

Lemma preserves_next_ref d ls s n : preserves d ls s (mkStore (nodes s) (dlls s) n).
Proof. by split. Qed.

Lemma removeNode_member_preserves s d xs c ys :
  is_list s d (xs ++ c :: ys) →
  ∃ s', store_after (DLinkedList.removeNode d (Some c.1) s) = Some s'
        ∧ preserves d (xs ++ c :: ys).*1 s s'.
Proof.
  intros Hl. destruct ys as [|y ys]; [destruct xs as [|a xs _] using rev_ind|].
  - destruct (removeNode_spec s d [] c [] Hl) as (s' & -> & _ & _ & Hp & _); [by right|].
    by exists s'.
  - rewrite <- app_assoc in Hl |- *. cbn [app] in *.
    rewrite (removeNode_tail _ _ _ _ _ Hl). eexists. split; [done|].
    split; [|done]. cbn [nodes]. intros l nd Hl' Hlook.
    rewrite list_lookup_insert_ne; [done|].
    intros <-. apply Hl'. rewrite fmap_app, !fmap_cons.
    apply elem_of_app. right. by left.
  - destruct (removeNode_spec s d xs c (y :: ys) Hl) as (s' & -> & _ & _ & Hp & _); [by left|].
    by exists s'.
Qed.

Lemma removeNode_found_preserves s d cs predicate n :
  is_list s d cs →
  ∃ s', store_after (DLinkedList.removeNode d (find_cell predicate cs n).1 s) = Some s'
        ∧ preserves d cs.*1 s s'.
Proof.
  intros Hl. destruct (find_cell predicate cs n).1 as [l|] eqn:E.
  - apply find_cell_Some in E as (xs & c & ys & -> & <- & _).
    exact (removeNode_member_preserves _ _ _ _ _ Hl).
  - exists s. split; [done|]. apply preserves_refl.
Qed.

(** Whatever an operation on the list at [d] does, and however it ends, it
    changes no list object but [d] and no node but those of [d], provided
    the node it is handed, if any, is a node of [d]. *)
Lemma exec_preserves s d cs o :
  is_list s d cs → own_node d o s = true →
  ∃ s', store_after (exec d o s) = Some s' ∧ preserves d cs.*1 s s'.
Proof.
  intros Hl Hown. pose proof (λ l, own_node_member s d cs o l Hl Hown) as Hheld.
  destruct o as [v|v|p v|p v|p|q| | | |q v|q v|arr]; cbn [exec held_node] in *.
  - destruct (append_spec _ _ _ v Hl) as (s' & -> & _ & _ & Hp & _). by exists s'.
  - destruct (prepend_spec _ _ _ v Hl) as (s' & -> & _ & _ & Hp & _). by exists s'.
  - unfold DLinkedList.insertAfter.
    rewrite (bind_run _ _ _ _ _ (findNode_spec _ _ _ p Hl)).
    destruct (find_cell p cs (next_ref s)) as [[l|] n1] eqn:E; cbn [fst snd].
    + assert ((find_cell p cs (next_ref s)).1 = Some l) as Hf by (by rewrite E).
      apply find_cell_Some in Hf as (xs & c & ys & -> & <- & _).
      apply (is_list_next_ref _ _ _ n1) in Hl.
      destruct (insertAfterNode_spec _ _ _ _ _ v Hl) as (s' & -> & _ & _ & Hp & _).
      exists s'. split; [done|].
      eapply preserves_trans; [apply (preserves_next_ref _ _ _ n1)|exact Hp].
    + eexists. split; [done|]. apply preserves_next_ref.
  - unfold DLinkedList.insertBefore.
    rewrite (bind_run _ _ _ _ _ (findNode_spec _ _ _ p Hl)).
    destruct (find_cell p cs (next_ref s)) as [[l|] n1] eqn:E; cbn [fst snd].
    + assert ((find_cell p cs (next_ref s)).1 = Some l) as Hf by (by rewrite E).
      apply find_cell_Some in Hf as (xs & c & ys & -> & <- & _).
      apply (is_list_next_ref _ _ _ n1) in Hl.
      destruct (insertBeforeNode_spec _ _ _ _ _ v Hl) as (s' & -> & _ & _ & Hp & _).
      exists s'. split; [done|].
      eapply preserves_trans; [apply (preserves_next_ref _ _ _ n1)|exact Hp].
    + eexists. split; [done|]. apply preserves_next_ref.
  - rewrite (remove_run _ _ _ _ Hl).
    destruct (removeNode_found_preserves _ d cs p (next_ref s)
                (is_list_next_ref _ _ _ (find_cell p cs (next_ref s)).2 Hl))
      as (s' & Hs' & Hp).
    exists s'. split; [exact Hs'|].
    eapply preserves_trans; [apply (preserves_next_ref _ _ _ (find_cell p cs (next_ref s)).2)|].
    exact Hp.
  - destruct (query_spec s d cs q Hl Hheld) as (r & n & Hq & Hr).
    rewrite (bind_run _ _ _ _ _ Hq). apply (is_list_next_ref _ _ _ n) in Hl.
    destruct Hr as [->|(xs & c & ys & -> & ->)].
    + eexists. split; [reflexivity|]. apply preserves_next_ref.
    + destruct (removeNode_member_preserves _ d xs c ys Hl) as (s' & Hs' & Hp).
      exists s'. split; [exact Hs'|].
      eapply preserves_trans; [apply (preserves_next_ref _ _ _ n)|exact Hp].
  - destruct (removeHead_spec _ _ _ Hl) as (s' & -> & _ & _ & Hp & _). by exists s'.
  - destruct (removeTail_spec _ _ _ Hl) as (s' & -> & _ & _ & Hp & _). by exists s'.
  - destruct (clear_spec _ _ _ Hl) as (s' & -> & _ & _ & Hp & _). by exists s'.
  - destruct (query_spec s d cs q Hl Hheld) as (r & n & Hq & Hr).
    rewrite (bind_run _ _ _ _ _ Hq). apply (is_list_next_ref _ _ _ n) in Hl.
    destruct Hr as [->|(xs & c & ys & -> & ->)].
    + eexists. split; [reflexivity|]. apply preserves_next_ref.
    + destruct (insertAfterNode_spec _ _ _ _ _ v Hl) as (s' & -> & _ & _ & Hp & _).
      exists s'. split; [done|].
      eapply preserves_trans; [apply (preserves_next_ref _ _ _ n)|exact Hp].
  - destruct (query_spec s d cs q Hl Hheld) as (r & n & Hq & Hr).
    rewrite (bind_run _ _ _ _ _ Hq). apply (is_list_next_ref _ _ _ n) in Hl.
    destruct Hr as [->|(xs & c & ys & -> & ->)].
    + eexists. split; [reflexivity|]. apply preserves_next_ref.
    + destruct (insertBeforeNode_spec _ _ _ _ _ v Hl) as (s' & -> & _ & _ & Hp & _).
      exists s'. split; [done|].
      eapply preserves_trans; [apply (preserves_next_ref _ _ _ n)|exact Hp].
  - destruct (fromArray_spec _ _ _ arr Hl) as (s' & -> & _ & _ & Hp & _). by exists s'.
Qed.

(** X26. An operation on one list, handed a node of that list if it is
    handed one, never touches another list: with two correctly linked lists
    that share no node in one store, whatever operation among [append],
    [prepend], [insertAfter], [insertBefore], [insertAfterNode],
    [insertBeforeNode], [remove], [removeNode], [removeHead], [removeTail],
    [clear] and [fromArray] is run on the first with [null] or one of its
    own nodes, and whether it returns or throws (also when it throws half
    way through [removeNode]), the second list is afterwards exactly as it
    was, node for node. *)
Theorem operations_leave_other_lists_alone
    (s : Store) (d : loc) (cs : list (loc * value))
    (d' : loc) (cs' : list (loc * value)) (o : op) :
  is_list s d cs → is_list s d' cs' → d' ≠ d →
  (∀ l, l ∈ cs'.*1 → l ∉ cs.*1) →
  own_node d o s = true →
  ∃ s', store_after (exec d o s) = Some s'
        ∧ is_list s' d' cs'
        ∧ (∀ l, l ∈ cs'.*1 → nodes s' !! l = nodes s !! l)
        ∧ dlls s' !! d' = dlls s !! d'.
Proof.
  intros Hl Hl' Hne Hdisj Hown.
  destruct (exec_preserves s d cs o Hl Hown) as (s' & Hs' & Hp).
  exists s'. split; [exact Hs'|]. split; [by eapply is_list_frame|].
  destruct Hp as [Hn Hd]. split.
  - intros l Hin. apply list_elem_of_fmap in Hin as (c & -> & Hc).
    apply list_elem_of_split in Hc as (xs & ys & ->).
    destruct Hl' as (_ & Hseg & _). pose proof (seg_middle _ _ _ _ _ _ Hseg) as Hc.
    rewrite Hc. apply Hn; [|exact Hc].
    apply Hdisj. rewrite fmap_app, fmap_cons. apply elem_of_app. right. by left.
  - destruct Hl' as (HD & _). rewrite HD. by apply Hd.
Qed.

Lemma is_list_two : is_list store_two 0 cells_123 ∧ is_list store_two 1 cells_78.
Proof.
  split; (split_and!; [reflexivity|by repeat split|]);
    apply NoDup_ListNoDup; repeat constructor; simpl; intuition lia.
Qed.

Lemma operations_leave_other_lists_alone_witness :
  ∃ s', store_after (exec 0 (OpRemoveNode (Held (Some 2))) store_two) = Some s'
        ∧ is_list s' 1 cells_78
        ∧ (∀ l, l ∈ cells_78.*1 → nodes s' !! l = nodes store_two !! l)
        ∧ dlls s' !! 1 = dlls store_two !! 1.
Proof.
  apply (operations_leave_other_lists_alone store_two 0 cells_123 1 cells_78
           (OpRemoveNode (Held (Some 2)))).
  - exact (proj1 is_list_two).
  - exact (proj2 is_list_two).
  - lia.
  - intros l Hl Hl'. apply list_elem_of_In in Hl, Hl'. simpl in Hl, Hl'. lia.
  - reflexivity.
Defined.

(** The proviso is needed: [insertAfterNode] on the list at 0 with the first
    node of the list at 1 returns, and links its new node into the list at
    1, whose [length] then no longer counts its nodes. *)
Example node_of_another_list :
  ∃ s', exec 0 (OpInsertAfterNode (Held (Some 3)) (VNum 9)) store_two = Ret 0 s'
        ∧ own_node 0 (OpInsertAfterNode (Held (Some 3)) (VNum 9)) store_two = false
        ∧ ListObj.length <$> dlls s' !! 1 = Some 2%Z
        ∧ count_next (nodes s') (length (nodes s')) (dlls s' !! 1 ≫= ListObj.head_node)
          = Some 3.
Proof. eexists. split; [reflexivity|]. by vm_compute. Qed.
